(** * Linear-chain CRF inference: a shallow embedding of pytorch_partial_crf

    The development embeds [crf.py] and [partial_crf.py] over the real
    numbers of the Standard Library and checks the properties the
    specification states about the partition engine, the gold scorers,
    the forward/backward marginals and the Viterbi decoder.

    Conventions.
    - A tensor is a nested list; a scalar entry is a real number, so every
      arithmetic step is exact.
    - The batch axis is carried by [map]: inside the time loop every tensor
      operation of the source acts on each batch row on its own, so a
      vectorised method is the row-level function mapped over the rows.
      The one place where rows meet (the flat view indexed at the end of
      [PartialCRF._numerator_score]) is modelled on the whole batch.
    - Shapes are taken from [emissions] as the source does; indices that a
      loop bound keeps in range are read with [nth], indices that come
      from data (tags, mask sums) go through fallible lookups. *)

From Stdlib Require Import Reals Lra Lia List ZArith Bool Arith.
Import ListNotations.
Local Open Scope R_scope.

(** ** Tensors and indexing *)

Definition tensor1 := list R.
Definition tensor2 := list (list R).
Definition tensor3 := list (list (list R)).

Definition at1 (x : tensor1) (v : nat) : R := nth v x 0.
Definition at2 (x : tensor2) (u v : nat) : R := nth v (nth u x []) 0.

Definition vsum (xs : list R) : R := fold_right Rplus 0 xs.

Definition vmax (xs : list R) : R :=
  match xs with
  | [] => 0
  | x :: r => fold_left Rmax r x
  end.

(** [(batch_size, sequence_length, num_tags) = emissions.shape] *)
Definition shape3 (x : tensor3) : nat * nat * nat :=
  (length x, length (hd [] x), length (hd [] (hd [] x))).

(** [mask.float()] on one entry of a 0/1 mask. *)
Definition mask_float (b : bool) : R := if b then 1 else 0.

(** [mask.sum(0).long()] for one row. *)
Definition mask_sum (mask : list bool) : Z :=
  Z.of_nat (length (filter (fun b => b) mask)).

(** [torch.ones_like(tags, dtype=uint8)] and [torch.ones([B, L], dtype=uint8)] *)
Definition ones_like {A} (tags : list (list A)) : list (list bool) :=
  map (map (fun _ => true)) tags.

Definition ones (B L : nat) : list (list bool) := repeat (repeat true L) B.

(** Fallible computations: [None] is a raised exception. *)
Definition bind {A B} (x : option A) (f : A -> option B) : option B :=
  match x with
  | Some a => f a
  | None => None
  end.

Notation "x <- c1 ;; c2" := (bind c1 (fun x => c2))
  (at level 61, c1 at next level, right associativity).

Fixpoint sequence_opt {A} (xs : list (option A)) : option (list A) :=
  match xs with
  | [] => Some []
  | x :: r => a <- x ;; l <- sequence_opt r ;; Some (a :: l)
  end.

(** [torch.gather] and [index_select]: an index outside [0, n) raises. *)
Definition gather {A} (xs : list A) (i : Z) : option A :=
  if ((0 <=? i) && (i <? Z.of_nat (length xs)))%Z
  then nth_error xs (Z.to_nat i) else None.

Definition index_select {A} (xs : list A) (i : Z) : option A := gather xs i.

(** Tensor indexing [x[i]] with an integer tensor [i]: a negative index
    counts from the end, an index outside [-n, n) raises. *)
Definition index_wrap {A} (xs : list A) (i : Z) : option A :=
  let n := Z.of_nat (length xs) in
  if ((0 <=? i) && (i <? n))%Z then nth_error xs (Z.to_nat i)
  else if ((- n <=? i) && (i <? 0))%Z then nth_error xs (Z.to_nat (i + n))
  else None.

(** Python list slice [xs[:k]]. *)
Definition slice_to {A} (xs : list A) (k : Z) : list A :=
  if (k <? 0)%Z then firstn (Z.to_nat (Z.of_nat (length xs) + k)) xs
  else firstn (Z.to_nat k) xs.

(** [values, indices = x.max(dim)] along one reduction group: the largest
    entry and the index of its first occurrence. *)
Fixpoint max_from (xs : list R) (i : nat) (best : R) (bi : nat) : R * nat :=
  match xs with
  | [] => (best, bi)
  | x :: r => if Rlt_dec best x then max_from r (S i) x i
              else max_from r (S i) best bi
  end.

Definition max_dim (xs : list R) : R * nat :=
  match xs with
  | [] => (0, 0%nat)
  | x :: r => max_from r 1 x 0
  end.

(** Modelled from the spec: [log_sum_exp] of [pytorch_partial_crf/utils.py],
    which is not part of the sources at hand.  Section 4.1 of the
    specification: subtract the maximum of the reduction group before
    exponentiating and add it back after taking the logarithm. *)
Definition log_sum_exp (xs : list R) : R :=
  let m := vmax xs in
  m + ln (vsum (map (fun x => exp (x - m)) xs)).

(** Modelled from the spec: [create_possible_tag_masks] of
    [pytorch_partial_crf/utils.py], which is not part of the sources at
    hand.  Given a gold tag sequence it produces the boolean allow-matrix
    (position x tags) whose row at a position allows exactly the gold tag. *)
Definition create_possible_tag_masks (num_tags : nat) (tags : list (list Z))
  : list (list (list bool)) :=
  map (map (fun t => map (fun v => (t =? Z.of_nat v)%Z) (seq 0 num_tags))) tags.

(** ** What a call leaves behind

    A scoring method of [PartialCRF] is observed through three things: what
    it wrote to standard output (one entry per [print] call), the content
    of the caller's [emissions] tensor after the call, and the value it
    returned ([None] when it raised). *)

Record outcome (A : Type) : Type := {
  stdout : list tensor2;
  caller_emissions : tensor3;
  result : option A
}.

Arguments stdout {A} _.
Arguments caller_emissions {A} _.
Arguments result {A} _.

(** ** Model parameters *)

Record crf_params : Type := {
  num_tags : nat;
  start_transitions : tensor1;
  end_transitions : tensor1;
  transitions : tensor2
}.

Definition IMPOSSIBLE_SCORE : R := -10000000.

(** ** The recursions shared by both classes

    [CRF] and [PartialCRF] carry textually identical copies of the
    partition engine and of the Viterbi decoder; the row-level bodies are
    written once. *)

Section Engines.

Variable self : crf_params.

(** [alpha = self.start_transitions.view(1, num_tags) + emissions[0]] *)
Definition start_plus_first (T : nat) (e0 : tensor1) : tensor1 :=
  map (fun v => at1 (start_transitions self) v + at1 e0 v) (seq 0 T).

(** One pass of the loop body of [_denominator_score]:
    [inner = broadcast_alpha + emissions_score + transition_scores],
    [alpha = log_sum_exp(inner, 1) * mask[i] + alpha * (1 - mask[i])]. *)
Definition denominator_step (T : nat) (alpha e : tensor1) (m : R) : tensor1 :=
  map (fun v =>
         log_sum_exp
           (map (fun u => at1 alpha u + at1 e v + at2 (transitions self) u v)
                (seq 0 T)) * m
         + at1 alpha v * (1 - m))
      (seq 0 T).

Definition denominator_alpha (L T : nat) (em : tensor2) (mask : list bool)
  : tensor1 :=
  fold_left
    (fun alpha i =>
       denominator_step T alpha (nth i em []) (mask_float (nth i mask false)))
    (seq 1 (L - 1))
    (start_plus_first T (nth 0 em [])).

(** [stops = alpha + end_transitions; return log_sum_exp(stops)] *)
Definition denominator_row (L T : nat) (em : tensor2) (mask : list bool) : R :=
  let alpha := denominator_alpha L T em mask in
  log_sum_exp (map (fun v => at1 alpha v + at1 (end_transitions self) v) (seq 0 T)).

Definition denominator_score (emissions : tensor3) (mask : list (list bool))
  : option (list R) :=
  let '(B, L, T) := shape3 emissions in
  if ((0 <? B) && (L =? 0))%nat then None (* emissions[0] on an empty axis *)
  else Some (map (fun b => denominator_row L T (nth b emissions [])
                                           (nth b mask []))
                 (seq 0 B)).

(** The loop body of the Viterbi decoder:
    [next_score = broadcast_score + self.transitions + broadcast_emissions],
    [next_score, indices = next_score.max(dim=1)]. *)
Definition viterbi_candidates (T : nat) (score e : tensor1) : list (R * nat) :=
  map (fun v =>
         max_dim (map (fun u => at1 score u + at2 (transitions self) u v + at1 e v)
                      (seq 0 T)))
      (seq 0 T).

Definition viterbi_step (T : nat) (em : tensor2) (mask : list bool)
           (st : tensor1 * list (list nat)) (i : nat)
  : tensor1 * list (list nat) :=
  let '(score, history) := st in
  let cand := viterbi_candidates T score (nth i em []) in
  let next_score := map fst cand in
  let indices := map snd cand in
  ((if nth i mask false then next_score else score), history ++ [indices]).

(** The score vector after [score += self.end_transitions], and the
    recorded backpointers. *)
Definition viterbi_scores (L T : nat) (em : tensor2) (mask : list bool)
  : tensor1 * list (list nat) :=
  let '(score, history) :=
    fold_left (viterbi_step T em mask) (seq 1 (L - 1))
              (start_plus_first T (nth 0 em []), []) in
  (map (fun v => at1 score v + at1 (end_transitions self) v) (seq 0 T), history).

(** The per-row body of the path reconstruction. *)
Definition viterbi_row (L T : nat) (em : tensor2) (mask : list bool)
  : list nat :=
  let '(score, history) := viterbi_scores L T em mask in
  let seq_ends := (mask_sum mask - 1)%Z in
  let best_last_tag := snd (max_dim score) in
  let best_tags :=
    fold_left (fun best_tags hist =>
                 best_tags ++ [nth (last best_tags 0%nat) hist 0%nat])
              (rev (slice_to history seq_ends))
              [best_last_tag] in
  rev best_tags.

Definition viterbi_tags (emissions : tensor3) (mask : list (list bool))
  : option (list (list nat)) :=
  let '(B, L, T) := shape3 emissions in
  if ((0 <? B) && (L =? 0))%nat then None
  else Some (map (fun b => viterbi_row L T (nth b emissions [])
                                       (nth b mask []))
                 (seq 0 B)).

End Engines.

(** ** class CRF *)

Module CRF.

Section Methods.

Variable self : crf_params.

Definition _denominator_score (emissions : tensor3) (mask : list (list bool))
  : option (list R) :=
  denominator_score self emissions mask.

(** One pass of the loop of [_numerator_score]:
    [score += transition_score * mask[i + 1] + emissions_score * mask[i]]. *)
Definition numerator_step (em : tensor2) (tags : list Z) (mask : list bool)
           (acc : option R) (i : nat) : option R :=
  score <- acc ;;
  let current_tag := nth i tags 0%Z in
  let next_tag := nth (i + 1) tags 0%Z in
  emissions_score <- gather (nth i em []) current_tag ;;
  transition_row <- index_wrap (transitions self) current_tag ;;
  transition_score <- index_wrap transition_row next_tag ;;
  Some (score + (transition_score * mask_float (nth (i + 1) mask false)
                 + emissions_score * mask_float (nth i mask false))).

Definition numerator_row (L : nat) (em : tensor2) (tags : list Z)
           (mask : list bool) : option R :=
  score0 <- index_select (start_transitions self) (nth 0 tags 0%Z) ;;
  score <- fold_left (numerator_step em tags mask) (seq 0 (L - 1)) (Some score0) ;;
  let last_tag_index := (mask_sum mask - 1)%Z in
  last_tags <- gather tags last_tag_index ;;
  last_transition_score <- index_select (end_transitions self) last_tags ;;
  last_input_score <- gather (nth (L - 1) em []) last_tags ;;
  Some (score + last_transition_score
        + last_input_score * mask_float (nth (L - 1) mask false)).

Definition _numerator_score (emissions : tensor3) (tags : list (list Z))
           (mask : list (list bool)) : option (list R) :=
  let '(B, L, _) := shape3 emissions in
  if ((0 <? B) && (L =? 0))%nat then None
  else sequence_opt
         (map (fun b => numerator_row L (nth b emissions []) (nth b tags [])
                                      (nth b mask []))
              (seq 0 B)).

Definition forward (emissions : tensor3) (tags : list (list Z))
           (mask : option (list (list bool))) : option R :=
  let mask := match mask with
              | None => ones_like tags
              | Some m => m
              end in
  gold_score <- _numerator_score emissions tags mask ;;
  forward_score <- _denominator_score emissions mask ;;
  Some (vsum (map (fun b => nth b forward_score 0 - nth b gold_score 0)
                  (seq 0 (length forward_score)))).

(** The loop body of [_forward_algorithm].  In the reverse direction the
    transition matrix and the emissions are transposed, so the reduction
    runs over the destination tag. *)
Definition forward_backward_step (T : nat) (reverse_direction : bool)
           (log_proba e : tensor1) (m : R) : tensor1 :=
  if reverse_direction then
    map (fun c =>
           log_sum_exp
             (map (fun a => at1 log_proba a + at2 (transitions self) c a + at1 e a)
                  (seq 0 T)) * m
           + at1 log_proba c * (1 - m))
        (seq 0 T)
  else
    map (fun v =>
           log_sum_exp
             (map (fun u => at1 log_proba u + at2 (transitions self) u v + at1 e v)
                  (seq 0 T)) * m
           + at1 log_proba v * (1 - m))
        (seq 0 T).

Definition forward_algorithm_row (L T : nat) (em : tensor2) (mask : list bool)
           (reverse_direction : bool) : tensor2 :=
  let sequence_iter :=
    if reverse_direction then rev (seq 1 (L - 1)) else seq 1 (L - 1) in
  let init :=
    if reverse_direction then [end_transitions self]
    else [map (fun v => at1 (nth 0 em []) v + at1 (start_transitions self) v)
              (seq 0 T)] in
  let log_proba :=
    fold_left
      (fun log_proba i =>
         log_proba ++
           [forward_backward_step T reverse_direction (last log_proba [])
                                  (nth i em []) (mask_float (nth i mask false))])
      sequence_iter init in
  if reverse_direction then rev log_proba else log_proba.

(** [torch.stack(log_proba)]: shape (sequence_length, batch_size, num_tags). *)
Definition _forward_algorithm (emissions : tensor3) (mask : list (list bool))
           (reverse_direction : bool) : option tensor3 :=
  let '(B, L, T) := shape3 emissions in
  if ((0 <? B) && (L =? 0))%nat then None
  else Some (map (fun i =>
                    map (fun b =>
                           nth i (forward_algorithm_row L T (nth b emissions [])
                                    (nth b mask []) reverse_direction) [])
                        (seq 0 B))
                 (seq 0 L)).

Definition marginal_probabilities (emissions : tensor3)
           (mask : option (list (list bool))) : option tensor3 :=
  let '(B, L, T) := shape3 emissions in
  let mask := match mask with
              | None => ones B L
              | Some m => m
              end in
  alpha <- _forward_algorithm emissions mask false ;;
  beta <- _forward_algorithm emissions mask true ;;
  let z := map (fun b =>
                  log_sum_exp
                    (map (fun v => at2 (nth (length alpha - 1) alpha []) b v
                                   + at1 (end_transitions self) v)
                         (seq 0 T)))
               (seq 0 B) in
  Some (map (fun i =>
               map (fun b =>
                      map (fun v => exp (at2 (nth i alpha []) b v
                                         + at2 (nth i beta []) b v
                                         - nth b z 0))
                          (seq 0 T))
                   (seq 0 B))
            (seq 0 (length alpha))).

Definition viterbi_decode (emissions : tensor3)
           (mask : option (list (list bool))) : option (list (list nat)) :=
  let '(B, L, _) := shape3 emissions in
  let mask := match mask with
              | None => ones B L
              | Some m => m
              end in
  viterbi_tags self emissions mask.

End Methods.

End CRF.

(** ** class PartialCRF *)

Module PartialCRF.

Section Methods.

Variable self : crf_params.

Definition _denominator_score (emissions : tensor3) (mask : list (list bool))
  : option (list R) :=
  denominator_score self emissions mask.

(** [possible_tags.float()] at one tag of one position. *)
Definition possible_float (possible : list bool) (v : nat) : R :=
  mask_float (nth v possible false).

(** [alpha = self.start_transitions + emissions[0]],
    [alpha[(first_possible_tag == 0)] = IMPOSSIBLE_SCORE]. *)
Definition restricted_first (T : nat) (e0 : tensor1)
           (first_possible_tag : list bool) : tensor1 :=
  map (fun v =>
         if Req_dec_T (possible_float first_possible_tag v) 0
         then IMPOSSIBLE_SCORE
         else at1 (start_transitions self) v + at1 e0 v)
      (seq 0 T).

(** [emissions_score[(next_possible_tags == 0)] = IMPOSSIBLE_SCORE] *)
Definition restricted_emission (e : tensor1) (next_possible_tags : list bool)
           (v : nat) : R :=
  if Req_dec_T (possible_float next_possible_tags v) 0
  then IMPOSSIBLE_SCORE else at1 e v.

(** [transition_scores = transitions * current_possible * next_possible],
    [transition_scores[(transition_scores == 0)] = IMPOSSIBLE_SCORE]. *)
Definition restricted_transition (current_possible_tags next_possible_tags : list bool)
           (u v : nat) : R :=
  let x := at2 (transitions self) u v
           * possible_float current_possible_tags u
           * possible_float next_possible_tags v in
  if Req_dec_T x 0 then IMPOSSIBLE_SCORE else x.

Definition numerator_step (T : nat) (alpha e : tensor1)
           (current_possible_tags next_possible_tags : list bool) (m : R)
  : tensor1 :=
  map (fun v =>
         log_sum_exp
           (map (fun u => at1 alpha u
                          + restricted_emission e next_possible_tags v
                          + restricted_transition current_possible_tags
                                                  next_possible_tags u v)
                (seq 0 T)) * m
         + at1 alpha v * (1 - m))
      (seq 0 T).

Definition numerator_alpha (L T : nat) (em : tensor2) (mask : list bool)
           (possible : list (list bool)) : tensor1 :=
  fold_left
    (fun alpha i =>
       numerator_step T alpha (nth i em []) (nth (i - 1) possible [])
                      (nth i possible []) (mask_float (nth i mask false)))
    (seq 1 (L - 1))
    (restricted_first T (nth 0 em []) (nth 0 possible [])).

(** [end_transitions = self.end_transitions * possible_tags[last]],
    [end_transitions[(end_transitions == 0)] = IMPOSSIBLE_SCORE]. *)
Definition restricted_end (last_possible : list bool) (v : nat) : R :=
  let x := at1 (end_transitions self) v * possible_float last_possible v in
  if Req_dec_T x 0 then IMPOSSIBLE_SCORE else x.

(** Row [b] of
    [possible_tags.view(L * B, T)[last_tag_indexes + arange(B) * L]]. *)
Definition last_possible_tags (L : nat) (possible_tags : list (list (list bool)))
           (mask : list (list bool)) (b : nat) : option (list bool) :=
  index_wrap (concat possible_tags)
             (mask_sum (nth b mask []) - 1 + Z.of_nat b * Z.of_nat L)%Z.

Definition numerator_row (L T : nat) (emissions : tensor3)
           (mask : list (list bool)) (possible_tags : list (list (list bool)))
           (b : nat) : option R :=
  let alpha := numerator_alpha L T (nth b emissions []) (nth b mask [])
                               (nth b possible_tags []) in
  last_possible <- last_possible_tags L possible_tags mask b ;;
  Some (log_sum_exp
          (map (fun v => at1 alpha v + restricted_end last_possible v)
               (seq 0 T))).

(** The loop assigns the sentinel into [emissions[i]] in place, for every
    [i] in [range(1, L)] and whatever the mask says. *)
Definition overwritten_row (L T : nat) (em : tensor2)
           (possible : list (list bool)) : tensor2 :=
  map (fun i => if (i =? 0)%nat then nth i em []
                else map (restricted_emission (nth i em []) (nth i possible []))
                         (seq 0 T))
      (seq 0 L).

(** [emissions.transpose(0, 1).contiguous()] is a copy of the caller's
    tensor unless the transposed tensor is contiguous already, in which
    case it is a view of the caller's storage.  With a batch of one row
    the transposed tensor is contiguous (an axis of size 1 does not count),
    so the in-place assignments of the loop land in the caller's tensor.
    (With one timestep it is contiguous as well, but then the loop does
    not run.) *)
Definition transposed_is_view (B : nat) : bool := (B =? 1)%nat.

(** The method prints the tensor [alpha] of line 100 once. *)
Definition _numerator_score (emissions : tensor3) (tags : list (list Z))
           (mask : list (list bool)) (possible_tags : list (list (list bool)))
  : outcome (list R) :=
  let '(B, L, T) := shape3 emissions in
  if ((0 <? B) && (L =? 0))%nat
  then {| stdout := []; caller_emissions := emissions; result := None |}
  else
    let alpha := map (fun b => restricted_first T (nth 0 (nth b emissions []) [])
                                                (nth 0 (nth b possible_tags []) []))
                     (seq 0 B) in
    {| stdout := [alpha];
       caller_emissions :=
         if transposed_is_view B
         then map (fun b => overwritten_row L T (nth b emissions [])
                                            (nth b possible_tags []))
                  (seq 0 B)
         else emissions;
       result :=
         sequence_opt
           (map (numerator_row L T emissions mask possible_tags) (seq 0 B)) |}.

(** [_denominator_score] reads the caller's tensor after the numerator
    has run. *)
Definition forward (emissions : tensor3) (tags : list (list Z))
           (mask : option (list (list bool))) : outcome R :=
  let mask := match mask with
              | None => ones_like tags
              | Some m => m
              end in
  let possible_tags := create_possible_tag_masks (num_tags self) tags in
  let gold := _numerator_score emissions tags mask possible_tags in
  {| stdout := stdout gold;
     caller_emissions := caller_emissions gold;
     result :=
       gold_score <- result gold ;;
       forward_score <- _denominator_score (caller_emissions gold) mask ;;
       Some (vsum (map (fun b => nth b forward_score 0 - nth b gold_score 0)
                       (seq 0 (length forward_score)))) |}.

Definition _viterbi_tags (emissions : tensor3) (mask : list (list bool))
  : option (list (list nat)) :=
  viterbi_tags self emissions mask.

End Methods.

End PartialCRF.

(** ** The quantities the specification compares against *)

(** A mask row whose valid positions are exactly [0, n) out of [L]. *)
Definition prefix_mask (n L : nat) : list bool :=
  repeat true n ++ repeat false (L - n).

(** All tag sequences of length [n] over [T] tags. *)
Fixpoint all_seqs (T n : nat) : list (list nat) :=
  match n with
  | O => [[]]
  | S n' => flat_map (fun t => map (cons t) (all_seqs T n')) (seq 0 T)
  end.

(** [start[t_0] + sum_i emissions_i[t_i] + sum_i transition[t_i, t_{i+1}]
    + end[t_{n-1}]] for a tag sequence [t] of length [n]. *)
Definition path_score (self : crf_params) (em : tensor2) (t : list nat) : R :=
  let n := length t in
  at1 (start_transitions self) (nth 0 t 0%nat)
  + vsum (map (fun i => at1 (nth i em []) (nth i t 0%nat)) (seq 0 n))
  + vsum (map (fun i => at2 (transitions self) (nth i t 0%nat) (nth (S i) t 0%nat))
              (seq 0 (n - 1)))
  + at1 (end_transitions self) (nth (n - 1) t 0%nat).

(** Shapes agree: [B] rows of [L] positions of [T] scores, and parameters
    over [T] tags. *)
Definition well_shaped (self : crf_params) (B L T : nat) (emissions : tensor3)
  : Prop :=
  length emissions = B /\
  Forall (fun row => length row = L /\ Forall (fun e => length e = T) row)
         emissions /\
  num_tags self = T /\
  length (start_transitions self) = T /\
  length (end_transitions self) = T /\
  length (transitions self) = T /\
  Forall (fun r => length r = T) (transitions self).

(** Every row's mask is a non-empty contiguous prefix. *)
Definition valid_masks (B L : nat) (mask : list (list bool)) : Prop :=
  forall b, (b < B)%nat ->
            exists n, (1 <= n <= L)%nat /\ nth b mask [] = prefix_mask n L.

(** Every row carries [L] tags, each of them a tag index. *)
Definition valid_tags (B L T : nat) (tags : list (list Z)) : Prop :=
  forall b, (b < B)%nat ->
            length (nth b tags []) = L /\
            Forall (fun t => (0 <= t < Z.of_nat T)%Z) (nth b tags []).

(** ** Loops that grow a list

    [_forward_algorithm] and the path reconstruction of the Viterbi decoder
    both run [xs.append(f(xs[-1], i))] over a list of steps.  [trace] is the
    list of appended values; [backward] is the same list read from the far
    end, which is what the source obtains with [reverse()]. *)

Fixpoint trace {A B} (f : A -> B -> A) (x : A) (steps : list B) : list A :=
  match steps with
  | [] => []
  | i :: r => f x i :: trace f (f x i) r
  end.

Fixpoint backward {A B} (f : A -> B -> A) (d x : A) (steps : list B) : list A :=
  match steps with
  | [] => [x]
  | i :: r => f (hd d (backward f d x r)) i :: backward f d x r
  end.

(** ** Path scores, step by step *)

(** The score of entering tag [v] at position [k] from tag [u], and of
    stopping in tag [v]. *)
Definition step_weight (self : crf_params) (em : tensor2) (k u v : nat) : R :=
  at1 (nth k em []) v + at2 (transitions self) u v.

Definition stop_weight (self : crf_params) (v : nat) : R :=
  at1 (end_transitions self) v.

(** ** Right-padding a batch

    [pad_emissions] appends to every row the extra timesteps of [extra];
    [pad_mask] appends [k] invalid positions to every row of the mask. *)

Definition pad_emissions (emissions extra : tensor3) : tensor3 :=
  map (fun p => fst p ++ snd p) (combine emissions extra).

Definition pad_mask (mask : list (list bool)) (k : nat) : list (list bool) :=
  map (fun m => m ++ repeat false k) mask.

(** [extra] holds, for each of [B] rows, [k] score vectors over [T] tags. *)
Definition extra_shaped (B k T : nat) (extra : tensor3) : Prop :=
  length extra = B /\
  Forall (fun row => length row = k /\ Forall (fun e => length e = T) row) extra.

(** ** The sum-product recursion in general form

    [w k u v] is the score of entering tag [v] at position [k] coming from
    tag [u]; [fin v] is the score of stopping in tag [v].  The partition
    engine and the partial gold scorer are both instances of [chain_step];
    [chain] is the score a tag sequence collects from position [k] on. *)

Definition chain_step (T : nat) (w : nat -> nat -> nat -> R)
           (alpha : tensor1) (k : nat) : tensor1 :=
  map (fun v => log_sum_exp (map (fun u => at1 alpha u + w k u v) (seq 0 T)))
      (seq 0 T).

Fixpoint chain (w : nat -> nat -> nat -> R) (fin : nat -> R)
         (u : nat) (s : list nat) (k : nat) : R :=
  match s with
  | [] => fin u
  | t :: s' => w k u t + chain w fin t s' (S k)
  end.

(** ** The scores the partial gold scorer sums over

    [restricted_weight] is the step score the loop of
    [PartialCRF._numerator_score] adds at position [k]: the restricted
    emission of the destination plus the restricted transition.
    [restricted_path_score] is what a whole tag sequence collects from
    these restricted scores. *)

Definition restricted_weight (self : crf_params) (em : tensor2)
           (possible : list (list bool)) (k u v : nat) : R :=
  PartialCRF.restricted_emission (nth k em []) (nth k possible []) v
  + PartialCRF.restricted_transition self (nth (k - 1) possible [])
                                     (nth k possible []) u v.

Definition restricted_path_score (self : crf_params) (T : nat) (em : tensor2)
           (possible : list (list bool)) (last_possible : list bool)
           (t : list nat) : R :=
  match t with
  | [] => 0
  | u :: s =>
      at1 (PartialCRF.restricted_first self T (nth 0 em []) (nth 0 possible [])) u
      + chain (restricted_weight self em possible)
              (PartialCRF.restricted_end self last_possible) u s 1
  end.

Definition tsum (T : nat) (f : nat -> R) : R := vsum (map f (seq 0 T)).

Definition ssum {A} (l : list A) (f : A -> R) : R := vsum (map f l).

(** The scenario of the specification: two tags, three positions, one row. *)
Definition example_crf : crf_params :=
  {| num_tags := 2;
     start_transitions := [0.1; -0.2];
     end_transitions := [0.3; 0.1];
     transitions := [[0.5; -0.5]; [-0.5; 0.5]] |}.

Definition example_emissions : tensor3 := [[[1; 0]; [0; 1]; [1; 0]]].

Definition example_tags : list (list Z) := [[0; 1; 0]]%Z.

(** The marginals of one row at position [i], from the row's forward and
    backward passes. *)
Definition marginal_row_entry (self : crf_params) (L T : nat) (em : tensor2)
           (m : list bool) (i : nat) : tensor1 :=
  let alpha := CRF.forward_algorithm_row self L T em m false in
  let beta := CRF.forward_algorithm_row self L T em m true in
  let z := log_sum_exp (map (fun v => at1 (nth (L - 1) alpha []) v
                                      + at1 (end_transitions self) v)
                            (seq 0 T)) in
  map (fun v => exp (at1 (nth i alpha []) v + at1 (nth i beta []) v - z))
      (seq 0 T).

(** The value the partial gold scorer returns for row [b]. *)
Definition partial_row_value (self : crf_params) (L T : nat) (emissions : tensor3)
           (mask : list (list bool)) (possible_tags : list (list (list bool)))
           (b : nat) : R :=
  log_sum_exp
    (map (fun v =>
            at1 (PartialCRF.numerator_alpha self L T (nth b emissions [])
                   (nth b mask []) (nth b possible_tags [])) v
            + PartialCRF.restricted_end self
                (nth (Z.to_nat (mask_sum (nth b mask [])) - 1)
                     (nth b possible_tags []) [])
                v)
         (seq 0 T)).

(** A model whose transition from tag 0 to tag 0 scores exactly zero. *)
Definition zero_transition_crf : crf_params :=
  {| num_tags := 2;
     start_transitions := [0.1; -0.2];
     end_transitions := [0.3; 0.1];
     transitions := [[0; -0.5]; [-0.5; 0.5]] |}.

(** A row of two positions whose gold path [0, 0] runs through that
    transition. *)
Definition zero_transition_emissions : tensor3 := [[[1; 0]; [1; 0]]].

Definition zero_transition_tags : list (list Z) := [[0; 0]]%Z.

(** [xs.append(f(xs[-1], i))] *)
Definition append_step {A B} (f : A -> B -> A) (d : A) (xs : list A) (i : B)
  : list A :=
  xs ++ [f (last xs d) i].

(** ** The steps of the forward and backward passes on one row *)

Definition alpha_step (self : crf_params) (T : nat) (em : tensor2)
           (mask : list bool) (a : tensor1) (i : nat) : tensor1 :=
  CRF.forward_backward_step self T false a (nth i em [])
                            (mask_float (nth i mask false)).

Definition beta_step (self : crf_params) (T : nat) (em : tensor2)
           (mask : list bool) (b : tensor1) (i : nat) : tensor1 :=
  CRF.forward_backward_step self T true b (nth i em [])
                            (mask_float (nth i mask false)).

Definition alpha_first (self : crf_params) (T : nat) (em : tensor2) : tensor1 :=
  map (fun v => at1 (nth 0 em []) v + at1 (start_transitions self) v) (seq 0 T).

(** The total weight of the paths through a position, given the forward
    vector [a] and the backward vector [b] there. *)
Definition pairing (T : nat) (a b : tensor1) : R :=
  tsum T (fun v => exp (at1 a v + at1 b v)).

(** ** The valid steps of the Viterbi decoder on one row *)

(** The new score vector and the backpointers of a valid step. *)
Definition best_scores (self : crf_params) (T : nat) (em : tensor2)
           (score : tensor1) (i : nat) : tensor1 :=
  map fst (viterbi_candidates self T score (nth i em [])).

Definition best_sources (self : crf_params) (T : nat) (em : tensor2)
           (score : tensor1) (i : nat) : list nat :=
  map snd (viterbi_candidates self T score (nth i em [])).

Fixpoint backpointers (self : crf_params) (T : nat) (em : tensor2)
         (score : tensor1) (steps : list nat) : list (list nat) :=
  match steps with
  | [] => []
  | i :: r => best_sources self T em score i
              :: backpointers self T em (best_scores self T em score i) r
  end.

(** [hist[i][best_tags[-1]]] *)
Definition follow (tag : nat) (hist : list nat) : nat := nth tag hist 0%nat.

(** ** The gold score in closed form *)

(** The gold tag at position [i], as an index. *)
Definition tag_at (tags : list Z) (i : nat) : nat := Z.to_nat (nth i tags 0%Z).

(** The formula of section 4.5 of the specification. *)
Definition gold_formula (self : crf_params) (L : nat) (em : tensor2)
           (tags : list Z) (mask : list bool) : R :=
  at1 (start_transitions self) (tag_at tags 0)
  + vsum (map (fun i => at1 (nth i em []) (tag_at tags i)
                        * mask_float (nth i mask false))
              (seq 0 L))
  + vsum (map (fun i => at2 (transitions self) (tag_at tags i) (tag_at tags (S i))
                        * mask_float (nth (S i) mask false))
              (seq 0 (L - 1)))
  + at1 (end_transitions self) (tag_at tags (Z.to_nat (mask_sum mask - 1))).

(** What one pass of the loop of the gold scorer adds. *)
Definition numerator_term (self : crf_params) (em : tensor2) (tags : list Z)
           (mask : list bool) (i : nat) : R :=
  at2 (transitions self) (tag_at tags i) (tag_at tags (S i))
  * mask_float (nth (S i) mask false)
  + at1 (nth i em []) (tag_at tags i) * mask_float (nth i mask false).

(** The row of [create_possible_tag_masks] for the tags of one row. *)
Definition singleton_sets (T : nat) (tags : list Z) : list (list bool) :=
  map (fun t => map (fun v => (t =? Z.of_nat v)%Z) (seq 0 T)) tags.

(** ** The path distribution

    [total_weight] sums [exp (path_score t)] over the tag sequences of
    length [n]; [weight_with_tag] keeps of them the sequences that carry
    tag [v] at position [i]. *)

Definition total_weight (self : crf_params) (em : tensor2) (T n : nat) : R :=
  ssum (all_seqs T n) (fun t => exp (path_score self em t)).

Definition weight_with_tag (self : crf_params) (em : tensor2) (T n i v : nat)
  : R :=
  ssum (all_seqs T n)
       (fun t => if (nth i t 0 =? v)%nat then exp (path_score self em t)
                 else 0).

(** ** Candidate sets that allow every tag

    [torch.ones(B, L, T)] passed as [possible_tags]. *)

Definition all_tags_possible (B L T : nat) : list (list (list bool)) :=
  repeat (repeat (repeat true T) L) B.

(** * Properties *)

(** ** Sums over tags and over tag sequences *)

Lemma vsum_app (xs ys : list R) : vsum (xs ++ ys) = vsum xs + vsum ys.
Proof.
  induction xs as [|x xs IH]; simpl; [lra|]. rewrite IH. lra.
Qed.

Lemma ssum_ext {A} (l : list A) (f g : A -> R) :
  (forall a, In a l -> f a = g a) -> ssum l f = ssum l g.
Proof.
  intros H. unfold ssum. f_equal. apply map_ext_in. exact H.
Qed.

Lemma ssum_scal {A} (l : list A) (c : R) (f : A -> R) :
  ssum l (fun a => c * f a) = c * ssum l f.
Proof.
  unfold ssum. induction l as [|a l IH]; simpl; [lra|]. rewrite IH. lra.
Qed.

Lemma ssum_plus {A} (l : list A) (f g : A -> R) :
  ssum l (fun a => f a + g a) = ssum l f + ssum l g.
Proof.
  unfold ssum. induction l as [|a l IH]; simpl; [lra|]. rewrite IH. lra.
Qed.

Lemma ssum_zero {A} (l : list A) : ssum l (fun _ => 0) = 0.
Proof.
  unfold ssum. induction l as [|a l IH]; simpl; [lra|]. rewrite IH. lra.
Qed.

Lemma ssum_swap {A B} (l : list A) (l' : list B) (f : A -> B -> R) :
  ssum l (fun a => ssum l' (fun b => f a b))
  = ssum l' (fun b => ssum l (fun a => f a b)).
Proof.
  induction l as [|a l IH].
  - cbn. symmetry. apply (ssum_zero l').
  - change (ssum (a :: l) (fun a0 => ssum l' (fun b => f a0 b)))
      with (ssum l' (fun b => f a b)
            + ssum l (fun a0 => ssum l' (fun b => f a0 b))).
    rewrite IH, <- ssum_plus. apply ssum_ext. intros b _. reflexivity.
Qed.

Lemma ssum_nonneg {A} (l : list A) (f : A -> R) :
  (forall a, In a l -> 0 <= f a) -> 0 <= ssum l f.
Proof.
  unfold ssum. induction l as [|a l IH]; intros H; simpl; [lra|].
  assert (0 <= f a) by (apply H; now left).
  assert (0 <= vsum (map f l)) by (apply IH; intros; apply H; now right).
  lra.
Qed.

Lemma ssum_pos {A} (l : list A) (f : A -> R) :
  l <> [] -> (forall a, In a l -> 0 < f a) -> 0 < ssum l f.
Proof.
  destruct l as [|a l]; [congruence|]. intros _ H.
  assert (0 < f a) by (apply H; now left).
  assert (0 <= ssum l f).
  { apply ssum_nonneg. intros b Hb. apply Rlt_le, H. now right. }
  unfold ssum in *. simpl. lra.
Qed.

Lemma ssum_flat_map {A B} (l : list A) (g : A -> list B) (f : B -> R) :
  ssum (flat_map g l) f = ssum l (fun a => ssum (g a) f).
Proof.
  unfold ssum. induction l as [|a l IH]; simpl; [reflexivity|].
  rewrite map_app, vsum_app, IH. reflexivity.
Qed.

Lemma ssum_map {A B} (l : list A) (g : A -> B) (f : B -> R) :
  ssum (map g l) f = ssum l (fun a => f (g a)).
Proof.
  unfold ssum. rewrite map_map. reflexivity.
Qed.

Lemma tsum_ssum (T : nat) (f : nat -> R) : tsum T f = ssum (seq 0 T) f.
Proof. reflexivity. Qed.

Lemma tsum_ext (T : nat) (f g : nat -> R) :
  (forall v, (v < T)%nat -> f v = g v) -> tsum T f = tsum T g.
Proof.
  intros H. rewrite !tsum_ssum. apply ssum_ext.
  intros v Hv. apply in_seq in Hv. apply H. lia.
Qed.

Lemma tsum_pos (T : nat) (f : nat -> R) :
  (0 < T)%nat -> (forall v, 0 < f v) -> 0 < tsum T f.
Proof.
  intros HT H. rewrite tsum_ssum. apply ssum_pos.
  - destruct T; [lia|]. simpl. congruence.
  - intros v _. apply H.
Qed.

(** Sums over all sequences split on the first tag. *)
Lemma ssum_all_seqs_S (T n : nat) (f : list nat -> R) :
  ssum (all_seqs T (S n)) f
  = tsum T (fun t => ssum (all_seqs T n) (fun s => f (t :: s))).
Proof.
  simpl. rewrite ssum_flat_map, tsum_ssum. apply ssum_ext.
  intros t _. apply ssum_map.
Qed.

Lemma all_seqs_length (T n : nat) (s : list nat) :
  In s (all_seqs T n) -> length s = n.
Proof.
  revert s. induction n as [|n IH]; intros s; simpl.
  - intros [<-|[]]. reflexivity.
  - rewrite in_flat_map. intros (t & _ & Hs).
    apply in_map_iff in Hs. destruct Hs as (s' & <- & Hs').
    simpl. f_equal. now apply IH.
Qed.

Lemma all_seqs_range (T n : nat) (s : list nat) :
  In s (all_seqs T n) -> Forall (fun t => (t < T)%nat) s.
Proof.
  revert s. induction n as [|n IH]; intros s; simpl.
  - intros [<-|[]]. constructor.
  - rewrite in_flat_map. intros (t & Ht & Hs).
    apply in_map_iff in Hs. destruct Hs as (s' & <- & Hs').
    constructor; [apply in_seq in Ht; lia | now apply IH].
Qed.

Lemma all_seqs_complete (T : nat) (s : list nat) :
  Forall (fun t => (t < T)%nat) s -> In s (all_seqs T (length s)).
Proof.
  induction 1 as [|t s Ht _ IH]; simpl; [now left|].
  apply in_flat_map. exists t. split; [apply in_seq; lia|].
  now apply in_map.
Qed.

(** ** The stable log-sum-exp *)

Lemma exp_log_sum_exp (xs : list R) :
  xs <> [] -> exp (log_sum_exp xs) = vsum (map exp xs).
Proof.
  intros Hne. unfold log_sum_exp.
  set (m := vmax xs).
  assert (Hpos : 0 < vsum (map (fun x => exp (x - m)) xs)).
  { apply (ssum_pos xs (fun x => exp (x - m))); [exact Hne|].
    intros; apply exp_pos. }
  rewrite exp_plus, exp_ln by exact Hpos.
  change (exp m * ssum xs (fun x => exp (x - m)) = ssum xs exp).
  rewrite <- ssum_scal. apply ssum_ext. intros x _.
  rewrite <- exp_plus. f_equal. lra.
Qed.

Lemma exp_lse_tags (T : nat) (g : nat -> R) :
  (0 < T)%nat ->
  exp (log_sum_exp (map g (seq 0 T))) = tsum T (fun u => exp (g u)).
Proof.
  intros HT. rewrite exp_log_sum_exp.
  - unfold tsum. rewrite map_map. reflexivity.
  - destruct T; [lia|]. simpl. congruence.
Qed.

(** ** Reading a tabulated vector *)

Lemma nth_map_seq {A} (f : nat -> A) (T v : nat) (d : A) :
  (v < T)%nat -> nth v (map f (seq 0 T)) d = f v.
Proof.
  intros Hv. rewrite (nth_indep _ d (f 0%nat)) by (rewrite length_map, length_seq; lia).
  rewrite map_nth, seq_nth by lia. reflexivity.
Qed.

Lemma at1_map_seq (f : nat -> R) (T v : nat) :
  (v < T)%nat -> at1 (map f (seq 0 T)) v = f v.
Proof. apply nth_map_seq. Qed.

Lemma map_at1_seq (x : tensor1) :
  map (fun v => at1 x v) (seq 0 (length x)) = x.
Proof.
  apply (nth_ext _ _ 0 0).
  - now rewrite length_map, length_seq.
  - intros v Hv. rewrite length_map, length_seq in Hv.
    now rewrite nth_map_seq.
Qed.

(** ** The sum-product recursion in general form

    [w k u v] is the score of entering tag [v] at position [k] coming
    from tag [u]; [fin] is the score of stopping.  Both the partition
    engine and the partial gold scorer are instances. *)

Section Chain.

Variable T : nat.
Variable w : nat -> nat -> nat -> R.
Variable fin : nat -> R.
Hypothesis T_pos : (0 < T)%nat.

Lemma chain_step_length (alpha : tensor1) (k : nat) :
  length (chain_step T w alpha k) = T.
Proof. unfold chain_step. now rewrite length_map, length_seq. Qed.

Lemma exp_chain_step (alpha : tensor1) (k v : nat) :
  (v < T)%nat ->
  exp (at1 (chain_step T w alpha k) v) = tsum T (fun u => exp (at1 alpha u + w k u v)).
Proof.
  intros Hv. unfold chain_step. rewrite at1_map_seq by exact Hv.
  now apply exp_lse_tags.
Qed.

Lemma chain_forward (m : nat) : forall (k : nat) (alpha : tensor1),
  tsum T (fun v => exp (at1 (fold_left (chain_step T w) (seq k m) alpha) v + fin v))
  = tsum T (fun u => ssum (all_seqs T m)
                          (fun s => exp (at1 alpha u + chain w fin u s k))).
Proof.
  induction m as [|m IH]; intros k alpha.
  - simpl. apply tsum_ext. intros v _. unfold ssum. simpl. lra.
  - simpl fold_left. rewrite IH.
    transitivity
      (tsum T (fun t => tsum T (fun u =>
         ssum (all_seqs T m)
              (fun s => exp (at1 alpha u + (w k u t + chain w fin t s (S k))))))).
    + apply tsum_ext. intros t Ht.
      rewrite tsum_ssum, ssum_swap.
      apply ssum_ext. intros s _.
      rewrite exp_plus, exp_chain_step by exact Ht.
      rewrite Rmult_comm, tsum_ssum, <- ssum_scal.
      apply ssum_ext. intros u _.
      rewrite <- exp_plus. f_equal. lra.
    + etransitivity.
      { exact (ssum_swap (seq 0 T) (seq 0 T)
                 (fun t u => ssum (all_seqs T m)
                    (fun s => exp (at1 alpha u
                                   + (w k u t + chain w fin t s (S k)))))). }
      apply tsum_ext. intros u _.
      rewrite ssum_all_seqs_S. reflexivity.
Qed.

End Chain.

(** ** Masks and loops *)

Lemma nth_prefix_mask (n L i : nat) :
  nth i (prefix_mask n L) false = (i <? n)%nat.
Proof.
  unfold prefix_mask. destruct (Nat.ltb_spec i n) as [Hi|Hi].
  - rewrite app_nth1 by (rewrite repeat_length; lia).
    apply nth_repeat_lt. exact Hi.
  - rewrite app_nth2 by (rewrite repeat_length; lia).
    rewrite repeat_length.
    destruct (Nat.lt_ge_cases (i - n) (L - n)) as [H|H].
    + now apply nth_repeat_lt.
    + apply nth_overflow. rewrite repeat_length. lia.
Qed.

Lemma prefix_mask_length (n L : nat) :
  (n <= L)%nat -> length (prefix_mask n L) = L.
Proof.
  intros H. unfold prefix_mask. rewrite length_app, !repeat_length. lia.
Qed.

Lemma mask_sum_prefix (n L : nat) : mask_sum (prefix_mask n L) = Z.of_nat n.
Proof.
  unfold mask_sum, prefix_mask. f_equal.
  rewrite filter_app, length_app.
  assert (Ht : forall k, length (filter (fun b : bool => b) (repeat true k)) = k).
  { induction k; simpl; congruence. }
  assert (Hf : forall k, length (filter (fun b : bool => b) (repeat false k)) = 0%nat).
  { induction k; simpl; congruence. }
  rewrite Ht, Hf. lia.
Qed.

Lemma fold_left_ext_in {A B} (f g : A -> B -> A) (l : list B) :
  (forall a i, In i l -> f a i = g a i) ->
  forall a, fold_left f l a = fold_left g l a.
Proof.
  induction l as [|i l IH]; intros H a; simpl; [reflexivity|].
  rewrite H by now left. apply IH. intros; apply H; now right.
Qed.

Lemma fold_left_fixed {A B} (f : A -> B -> A) (l : list B) (a : A) :
  (forall i, In i l -> f a i = a) -> fold_left f l a = a.
Proof.
  induction l as [|i l IH]; intros H; simpl; [reflexivity|].
  rewrite H by now left. apply IH. intros; apply H; now right.
Qed.

(** A loop over positions [1 .. L-1] splits at the valid length. *)
Lemma loop_split {A} (f : A -> nat -> A) (n L : nat) (a : A) :
  (1 <= n <= L)%nat ->
  fold_left f (seq 1 (L - 1)) a
  = fold_left f (seq n (L - n)) (fold_left f (seq 1 (n - 1)) a).
Proof.
  intros H. replace (L - 1)%nat with ((n - 1) + (L - n))%nat by lia.
  rewrite seq_app, fold_left_app. replace (1 + (n - 1))%nat with n by lia.
  reflexivity.
Qed.

(** ** Path scores, recursively *)

(** The recursive path score agrees with the closed formula. *)
Lemma chain_closed (self : crf_params) (em : tensor2) (s : list nat) :
  forall (u k : nat),
  chain (step_weight self em) (stop_weight self) u s k
  = vsum (map (fun i => at1 (nth (k + i) em []) (nth i s 0%nat))
              (seq 0 (length s)))
    + vsum (map (fun i => at2 (transitions self) (nth i (u :: s) 0%nat)
                              (nth (S i) (u :: s) 0%nat))
                (seq 0 (length s)))
    + at1 (end_transitions self) (nth (length s) (u :: s) 0%nat).
Proof.
  induction s as [|t s IH]; intros u k.
  - simpl. unfold stop_weight. lra.
  - cbn [chain length]. rewrite IH.
    cbn [seq map vsum fold_right]. rewrite <- !seq_shift, !map_map.
    unfold step_weight. cbn [nth].
    replace (k + 0)%nat with k by lia.
    assert (He : map (fun i => at1 (nth (S k + i) em []) (nth i s 0%nat))
                     (seq 0 (length s))
                 = map (fun i => at1 (nth (k + S i) em []) (nth i s 0%nat))
                       (seq 0 (length s))).
    { apply map_ext. intros i. now replace (k + S i)%nat with (S k + i)%nat by lia. }
    rewrite He. unfold vsum. lra.
Qed.

Lemma path_score_cons (self : crf_params) (em : tensor2) (u : nat) (s : list nat) :
  path_score self em (u :: s)
  = at1 (start_transitions self) u + at1 (nth 0 em []) u
    + chain (step_weight self em) (stop_weight self) u s 1.
Proof.
  rewrite chain_closed. unfold path_score.
  cbn [length]. replace (S (length s) - 1)%nat with (length s) by lia.
  cbn [seq map vsum fold_right]. rewrite <- !seq_shift, !map_map.
  cbn [nth]. simpl Nat.add. unfold vsum. lra.
Qed.

(** ** The partition engine on a row with a prefix mask *)

Section Partition.

Variable self : crf_params.
Variable T : nat.
Variable em : tensor2.
Hypothesis T_pos : (0 < T)%nat.

Lemma denominator_step_valid (alpha : tensor1) (k : nat) :
  denominator_step self T alpha (nth k em []) 1
  = chain_step T (step_weight self em) alpha k.
Proof.
  unfold denominator_step, chain_step. apply map_ext. intros v.
  rewrite Rmult_1_r, Rminus_diag, Rmult_0_r, Rplus_0_r.
  f_equal. apply map_ext. intros u. unfold step_weight. lra.
Qed.

Lemma denominator_step_padding (alpha e : tensor1) :
  length alpha = T -> denominator_step self T alpha e 0 = alpha.
Proof.
  intros Hlen. unfold denominator_step.
  transitivity (map (fun v => at1 alpha v) (seq 0 T)).
  - apply map_ext. intros v. lra.
  - rewrite <- Hlen. apply map_at1_seq.
Qed.

Lemma start_plus_first_length (e0 : tensor1) :
  length (start_plus_first self T e0) = T.
Proof. unfold start_plus_first. now rewrite length_map, length_seq. Qed.

Lemma fold_chain_step_length (w : nat -> nat -> nat -> R) (l : list nat) :
  forall alpha, length alpha = T ->
  length (fold_left (chain_step T w) l alpha) = T.
Proof.
  induction l as [|i l IH]; intros alpha H; simpl; [exact H|].
  apply IH, chain_step_length.
Qed.

Lemma denominator_alpha_prefix (n L : nat) :
  (1 <= n <= L)%nat ->
  denominator_alpha self L T em (prefix_mask n L)
  = fold_left (chain_step T (step_weight self em)) (seq 1 (n - 1))
              (start_plus_first self T (nth 0 em [])).
Proof.
  intros Hn. unfold denominator_alpha.
  rewrite (loop_split _ n L) by exact Hn.
  assert (Hvalid :
    fold_left (fun alpha i =>
                 denominator_step self T alpha (nth i em [])
                   (mask_float (nth i (prefix_mask n L) false)))
              (seq 1 (n - 1)) (start_plus_first self T (nth 0 em []))
    = fold_left (chain_step T (step_weight self em)) (seq 1 (n - 1))
                (start_plus_first self T (nth 0 em []))).
  { apply fold_left_ext_in. intros a i Hi. apply in_seq in Hi.
    rewrite nth_prefix_mask.
    replace (i <? n)%nat with true by (symmetry; apply Nat.ltb_lt; lia).
    apply denominator_step_valid. }
  rewrite Hvalid. apply fold_left_fixed. intros i Hi. apply in_seq in Hi.
  rewrite nth_prefix_mask.
  replace (i <? n)%nat with false by (symmetry; apply Nat.ltb_ge; lia).
  apply denominator_step_padding, fold_chain_step_length, start_plus_first_length.
Qed.

Lemma denominator_row_prefix (n L : nat) :
  (1 <= n <= L)%nat ->
  exp (denominator_row self L T em (prefix_mask n L))
  = ssum (all_seqs T n) (fun t => exp (path_score self em t)).
Proof.
  intros Hn. unfold denominator_row.
  rewrite exp_lse_tags by exact T_pos.
  rewrite denominator_alpha_prefix by exact Hn.
  rewrite (chain_forward T (step_weight self em) (stop_weight self) T_pos).
  destruct n as [|n']; [lia|].
  replace (S n' - 1)%nat with n' by lia.
  rewrite ssum_all_seqs_S. apply tsum_ext. intros u Hu.
  apply ssum_ext. intros s _.
  rewrite path_score_cons. unfold start_plus_first.
  rewrite at1_map_seq by exact Hu. reflexivity.
Qed.

End Partition.

(** ** From rows to batches *)

Lemma shape3_well_shaped (self : crf_params) (B L T : nat) (emissions : tensor3) :
  well_shaped self B L T emissions -> (0 < B)%nat -> (0 < L)%nat ->
  shape3 emissions = (B, L, T).
Proof.
  intros (HB & Hrows & _) HBpos HLpos. unfold shape3.
  destruct emissions as [|row rest]; [simpl in HB; lia|].
  inversion Hrows as [|? ? [Hrow He] _]; subst. simpl hd.
  destruct row as [|e row]; [simpl in HLpos; lia|].
  inversion He as [|? ? He0 _]; subst. reflexivity.
Qed.

Lemma batch_guard_false (B L : nat) :
  (0 < L)%nat -> ((0 <? B) && (L =? 0))%nat = false.
Proof.
  intros H. replace (L =? 0)%nat with false by (symmetry; apply Nat.eqb_neq; lia).
  apply andb_false_r.
Qed.

Lemma example_well_shaped : well_shaped example_crf 1 3 2 example_emissions.
Proof. unfold well_shaped. simpl. repeat split; repeat constructor. Qed.

(** ** C1: the partition engine against brute-force enumeration *)

(** C1. For a batch row whose mask is a non-empty contiguous prefix of
    length [n], the row's output [logZ] of [CRF._denominator_score]
    satisfies: [exp logZ] is the sum, over all [T^n] tag sequences, of the
    exponentiated path score (start, emissions, transitions, end). *)
Theorem denominator_score_brute_force
        (self : crf_params) (emissions : tensor3) (mask : list (list bool))
        (B L T b n : nat) :
  well_shaped self B L T emissions ->
  (0 < T)%nat -> (b < B)%nat -> (1 <= n <= L)%nat ->
  nth b mask [] = prefix_mask n L ->
  exists logZ,
    CRF._denominator_score self emissions mask = Some logZ /\
    length logZ = B /\
    exp (nth b logZ 0)
    = vsum (map (fun t => exp (path_score self (nth b emissions []) t))
                (all_seqs T n)).
Proof.
  intros Hws HT Hb Hn Hmask.
  unfold CRF._denominator_score, denominator_score.
  rewrite (shape3_well_shaped self B L T) by (assumption || lia).
  rewrite batch_guard_false by lia.
  eexists. split; [reflexivity|]. split.
  - now rewrite length_map, length_seq.
  - rewrite nth_map_seq by exact Hb. rewrite Hmask.
    now apply denominator_row_prefix.
Qed.

Lemma denominator_score_brute_force_witness :
  exists logZ,
    CRF._denominator_score example_crf example_emissions [prefix_mask 2 3]
    = Some logZ /\
    length logZ = 1%nat /\
    exp (nth 0 logZ 0)
    = vsum (map (fun t => exp (path_score example_crf
                                          (nth 0 example_emissions []) t))
                (all_seqs 2 2)).
Proof.
  apply (denominator_score_brute_force example_crf example_emissions
           [prefix_mask 2 3] 1 3 2 0 2).
  - exact example_well_shaped.
  - lia.
  - lia.
  - lia.
  - reflexivity.
Defined.

(** ** Lookups that succeed *)

Lemma gather_in_range (xs : list R) (i : Z) :
  (0 <= i < Z.of_nat (length xs))%Z ->
  gather xs i = Some (at1 xs (Z.to_nat i)).
Proof.
  intros H. unfold gather, at1.
  replace ((0 <=? i) && (i <? Z.of_nat (length xs)))%Z with true
    by (symmetry; apply andb_true_iff; split; [apply Z.leb_le|apply Z.ltb_lt]; lia).
  apply nth_error_nth'. lia.
Qed.

Lemma gather_tags_in_range (xs : list Z) (i : Z) :
  (0 <= i < Z.of_nat (length xs))%Z ->
  gather xs i = Some (nth (Z.to_nat i) xs 0%Z).
Proof.
  intros H. unfold gather.
  replace ((0 <=? i) && (i <? Z.of_nat (length xs)))%Z with true
    by (symmetry; apply andb_true_iff; split; [apply Z.leb_le|apply Z.ltb_lt]; lia).
  apply nth_error_nth'. lia.
Qed.

Lemma gather_negative {A} (xs : list A) (i : Z) :
  (i < 0)%Z -> gather xs i = None.
Proof.
  intros H. unfold gather.
  replace (0 <=? i)%Z with false by (symmetry; apply Z.leb_gt; lia).
  reflexivity.
Qed.

Lemma index_wrap_in_range {A} (xs : list A) (i : Z) (d : A) :
  (0 <= i < Z.of_nat (length xs))%Z ->
  index_wrap xs i = Some (nth (Z.to_nat i) xs d).
Proof.
  intros H. unfold index_wrap.
  replace ((0 <=? i) && (i <? Z.of_nat (length xs)))%Z with true
    by (symmetry; apply andb_true_iff; split; [apply Z.leb_le|apply Z.ltb_lt]; lia).
  apply nth_error_nth'. lia.
Qed.

Lemma sequence_opt_map {A B} (f : A -> option B) (g : A -> B) (l : list A) :
  (forall a, In a l -> f a = Some (g a)) ->
  sequence_opt (map f l) = Some (map g l).
Proof.
  induction l as [|a l IH]; intros H; simpl; [reflexivity|].
  rewrite H by now left. simpl. rewrite IH by (intros; apply H; now right).
  reflexivity.
Qed.

Lemma sequence_opt_none {A} (xs : list (option A)) :
  In None xs -> sequence_opt xs = None.
Proof.
  induction xs as [|x xs IH]; intros H; [contradiction|].
  simpl. destruct x as [a|]; [|reflexivity]. simpl.
  destruct H as [H|H]; [discriminate|]. now rewrite IH.
Qed.

(** Masked sums collapse onto the valid prefix. *)
Lemma vsum_masked_prefix (f : nat -> R) (n : nat) : forall L : nat,
  (n <= L)%nat ->
  vsum (map (fun i => f i * mask_float (i <? n)%nat) (seq 0 L))
  = vsum (map f (seq 0 n)).
Proof.
  intros L HL. replace L with (n + (L - n))%nat by lia.
  rewrite seq_app, map_app, vsum_app. simpl Nat.add.
  assert (H1 : map (fun i => f i * mask_float (i <? n)%nat) (seq 0 n)
               = map f (seq 0 n)).
  { apply map_ext_in. intros i Hi. apply in_seq in Hi.
    replace (i <? n)%nat with true by (symmetry; apply Nat.ltb_lt; lia).
    simpl. lra. }
  assert (H2 : vsum (map (fun i => f i * mask_float (i <? n)%nat) (seq n (L - n)))
               = 0).
  { transitivity (ssum (seq n (L - n)) (fun _ => 0)); [|apply ssum_zero].
    apply ssum_ext. intros i Hi. apply in_seq in Hi.
    replace (i <? n)%nat with false by (symmetry; apply Nat.ltb_ge; lia).
    simpl. lra. }
  rewrite H1, H2. lra.
Qed.

(** ** The gold scorer on one row *)

Section Gold.

Variable self : crf_params.
Variables L T : nat.
Variable em : tensor2.
Variable tags : list Z.

Hypothesis em_shape : forall i, (i < L)%nat -> length (nth i em []) = T.
Hypothesis start_shape : length (start_transitions self) = T.
Hypothesis end_shape : length (end_transitions self) = T.
Hypothesis trans_shape : length (transitions self) = T.
Hypothesis trans_rows :
  forall u, (u < T)%nat -> length (nth u (transitions self) []) = T.
Hypothesis tags_length : length tags = L.
Hypothesis tags_range : forall i, (0 <= nth i tags 0 < Z.of_nat T)%Z.

Lemma tag_at_lt (i : nat) : (tag_at tags i < T)%nat.
Proof. unfold tag_at. pose proof (tags_range i). lia. Qed.

Lemma numerator_step_ok (mask : list bool) (a : R) (i : nat) :
  (i < L)%nat ->
  CRF.numerator_step self em tags mask (Some a) i
  = Some (a + numerator_term self em tags mask i).
Proof.
  intros Hi. unfold CRF.numerator_step. cbn [bind].
  pose proof (tags_range i) as Hc. pose proof (tags_range (i + 1)) as Hn.
  rewrite gather_in_range by (rewrite em_shape by exact Hi; exact Hc).
  cbn [bind].
  rewrite (index_wrap_in_range (transitions self) _ [])
    by (rewrite trans_shape; exact Hc).
  cbn [bind].
  rewrite (index_wrap_in_range _ _ 0) by (rewrite trans_rows by lia; exact Hn).
  cbn [bind]. unfold numerator_term, tag_at, at1, at2.
  replace (i + 1)%nat with (S i) by lia. reflexivity.
Qed.

Lemma numerator_loop_ok (mask : list bool) (m : nat) : forall (k : nat) (a : R),
  (k + m <= L)%nat ->
  fold_left (CRF.numerator_step self em tags mask) (seq k m) (Some a)
  = Some (a + vsum (map (numerator_term self em tags mask) (seq k m))).
Proof.
  induction m as [|m IH]; intros k a Hk; cbn [seq fold_left map vsum fold_right].
  - f_equal. lra.
  - rewrite numerator_step_ok by lia. rewrite IH by lia. f_equal.
    unfold vsum. lra.
Qed.

Lemma numerator_row_value (mask : list bool) :
  (1 <= mask_sum mask <= Z.of_nat L)%Z ->
  CRF.numerator_row self L em tags mask
  = Some (at1 (start_transitions self) (tag_at tags 0)
          + vsum (map (numerator_term self em tags mask) (seq 0 (L - 1)))
          + at1 (end_transitions self) (tag_at tags (Z.to_nat (mask_sum mask - 1)))
          + at1 (nth (L - 1) em []) (tag_at tags (Z.to_nat (mask_sum mask - 1)))
            * mask_float (nth (L - 1) mask false)).
Proof.
  intros Hsum. unfold CRF.numerator_row, index_select.
  rewrite gather_in_range by (rewrite start_shape; apply tags_range).
  cbn [bind]. rewrite numerator_loop_ok by lia. cbn [bind].
  rewrite gather_tags_in_range by (rewrite tags_length; lia). cbn [bind].
  rewrite gather_in_range by (rewrite end_shape; apply tags_range). cbn [bind].
  rewrite gather_in_range by (rewrite em_shape by lia; apply tags_range).
  cbn [bind]. reflexivity.
Qed.

(** With a prefix mask the last emission term is the one the loop leaves
    out, and the whole is the formula of the specification. *)
Lemma numerator_row_prefix (n : nat) :
  (1 <= n <= L)%nat ->
  CRF.numerator_row self L em tags (prefix_mask n L)
  = Some (gold_formula self L em tags (prefix_mask n L)).
Proof.
  intros Hn. rewrite numerator_row_value by (rewrite mask_sum_prefix; lia).
  f_equal. unfold gold_formula. rewrite mask_sum_prefix.
  replace (Z.to_nat (Z.of_nat n - 1)) with (n - 1)%nat by lia.
  replace (seq 0 L) with (seq 0 (L - 1) ++ [(L - 1)%nat]).
  2:{ replace L with (S (L - 1)) at 3 by lia. now rewrite seq_S. }
  rewrite map_app, vsum_app. cbn [map vsum fold_right].
  change (vsum (map (numerator_term self em tags (prefix_mask n L)) (seq 0 (L - 1))))
    with (ssum (seq 0 (L - 1)) (numerator_term self em tags (prefix_mask n L))).
  unfold numerator_term. rewrite ssum_plus. unfold ssum.
  rewrite !nth_prefix_mask.
  destruct (Nat.ltb_spec (L - 1) n) as [Hlast|Hlast].
  - replace (n - 1)%nat with (L - 1)%nat by lia. lra.
  - simpl mask_float. lra.
Qed.

Lemma gold_formula_path (n : nat) :
  (1 <= n <= L)%nat ->
  gold_formula self L em tags (prefix_mask n L)
  = path_score self em (map Z.to_nat (firstn n tags)).
Proof.
  intros Hn. unfold gold_formula, path_score.
  rewrite mask_sum_prefix, length_map, length_firstn, tags_length.
  replace (Nat.min n L) with n by lia.
  replace (Z.to_nat (Z.of_nat n - 1)) with (n - 1)%nat by lia.
  assert (Hnth : forall i, (i < n)%nat ->
                 nth i (map Z.to_nat (firstn n tags)) 0%nat = tag_at tags i).
  { intros i Hi. change 0%nat with (Z.to_nat 0) at 1.
    rewrite map_nth, nth_firstn.
    replace (i <? n)%nat with true by (symmetry; apply Nat.ltb_lt; lia).
    reflexivity. }
  rewrite !Hnth by lia.
  assert (H1 : vsum (map (fun i => at1 (nth i em []) (tag_at tags i)
                                   * mask_float (nth i (prefix_mask n L) false))
                         (seq 0 L))
               = vsum (map (fun i => at1 (nth i em [])
                                         (nth i (map Z.to_nat (firstn n tags)) 0%nat))
                           (seq 0 n))).
  { rewrite <- (vsum_masked_prefix _ n L) by lia.
    f_equal. apply map_ext_in. intros i Hi. rewrite nth_prefix_mask.
    destruct (Nat.ltb_spec i n) as [Hlt|Hge].
    - now rewrite Hnth.
    - simpl. lra. }
  assert (H2 : vsum (map (fun i => at2 (transitions self) (tag_at tags i) (tag_at tags (S i))
                                   * mask_float (nth (S i) (prefix_mask n L) false))
                         (seq 0 (L - 1)))
               = vsum (map (fun i => at2 (transitions self)
                                         (nth i (map Z.to_nat (firstn n tags)) 0%nat)
                                         (nth (S i) (map Z.to_nat (firstn n tags)) 0%nat))
                           (seq 0 (n - 1)))).
  { rewrite <- (vsum_masked_prefix _ (n - 1) (L - 1)) by lia.
    f_equal. apply map_ext_in. intros i Hi. rewrite nth_prefix_mask.
    destruct (Nat.ltb_spec i (n - 1)) as [Hlt|Hge].
    - rewrite !Hnth by lia.
      replace (S i <? n)%nat with true by (symmetry; apply Nat.ltb_lt; lia).
      reflexivity.
    - replace (S i <? n)%nat with false by (symmetry; apply Nat.ltb_ge; lia).
      simpl. lra. }
  rewrite H1, H2. reflexivity.
Qed.

End Gold.

(** ** Consequences of well-shapedness *)

Lemma well_shaped_row (self : crf_params) (B L T : nat) (emissions : tensor3)
      (b i : nat) :
  well_shaped self B L T emissions -> (b < B)%nat -> (i < L)%nat ->
  length (nth i (nth b emissions []) []) = T.
Proof.
  intros (HB & Hrows & _) Hb Hi.
  rewrite Forall_nth in Hrows.
  destruct (Hrows b [] ltac:(lia)) as [Hlen He].
  rewrite Forall_nth in He. apply He. lia.
Qed.

Lemma well_shaped_transitions (self : crf_params) (B L T : nat)
      (emissions : tensor3) (u : nat) :
  well_shaped self B L T emissions -> (u < T)%nat ->
  length (nth u (transitions self) []) = T.
Proof.
  intros (_ & _ & _ & _ & _ & Hlen & Hrows) Hu.
  rewrite Forall_nth in Hrows. apply Hrows. lia.
Qed.

Lemma valid_tags_range (B L T : nat) (tags : list (list Z)) (b i : nat) :
  valid_tags B L T tags -> (0 < T)%nat -> (b < B)%nat ->
  (0 <= nth i (nth b tags []) 0 < Z.of_nat T)%Z.
Proof.
  intros Hv HT Hb. destruct (Hv b Hb) as [Hlen Hall].
  destruct (Nat.lt_ge_cases i (length (nth b tags []))) as [Hi|Hi].
  - rewrite Forall_nth in Hall. now apply Hall.
  - rewrite nth_overflow by exact Hi. lia.
Qed.

Lemma valid_masks_length_pos (B L : nat) (mask : list (list bool)) :
  valid_masks B L mask -> (0 < B)%nat -> (0 < L)%nat.
Proof.
  intros Hv HB. destruct (Hv 0%nat HB) as (n & Hn & _). lia.
Qed.

(** ** C6: the gold scorer *)

(** C6. On a batch whose rows carry non-empty contiguous prefix masks, the
    gold scorer returns, for the row of valid length [n], the value
    [start[tag_0] + sum_i emissions_i(tag_i) * mask_i
     + sum_i transition(tag_i, tag_{i+1}) * mask_{i+1} + end[tag_{n-1}]],
    with [tag_{n-1}] read at the index given by the mask sum; this is the
    path score of the first [n] gold tags, so only transitions between
    valid positions contribute. *)
Theorem numerator_score_gold_formula
        (self : crf_params) (emissions : tensor3) (tags : list (list Z))
        (mask : list (list bool)) (B L T : nat) :
  well_shaped self B L T emissions ->
  (0 < T)%nat ->
  valid_tags B L T tags ->
  valid_masks B L mask ->
  exists scores,
    CRF._numerator_score self emissions tags mask = Some scores /\
    length scores = B /\
    forall b n,
      (b < B)%nat -> (1 <= n <= L)%nat -> nth b mask [] = prefix_mask n L ->
      nth b scores 0
      = gold_formula self L (nth b emissions []) (nth b tags []) (nth b mask [])
      /\ nth b scores 0
         = path_score self (nth b emissions [])
                      (map Z.to_nat (firstn n (nth b tags []))).
Proof.
  intros Hws HT Htags Hmasks.
  destruct (Nat.eq_dec B 0) as [HB0|HB0].
  - subst B. destruct Hws as (Hlen & _).
    destruct emissions; [|discriminate].
    exists []. repeat split; intros; lia.
  - assert (HL : (0 < L)%nat)
      by (apply (valid_masks_length_pos B L mask); [assumption|lia]).
    pose proof Hws as (_ & _ & _ & Hs & He & Ht & _).
    exists (map (fun b => gold_formula self L (nth b emissions []) (nth b tags [])
                                       (nth b mask []))
                (seq 0 B)).
    split; [|split].
    + unfold CRF._numerator_score.
      rewrite (shape3_well_shaped self B L T) by (assumption || lia).
      rewrite batch_guard_false by lia.
      apply sequence_opt_map. intros b Hb. apply in_seq in Hb.
      destruct (Hmasks b ltac:(lia)) as (n & Hn & ->).
      apply (numerator_row_prefix self L T); try assumption.
      * intros i Hi. apply (well_shaped_row self B L T); (assumption || lia).
      * intros u Hu. now apply (well_shaped_transitions self B L T emissions).
      * apply (Htags b). lia.
      * intros i. apply (valid_tags_range B L T); (assumption || lia).
    + now rewrite length_map, length_seq.
    + intros b n Hb Hn Hmask. rewrite nth_map_seq by exact Hb.
      split; [reflexivity|]. rewrite Hmask.
      apply (gold_formula_path self L T); try assumption.
      apply (Htags b). lia.
Qed.

Lemma numerator_score_gold_formula_witness :
  exists scores,
    CRF._numerator_score example_crf example_emissions example_tags
                         [prefix_mask 2 3] = Some scores /\
    length scores = 1%nat /\
    forall b n,
      (b < 1)%nat -> (1 <= n <= 3)%nat ->
      nth b [prefix_mask 2 3] [] = prefix_mask n 3 ->
      nth b scores 0
      = gold_formula example_crf 3 (nth b example_emissions [])
                     (nth b example_tags []) (nth b [prefix_mask 2 3] [])
      /\ nth b scores 0
         = path_score example_crf (nth b example_emissions [])
                      (map Z.to_nat (firstn n (nth b example_tags []))).
Proof.
  apply (numerator_score_gold_formula example_crf example_emissions
           example_tags [prefix_mask 2 3] 1 3 2).
  - exact example_well_shaped.
  - lia.
  - intros b Hb. assert (b = 0%nat) as -> by lia. simpl.
    split; [reflexivity|]. repeat constructor; lia.
  - intros b Hb. assert (b = 0%nat) as -> by lia.
    exists 2%nat. split; [lia|reflexivity].
Defined.

(** ** Appending loops *)

Section Scan.

Context {A B : Type}.
Variable f : A -> B -> A.
Variable d : A.

Lemma last_app_nonempty (pre l : list A) :
  l <> [] -> last (pre ++ l) d = last l d.
Proof.
  intros Hl. induction pre as [|a pre IH]; [reflexivity|].
  simpl. destruct (pre ++ l) eqn:E; [|exact IH].
  apply app_eq_nil in E. destruct E; contradiction.
Qed.

Lemma scan_prefix (steps : list B) : forall (pre l : list A),
  l <> [] ->
  fold_left (append_step f d) steps (pre ++ l)
  = pre ++ fold_left (append_step f d) steps l.
Proof.
  induction steps as [|i steps IH]; intros pre l Hl; simpl; [reflexivity|].
  unfold append_step at 2 4. rewrite last_app_nonempty by exact Hl.
  rewrite <- app_assoc. apply IH.
  destruct l; [contradiction|discriminate].
Qed.

Lemma scan_trace (steps : list B) : forall x : A,
  fold_left (append_step f d) steps [x] = x :: trace f x steps.
Proof.
  induction steps as [|i steps IH]; intros x; [reflexivity|].
  cbn [fold_left trace].
  change (append_step f d [x] i) with ([x] ++ [f x i]).
  rewrite (scan_prefix steps [x] [f x i]) by discriminate.
  rewrite IH. reflexivity.
Qed.

Lemma trace_app (s1 s2 : list B) : forall x : A,
  trace f x (s1 ++ s2) = trace f x s1 ++ trace f (last (x :: trace f x s1) d) s2.
Proof.
  induction s1 as [|i s1 IH]; intros x; [reflexivity|].
  cbn [app trace]. rewrite IH. cbn [app]. f_equal.
Qed.

Lemma trace_length (steps : list B) : forall x : A,
  length (trace f x steps) = length steps.
Proof.
  induction steps as [|i steps IH]; intros x; simpl; [reflexivity|].
  now rewrite IH.
Qed.

Lemma backward_length (x : A) (steps : list B) :
  length (backward f d x steps) = S (length steps).
Proof.
  induction steps as [|i steps IH]; simpl; [reflexivity|]. now rewrite IH.
Qed.

Lemma last_rev_hd (l : list A) : last (rev l) d = hd d l.
Proof.
  destruct l as [|a l]; [reflexivity|]. simpl. apply last_last.
Qed.

(** Running over the reversed steps and reversing the result. *)
Lemma rev_scan_backward (x : A) (steps : list B) :
  rev (x :: trace f x (rev steps)) = backward f d x steps.
Proof.
  induction steps as [|i steps IH]; [reflexivity|].
  cbn [backward]. change (rev (i :: steps)) with (rev steps ++ [i]).
  rewrite trace_app. cbn [trace].
  rewrite app_comm_cons, rev_app_distr, IH. cbn [rev app].
  f_equal. f_equal.
  rewrite <- IH, <- last_rev_hd, rev_involutive. reflexivity.
Qed.

End Scan.

(** ** Forward and backward passes on one row *)

Section ForwardBackward.

Variable self : crf_params.
Variable T : nat.
Variable em : tensor2.
Variable mask : list bool.
Hypothesis T_pos : (0 < T)%nat.

Lemma forward_row_trace (L : nat) :
  CRF.forward_algorithm_row self L T em mask false
  = alpha_first self T em
    :: trace (alpha_step self T em mask) (alpha_first self T em) (seq 1 (L - 1)).
Proof.
  unfold CRF.forward_algorithm_row.
  exact (scan_trace (alpha_step self T em mask) [] (seq 1 (L - 1))
                    (alpha_first self T em)).
Qed.

Lemma backward_row_trace (L : nat) :
  CRF.forward_algorithm_row self L T em mask true
  = backward (beta_step self T em mask) [] (end_transitions self) (seq 1 (L - 1)).
Proof.
  unfold CRF.forward_algorithm_row.
  rewrite <- (rev_scan_backward (beta_step self T em mask) []). f_equal.
  exact (scan_trace (beta_step self T em mask) [] (rev (seq 1 (L - 1)))
                    (end_transitions self)).
Qed.

Lemma exp_alpha_step_valid (a : tensor1) (i v : nat) :
  nth i mask false = true -> (v < T)%nat ->
  exp (at1 (alpha_step self T em mask a i) v)
  = tsum T (fun u => exp (at1 a u + at2 (transitions self) u v
                          + at1 (nth i em []) v)).
Proof.
  intros Hm Hv. unfold alpha_step, CRF.forward_backward_step.
  rewrite at1_map_seq, Hm by exact Hv. simpl mask_float.
  rewrite Rmult_1_r, Rminus_diag, Rmult_0_r, Rplus_0_r.
  now apply exp_lse_tags.
Qed.

Lemma exp_beta_step_valid (b : tensor1) (i c : nat) :
  nth i mask false = true -> (c < T)%nat ->
  exp (at1 (beta_step self T em mask b i) c)
  = tsum T (fun a => exp (at1 b a + at2 (transitions self) c a
                          + at1 (nth i em []) a)).
Proof.
  intros Hm Hc. unfold beta_step, CRF.forward_backward_step.
  rewrite at1_map_seq, Hm by exact Hc. simpl mask_float.
  rewrite Rmult_1_r, Rminus_diag, Rmult_0_r, Rplus_0_r.
  now apply exp_lse_tags.
Qed.

Lemma at1_step_padding (reverse_direction : bool) (a : tensor1) (i v : nat) :
  nth i mask false = false -> (v < T)%nat ->
  at1 (CRF.forward_backward_step self T reverse_direction a (nth i em [])
         (mask_float (nth i mask false))) v
  = at1 a v.
Proof.
  intros Hm Hv. unfold CRF.forward_backward_step.
  destruct reverse_direction; rewrite at1_map_seq, Hm by exact Hv;
    simpl mask_float; lra.
Qed.

(** A forward step on one side is a backward step on the other. *)
Lemma pairing_adjoint (a b : tensor1) (i : nat) :
  pairing T (alpha_step self T em mask a i) b
  = pairing T a (beta_step self T em mask b i).
Proof.
  unfold pairing. destruct (nth i mask false) eqn:Hm.
  - transitivity
      (tsum T (fun v => tsum T (fun u =>
         exp (at1 a u + at2 (transitions self) u v + at1 (nth i em []) v
              + at1 b v)))).
    + apply tsum_ext. intros v Hv.
      rewrite exp_plus, exp_alpha_step_valid by assumption.
      rewrite Rmult_comm, tsum_ssum, <- ssum_scal.
      apply ssum_ext. intros u _. rewrite <- exp_plus. f_equal. lra.
    + etransitivity.
      { exact (ssum_swap (seq 0 T) (seq 0 T)
                 (fun v u => exp (at1 a u + at2 (transitions self) u v
                                  + at1 (nth i em []) v + at1 b v))). }
      apply tsum_ext. intros u Hu.
      rewrite exp_plus, exp_beta_step_valid by assumption.
      rewrite (tsum_ssum T), <- ssum_scal.
      apply ssum_ext. intros v _. rewrite <- exp_plus. f_equal. lra.
  - apply tsum_ext. intros v Hv. unfold alpha_step, beta_step.
    rewrite !at1_step_padding by assumption. reflexivity.
Qed.

(** The pairing T of the forward and backward vectors is the same at every
    position of the row. *)
Lemma pairing_constant (steps : list nat) (stop : tensor1) :
  forall (a0 : tensor1) (j : nat),
    (j <= length steps)%nat ->
    pairing T (nth j (a0 :: trace (alpha_step self T em mask) a0 steps) [])
            (nth j (backward (beta_step self T em mask) [] stop steps) [])
    = pairing T (nth (length steps)
                     (a0 :: trace (alpha_step self T em mask) a0 steps) [])
              stop.
Proof.
  induction steps as [|i steps IH]; intros a0 j Hj.
  - simpl in Hj. assert (j = 0%nat) as -> by lia. reflexivity.
  - cbn [trace backward length]. destruct j as [|j].
    + cbn [nth]. rewrite <- pairing_adjoint.
      specialize (IH (alpha_step self T em mask a0 i) 0%nat ltac:(lia)).
      cbn [nth] in IH.
      assert (E : nth 0 (backward (beta_step self T em mask) [] stop steps) []
                  = hd [] (backward (beta_step self T em mask) [] stop steps))
        by (destruct (backward (beta_step self T em mask) [] stop steps); reflexivity).
      rewrite E in IH. exact IH.
    + cbn [nth]. apply (IH (alpha_step self T em mask a0 i) j). simpl in Hj. lia.
Qed.

Lemma forward_row_length (L : nat) (reverse_direction : bool) :
  (0 < L)%nat ->
  length (CRF.forward_algorithm_row self L T em mask reverse_direction) = L.
Proof.
  intros HL. destruct reverse_direction.
  - rewrite backward_row_trace, backward_length, length_seq. lia.
  - rewrite forward_row_trace. cbn [length].
    rewrite trace_length, length_seq. lia.
Qed.

(** Marginals at one position of one row sum to one. *)
Lemma row_marginals_normalised (L i : nat) :
  (i < L)%nat ->
  let alpha := CRF.forward_algorithm_row self L T em mask false in
  let beta := CRF.forward_algorithm_row self L T em mask true in
  let z := log_sum_exp (map (fun v => at1 (nth (L - 1) alpha []) v
                                      + at1 (end_transitions self) v)
                            (seq 0 T)) in
  tsum T (fun v => exp (at1 (nth i alpha []) v + at1 (nth i beta []) v - z)) = 1.
Proof.
  intros Hi alpha beta z.
  assert (Hz : exp z = pairing T (nth (L - 1) alpha []) (end_transitions self)).
  { unfold z. now rewrite exp_lse_tags. }
  assert (Hp : pairing T (nth i alpha []) (nth i beta [])
               = pairing T (nth (L - 1) alpha []) (end_transitions self)).
  { unfold alpha, beta. rewrite forward_row_trace, backward_row_trace.
    pose proof (pairing_constant (seq 1 (L - 1)) (end_transitions self)
                                 (alpha_first self T em) i) as H.
    rewrite length_seq in H. apply H. lia. }
  transitivity (exp (- z) * pairing T (nth i alpha []) (nth i beta [])).
  - unfold pairing. rewrite !tsum_ssum, <- ssum_scal. apply ssum_ext.
    intros v _. rewrite <- exp_plus. f_equal. lra.
  - rewrite Hp, <- Hz, <- exp_plus.
    replace (- z + z) with 0 by lra. apply exp_0.
Qed.

End ForwardBackward.

(** ** C5: marginals are normalised *)

Lemma stack_at (f : nat -> nat -> tensor1) (B L i b v : nat) :
  (i < L)%nat -> (b < B)%nat ->
  at2 (nth i (map (fun i => map (fun b => f i b) (seq 0 B)) (seq 0 L)) []) b v
  = at1 (f i b) v.
Proof.
  intros Hi Hb. unfold at2. rewrite nth_map_seq by exact Hi.
  rewrite nth_map_seq by exact Hb. reflexivity.
Qed.

(** C5. For a batch row whose mask is a non-empty contiguous prefix and
    for every valid position [i] of that row, the marginal probabilities
    returned by [CRF.marginal_probabilities] at position [i] sum over the
    tags to exactly 1. *)
Theorem marginal_probabilities_normalised
        (self : crf_params) (emissions : tensor3) (mask : list (list bool))
        (B L T b n i : nat) :
  well_shaped self B L T emissions ->
  (0 < T)%nat -> (b < B)%nat -> (1 <= n <= L)%nat ->
  nth b mask [] = prefix_mask n L ->
  (i < n)%nat ->
  exists proba,
    CRF.marginal_probabilities self emissions (Some mask) = Some proba /\
    length (nth b (nth i proba []) []) = T /\
    vsum (nth b (nth i proba []) []) = 1.
Proof.
  intros Hws HT Hb Hn Hmask Hi.
  unfold CRF.marginal_probabilities, CRF._forward_algorithm.
  rewrite (shape3_well_shaped self B L T) by (assumption || lia).
  rewrite batch_guard_false by lia. cbn [bind].
  eexists. split; [reflexivity|].
  rewrite length_map, length_seq.
  set (alpha := map (fun i1 => map (fun b1 =>
                  nth i1 (CRF.forward_algorithm_row self L T (nth b1 emissions [])
                            (nth b1 mask []) false) []) (seq 0 B)) (seq 0 L)).
  set (beta := map (fun i1 => map (fun b1 =>
                  nth i1 (CRF.forward_algorithm_row self L T (nth b1 emissions [])
                            (nth b1 mask []) true) []) (seq 0 B)) (seq 0 L)).
  set (z := map (fun b1 => log_sum_exp (map (fun v0 =>
                  at2 (nth (L - 1) alpha []) b1 v0 + at1 (end_transitions self) v0)
                  (seq 0 T))) (seq 0 B)).
  rewrite (nth_map_seq _ L i) by lia. rewrite (nth_map_seq _ B b) by exact Hb.
  split; [now rewrite length_map, length_seq|].
  pose proof (row_marginals_normalised self T (nth b emissions []) (nth b mask [])
                HT L i ltac:(lia)) as Hrow.
  cbv zeta in Hrow. rewrite <- Hrow. unfold tsum. f_equal.
  apply map_ext. intros v.
  unfold z. rewrite (nth_map_seq _ B b) by exact Hb.
  unfold alpha, beta.
  rewrite !(stack_at (fun i b => nth i (CRF.forward_algorithm_row self L T
                                          (nth b emissions []) (nth b mask []) _) [])
                     B L i b v) by lia.
  f_equal. f_equal. apply (f_equal log_sum_exp). apply map_ext. intros v'.
  cbv beta. f_equal.
  apply (stack_at (fun i b => nth i (CRF.forward_algorithm_row self L T
                                       (nth b emissions []) (nth b mask []) false) [])
                  B L (L - 1) b v'); lia.
Qed.

Lemma marginal_probabilities_normalised_witness :
  exists proba,
    CRF.marginal_probabilities example_crf example_emissions
                               (Some [prefix_mask 2 3]) = Some proba /\
    length (nth 0 (nth 1 proba []) []) = 2%nat /\
    vsum (nth 0 (nth 1 proba []) []) = 1.
Proof.
  apply (marginal_probabilities_normalised example_crf example_emissions
           [prefix_mask 2 3] 1 3 2 0 2 1).
  - exact example_well_shaped.
  - lia.
  - lia.
  - lia.
  - reflexivity.
  - lia.
Defined.

(** ** The reduction [max(dim)] *)

Lemma max_from_spec (xs : list R) : forall (i : nat) (best : R) (bi : nat),
  best <= fst (max_from xs i best bi) /\
  (forall x, In x xs -> x <= fst (max_from xs i best bi)) /\
  ((fst (max_from xs i best bi) = best /\ snd (max_from xs i best bi) = bi) \/
   ((i <= snd (max_from xs i best bi) < i + length xs)%nat /\
    nth (snd (max_from xs i best bi) - i) xs 0 = fst (max_from xs i best bi))).
Proof.
  induction xs as [|x r IH]; intros i best bi.
  - simpl. split; [lra|]. split; [intros ? []|]. now left.
  - cbn [max_from]. destruct (Rlt_dec best x) as [Hlt|Hge].
    + destruct (IH (S i) x i) as (H1 & H2 & H3).
      split; [lra|]. split.
      * intros y [<-|Hy]; [exact H1|now apply H2].
      * right. destruct H3 as [[Hm Hj]|[Hj Hm]].
        -- rewrite Hj, Hm. split; [simpl; lia|].
           now rewrite Nat.sub_diag.
        -- split; [simpl; lia|].
           replace (snd (max_from r (S i) x i) - i)%nat
             with (S (snd (max_from r (S i) x i) - S i)) by lia.
           exact Hm.
    + destruct (IH (S i) best bi) as (H1 & H2 & H3).
      split; [exact H1|]. split.
      * intros y [<-|Hy]; [lra|now apply H2].
      * destruct H3 as [[Hm Hj]|[Hj Hm]]; [now left|right].
        split; [simpl; lia|].
        replace (snd (max_from r (S i) best bi) - i)%nat
          with (S (snd (max_from r (S i) best bi) - S i)) by lia.
        exact Hm.
Qed.

Lemma max_dim_spec (xs : list R) :
  xs <> [] ->
  (snd (max_dim xs) < length xs)%nat /\
  nth (snd (max_dim xs)) xs 0 = fst (max_dim xs) /\
  (forall x, In x xs -> x <= fst (max_dim xs)).
Proof.
  destruct xs as [|x r]; [congruence|]. intros _. unfold max_dim.
  destruct (max_from_spec r 1 x 0) as (H1 & H2 & H3).
  split; [|split].
  - destruct H3 as [[_ ->]|[Hj _]]; simpl; lia.
  - destruct H3 as [[Hm ->]|[Hj Hm]]; [now rewrite Hm|].
    replace (snd (max_from r 1 x 0)) with (S (snd (max_from r 1 x 0) - 1)) at 1 by lia.
    exact Hm.
  - intros y [<-|Hy]; [exact H1|now apply H2].
Qed.

Lemma max_dim_tags (T : nat) (g : nat -> R) :
  (0 < T)%nat ->
  (snd (max_dim (map g (seq 0 T))) < T)%nat /\
  fst (max_dim (map g (seq 0 T))) = g (snd (max_dim (map g (seq 0 T)))) /\
  (forall u, (u < T)%nat -> g u <= fst (max_dim (map g (seq 0 T)))).
Proof.
  intros HT.
  destruct (max_dim_spec (map g (seq 0 T))) as (H1 & H2 & H3).
  { destruct T; [lia|]. simpl. congruence. }
  rewrite length_map, length_seq in H1.
  split; [exact H1|]. split.
  - rewrite <- H2. now rewrite nth_map_seq.
  - intros u Hu. apply H3. apply in_map. apply in_seq. lia.
Qed.

(** ** The Viterbi recursion on one row *)

Section Viterbi.

Variable self : crf_params.
Variable T : nat.
Variable em : tensor2.
Hypothesis T_pos : (0 < T)%nat.

Lemma backpointers_length (steps : list nat) : forall score,
  length (backpointers self T em score steps) = length steps.
Proof.
  induction steps as [|i r IH]; intros score; simpl; [reflexivity|].
  now rewrite IH.
Qed.

Lemma at1_best_scores (score : tensor1) (i v : nat) :
  (v < T)%nat ->
  at1 (best_scores self T em score i) v
  = fst (max_dim (map (fun u => at1 score u + at2 (transitions self) u v
                                + at1 (nth i em []) v)
                      (seq 0 T))).
Proof.
  intros Hv. unfold best_scores, viterbi_candidates, at1.
  rewrite map_map. now rewrite nth_map_seq.
Qed.

Lemma nth_best_sources (score : tensor1) (i v : nat) :
  (v < T)%nat ->
  nth v (best_sources self T em score i) 0%nat
  = snd (max_dim (map (fun u => at1 score u + at2 (transitions self) u v
                                + at1 (nth i em []) v)
                      (seq 0 T))).
Proof.
  intros Hv. unfold best_sources, viterbi_candidates.
  rewrite map_map. now rewrite nth_map_seq.
Qed.

(** No path into [t] beats the recorded score. *)
Lemma best_scores_upper (score : tensor1) (i u t : nat) :
  (u < T)%nat -> (t < T)%nat ->
  at1 score u + step_weight self em i u t <= at1 (best_scores self T em score i) t.
Proof.
  intros Hu Ht. rewrite at1_best_scores by exact Ht.
  destruct (max_dim_tags T (fun u => at1 score u + at2 (transitions self) u t
                                     + at1 (nth i em []) t) T_pos)
    as (_ & _ & Hmax).
  specialize (Hmax u Hu). unfold step_weight. lra.
Qed.

(** The backpointer is a tag, and it attains the recorded score. *)
Lemma best_sources_attain (score : tensor1) (i t : nat) :
  (t < T)%nat ->
  (follow t (best_sources self T em score i) < T)%nat /\
  at1 (best_scores self T em score i) t
  = at1 score (follow t (best_sources self T em score i))
    + step_weight self em i (follow t (best_sources self T em score i)) t.
Proof.
  intros Ht. unfold follow.
  rewrite at1_best_scores, nth_best_sources by exact Ht.
  destruct (max_dim_tags T (fun u => at1 score u + at2 (transitions self) u t
                                     + at1 (nth i em []) t) T_pos)
    as (Hlt & Heq & _).
  split; [exact Hlt|]. rewrite Heq. unfold step_weight. lra.
Qed.

(** Every path is bounded by the best final score. *)
Lemma viterbi_upper (M : R) (m : nat) : forall (k : nat) (score : tensor1)
                                                (u : nat) (s : list nat),
  (forall v, (v < T)%nat ->
             at1 (fold_left (best_scores self T em) (seq k m) score) v
             + stop_weight self v <= M) ->
  (u < T)%nat -> length s = m -> Forall (fun t => (t < T)%nat) s ->
  at1 score u + chain (step_weight self em) (stop_weight self) u s k <= M.
Proof.
  induction m as [|m IH]; intros k score u s HM Hu Hlen Hs.
  - destruct s; [|discriminate]. simpl in *. now apply HM.
  - destruct s as [|t s]; [discriminate|].
    inversion Hs as [|? ? Ht Hs']; subst.
    cbn [chain]. cbn [seq fold_left] in HM.
    specialize (IH (S k) (best_scores self T em score k) t s HM Ht
                   ltac:(simpl in Hlen; lia) Hs').
    pose proof (best_scores_upper score k u t Hu Ht). lra.
Qed.

(** Following the backpointers from [x] yields a path that attains the
    final score of [x]. *)
Lemma viterbi_attained (x : nat) (m : nat) : forall (k : nat) (score : tensor1),
  (x < T)%nat ->
  exists d0 d',
    backward follow 0%nat x (backpointers self T em score (seq k m)) = d0 :: d' /\
    (d0 < T)%nat /\ Forall (fun t => (t < T)%nat) d' /\ length d' = m /\
    at1 score d0 + chain (step_weight self em) (stop_weight self) d0 d' k
    = at1 (fold_left (best_scores self T em) (seq k m) score) x + stop_weight self x.
Proof.
  induction m as [|m IH]; intros k score Hx.
  - exists x, []. simpl. repeat split; auto.
  - cbn [seq backpointers backward fold_left].
    destruct (IH (S k) (best_scores self T em score k) Hx)
      as (d1 & d'' & Hback & Hd1 & Hall & Hlen & Hval).
    rewrite Hback. cbn [hd].
    destruct (best_sources_attain score k d1 Hd1) as [Hlt Hatt].
    exists (follow d1 (best_sources self T em score k)), (d1 :: d'').
    split; [reflexivity|]. split; [exact Hlt|].
    split; [now constructor|]. split; [simpl; now rewrite Hlen|].
    cbn [chain]. rewrite <- Hval, Hatt. lra.
Qed.

Lemma viterbi_step_eq (mask : list bool) (score : tensor1)
      (history : list (list nat)) (i : nat) :
  viterbi_step self T em mask (score, history) i
  = ((if nth i mask false then best_scores self T em score i else score),
     history ++ [best_sources self T em score i]).
Proof. reflexivity. Qed.

(** The loop of the decoder: valid steps update the score, padded steps
    keep it; every step appends one entry to the history. *)
Lemma viterbi_loop_valid (mask : list bool) (steps : list nat) :
  (forall i, In i steps -> nth i mask false = true) ->
  forall score history,
    fold_left (viterbi_step self T em mask) steps (score, history)
    = (fold_left (best_scores self T em) steps score,
       history ++ backpointers self T em score steps).
Proof.
  induction steps as [|i r IH]; intros Hvalid score history.
  - simpl. now rewrite app_nil_r.
  - cbn [fold_left backpointers]. rewrite viterbi_step_eq.
    rewrite Hvalid by now left.
    rewrite IH by (intros; apply Hvalid; now right).
    now rewrite <- app_assoc.
Qed.

Lemma viterbi_loop_padding (mask : list bool) (steps : list nat) :
  (forall i, In i steps -> nth i mask false = false) ->
  forall score history,
    exists extra,
      length extra = length steps /\
      fold_left (viterbi_step self T em mask) steps (score, history)
      = (score, history ++ extra).
Proof.
  induction steps as [|i r IH]; intros Hpad score history.
  - exists []. simpl. now rewrite app_nil_r.
  - cbn [fold_left]. rewrite viterbi_step_eq.
    rewrite Hpad by now left.
    destruct (IH (fun j Hj => Hpad j (or_intror Hj)) score
                 (history ++ [best_sources self T em score i]))
      as (extra & Hlen & Heq).
    exists (best_sources self T em score i :: extra).
    split; [simpl; now rewrite Hlen|].
    rewrite Heq, <- app_assoc. reflexivity.
Qed.

Lemma viterbi_scores_prefix (n L : nat) :
  (1 <= n <= L)%nat ->
  exists extra,
    viterbi_scores self L T em (prefix_mask n L)
    = (map (fun v => at1 (fold_left (best_scores self T em) (seq 1 (n - 1))
                                    (start_plus_first self T (nth 0 em []))) v
                     + at1 (end_transitions self) v)
           (seq 0 T),
       backpointers self T em (start_plus_first self T (nth 0 em [])) (seq 1 (n - 1))
       ++ extra).
Proof.
  intros Hn. unfold viterbi_scores.
  rewrite (loop_split _ n L) by exact Hn.
  rewrite viterbi_loop_valid.
  2:{ intros i Hi. apply in_seq in Hi. rewrite nth_prefix_mask.
      apply Nat.ltb_lt. lia. }
  destruct (viterbi_loop_padding (prefix_mask n L) (seq n (L - n)))
    with (score := fold_left (best_scores self T em) (seq 1 (n - 1))
                             (start_plus_first self T (nth 0 em [])))
         (history := [] ++ backpointers self T em (start_plus_first self T (nth 0 em []))
                                        (seq 1 (n - 1)))
    as (extra & _ & Heq).
  { intros i Hi. apply in_seq in Hi. rewrite nth_prefix_mask.
    apply Nat.ltb_ge. lia. }
  rewrite Heq. exists extra. reflexivity.
Qed.

(** The decoded row: the backpointer chain from the best last tag. *)
Lemma viterbi_row_prefix (n L : nat) :
  (1 <= n <= L)%nat ->
  viterbi_row self L T em (prefix_mask n L)
  = backward follow 0%nat
             (snd (max_dim (fst (viterbi_scores self L T em (prefix_mask n L)))))
             (backpointers self T em (start_plus_first self T (nth 0 em [])) (seq 1 (n - 1))).
Proof.
  intros Hn. unfold viterbi_row.
  destruct (viterbi_scores_prefix n L Hn) as (extra & ->). cbn [fst].
  rewrite mask_sum_prefix. unfold slice_to.
  replace (Z.of_nat n - 1 <? 0)%Z with false by (symmetry; apply Z.ltb_ge; lia).
  replace (Z.to_nat (Z.of_nat n - 1)) with (n - 1)%nat by lia.
  rewrite firstn_app, backpointers_length, length_seq, Nat.sub_diag.
  rewrite firstn_all2 by (rewrite backpointers_length, length_seq; lia).
  cbn [firstn]. rewrite app_nil_r.
  rewrite <- (rev_scan_backward follow 0%nat). f_equal.
  exact (scan_trace follow 0%nat _ _).
Qed.

Lemma viterbi_row_optimal (n L : nat) :
  (1 <= n <= L)%nat ->
  let decoded := viterbi_row self L T em (prefix_mask n L) in
  let best := fst (max_dim (fst (viterbi_scores self L T em (prefix_mask n L)))) in
  length decoded = n /\
  In decoded (all_seqs T n) /\
  (forall t, In t (all_seqs T n) ->
             path_score self em t <= path_score self em decoded) /\
  best = path_score self em decoded.
Proof.
  intros Hn decoded best.
  set (score0 := start_plus_first self T (nth 0 em [])).
  set (final := fold_left (best_scores self T em) (seq 1 (n - 1)) score0).
  set (g := fun v => at1 final v + at1 (end_transitions self) v).
  assert (Hscores : fst (viterbi_scores self L T em (prefix_mask n L))
                    = map g (seq 0 T)).
  { destruct (viterbi_scores_prefix n L Hn) as (extra & ->). reflexivity. }
  destruct (max_dim_tags T g T_pos) as (Hx & Hbest & Hmax).
  destruct (viterbi_attained (snd (max_dim (map g (seq 0 T)))) (n - 1) 1 score0 Hx)
    as (d0 & d' & Hback & Hd0 & Hall & Hlen & Hval).
  assert (Hdec : decoded = d0 :: d').
  { unfold decoded. rewrite viterbi_row_prefix by exact Hn.
    rewrite Hscores. exact Hback. }
  assert (Hscore : path_score self em decoded = best).
  { rewrite Hdec, path_score_cons.
    assert (H0 : at1 score0 d0
                 = at1 (start_transitions self) d0 + at1 (nth 0 em []) d0).
    { unfold score0, start_plus_first. now rewrite at1_map_seq. }
    rewrite <- H0, Hval. unfold best. rewrite Hscores, Hbest. reflexivity. }
  split; [rewrite Hdec; simpl; lia|]. split; [|split].
  - rewrite Hdec. replace n with (length (d0 :: d')) by (simpl; lia).
    apply all_seqs_complete. now constructor.
  - intros t Ht. rewrite Hscore.
    pose proof (all_seqs_length T n t Ht) as Htl.
    pose proof (all_seqs_range T n t Ht) as Htr.
    destruct t as [|u s]; [simpl in Htl; lia|].
    pose proof (Forall_inv Htr) as Hu. pose proof (Forall_inv_tail Htr) as Hs.
    cbv beta in Hu. rewrite path_score_cons.
    assert (H0 : at1 score0 u
                 = at1 (start_transitions self) u + at1 (nth 0 em []) u).
    { unfold score0, start_plus_first. now rewrite at1_map_seq. }
    rewrite <- H0.
    apply (viterbi_upper best (n - 1) 1 score0 u s); try assumption.
    + intros v Hv. unfold best. rewrite Hscores.
      apply (Hmax v Hv).
    + simpl in Htl. lia.
  - now rewrite Hscore.
Qed.

End Viterbi.

(** ** C2: the Viterbi decoder against brute-force enumeration *)

(** C2. For a batch row whose mask is a non-empty contiguous prefix of
    length [n], [CRF.viterbi_decode] returns a tag sequence of length
    exactly [n] whose path score is maximal among all [T^n] tag sequences
    of length [n]; and the score the decoder reconstructs internally (the
    maximum of the final score vector plus the end transitions) is that
    maximal path score. *)
Theorem viterbi_decode_optimal
        (self : crf_params) (emissions : tensor3) (mask : list (list bool))
        (B L T b n : nat) :
  well_shaped self B L T emissions ->
  (0 < T)%nat -> (b < B)%nat -> (1 <= n <= L)%nat ->
  nth b mask [] = prefix_mask n L ->
  exists paths,
    CRF.viterbi_decode self emissions (Some mask) = Some paths /\
    length (nth b paths []) = n /\
    In (nth b paths []) (all_seqs T n) /\
    (forall t, In t (all_seqs T n) ->
               path_score self (nth b emissions []) t
               <= path_score self (nth b emissions []) (nth b paths [])) /\
    fst (max_dim (fst (viterbi_scores self L T (nth b emissions [])
                                      (nth b mask []))))
    = path_score self (nth b emissions []) (nth b paths []).
Proof.
  intros Hws HT Hb Hn Hmask.
  unfold CRF.viterbi_decode, viterbi_tags.
  rewrite (shape3_well_shaped self B L T) by (assumption || lia).
  rewrite batch_guard_false by lia.
  eexists. split; [reflexivity|].
  rewrite nth_map_seq by exact Hb. rewrite Hmask.
  exact (viterbi_row_optimal self T (nth b emissions []) HT n L Hn).
Qed.

Lemma viterbi_decode_optimal_witness :
  exists paths,
    CRF.viterbi_decode example_crf example_emissions (Some [prefix_mask 2 3])
    = Some paths /\
    length (nth 0 paths []) = 2%nat /\
    In (nth 0 paths []) (all_seqs 2 2) /\
    (forall t, In t (all_seqs 2 2) ->
               path_score example_crf (nth 0 example_emissions []) t
               <= path_score example_crf (nth 0 example_emissions [])
                             (nth 0 paths [])) /\
    fst (max_dim (fst (viterbi_scores example_crf 3 2 (nth 0 example_emissions [])
                                      (nth 0 [prefix_mask 2 3] []))))
    = path_score example_crf (nth 0 example_emissions []) (nth 0 paths []).
Proof.
  apply (viterbi_decode_optimal example_crf example_emissions
           [prefix_mask 2 3] 1 3 2 0 2).
  - exact example_well_shaped.
  - lia.
  - lia.
  - lia.
  - reflexivity.
Defined.

(** ** C10: an omitted mask is the all-ones mask *)

Lemma prefix_mask_full (L : nat) : prefix_mask L L = repeat true L.
Proof.
  unfold prefix_mask. rewrite Nat.sub_diag. apply app_nil_r.
Qed.

Lemma ones_like_full {A} (tags : list (list A)) :
  ones_like tags = map (fun row => prefix_mask (length row) (length row)) tags.
Proof.
  unfold ones_like. apply map_ext. intros row.
  rewrite prefix_mask_full. induction row as [|a row IH]; simpl; congruence.
Qed.

Lemma ones_full (B L : nat) : ones B L = repeat (prefix_mask L L) B.
Proof. unfold ones. now rewrite prefix_mask_full. Qed.

(** C10. Calling [CRF.forward], [CRF.marginal_probabilities],
    [CRF.viterbi_decode] or [PartialCRF.forward] without a mask returns
    exactly what the call returns with the all-ones mask of matching shape,
    in which every position of every row is valid. *)
Theorem mask_none_is_all_ones
        (self : crf_params) (emissions : tensor3) (tags : list (list Z)) :
  let B := length emissions in
  let L := length (hd [] emissions) in
  (CRF.forward self emissions tags None
   = CRF.forward self emissions tags (Some (ones_like tags))) /\
  (CRF.marginal_probabilities self emissions None
   = CRF.marginal_probabilities self emissions (Some (ones B L))) /\
  (CRF.viterbi_decode self emissions None
   = CRF.viterbi_decode self emissions (Some (ones B L))) /\
  (PartialCRF.forward self emissions tags None
   = PartialCRF.forward self emissions tags (Some (ones_like tags))) /\
  ones_like tags = map (fun row => prefix_mask (length row) (length row)) tags /\
  ones B L = repeat (prefix_mask L L) B.
Proof.
  intros B L. repeat split.
  - apply ones_like_full.
  - apply ones_full.
Qed.

(** ** Padding one row *)

Lemma trace_ext_in {A B} (f g : A -> B -> A) (steps : list B) :
  (forall a i, In i steps -> f a i = g a i) ->
  forall x, trace f x steps = trace g x steps.
Proof.
  induction steps as [|i r IH]; intros H x; simpl; [reflexivity|].
  rewrite (H x i) by now left. f_equal. apply IH. intros; apply H; now right.
Qed.

Lemma backward_ext_in {A B} (f g : A -> B -> A) (d x : A) (steps : list B) :
  (forall a i, In i steps -> f a i = g a i) ->
  backward f d x steps = backward g d x steps.
Proof.
  induction steps as [|i r IH]; intros H; simpl; [reflexivity|].
  rewrite IH by (intros; apply H; now right).
  rewrite H by now left. reflexivity.
Qed.

Lemma trace_fixed {A B} (f : A -> B -> A) (x : A) (steps : list B) :
  (forall i, In i steps -> f x i = x) ->
  trace f x steps = repeat x (length steps).
Proof.
  induction steps as [|i r IH]; intros H; simpl; [reflexivity|].
  rewrite H by now left. f_equal. apply IH. intros; apply H; now right.
Qed.

Lemma backward_app_fixed {A B} (f : A -> B -> A) (d x : A) (s1 s2 : list B) :
  (forall i, In i s2 -> f x i = x) ->
  backward f d x (s1 ++ s2) = backward f d x s1 ++ repeat x (length s2).
Proof.
  intros H. induction s1 as [|i r IH].
  - simpl. induction s2 as [|j s2 IH2]; [reflexivity|].
    cbn [backward length repeat].
    rewrite IH2 by (intros; apply H; now right).
    cbn [app hd]. rewrite H by now left. reflexivity.
  - cbn [app backward]. rewrite IH.
    destruct (backward f d x r) eqn:E; [|reflexivity].
    pose proof (backward_length f d x r) as Hl. rewrite E in Hl. discriminate.
Qed.

Lemma last_as_nth {A} (l : list A) (d : A) :
  last l d = nth (length l - 1) l d.
Proof.
  induction l as [|a l IH]; [reflexivity|].
  destruct l as [|b l]; [reflexivity|].
  change (last (a :: b :: l) d) with (last (b :: l) d).
  rewrite IH. cbn [length].
  replace (S (S (length l)) - 1)%nat with (S (length l)) by lia.
  replace (S (length l) - 1)%nat with (length l) by lia.
  reflexivity.
Qed.

Lemma nth_app_padding (m : list bool) (k i : nat) :
  (length m <= i)%nat -> nth i (m ++ repeat false k) false = false.
Proof.
  intros H. rewrite app_nth2 by exact H. apply nth_repeat.
Qed.

Lemma mask_sum_padding (m : list bool) (k : nat) :
  mask_sum (m ++ repeat false k) = mask_sum m.
Proof.
  unfold mask_sum. f_equal. rewrite filter_app, length_app.
  assert (Hf : length (filter (fun b : bool => b) (repeat false k)) = 0%nat).
  { induction k; simpl; congruence. }
  rewrite Hf. lia.
Qed.

Section Padding.

Variable self : crf_params.
Variables L T k : nat.
Variables em ex : tensor2.
Variable m : list bool.

Hypothesis L_pos : (0 < L)%nat.
Hypothesis em_length : length em = L.
Hypothesis m_length : length m = L.
Hypothesis end_shape : length (end_transitions self) = T.

Lemma nth_em_padded (i : nat) :
  (i < L)%nat -> nth i (em ++ ex) [] = nth i em [].
Proof. intros Hi. apply app_nth1. lia. Qed.

Lemma nth_mask_padded (i : nat) :
  (i < L)%nat -> nth i (m ++ repeat false k) false = nth i m false.
Proof. intros Hi. apply app_nth1. lia. Qed.

Lemma padded_loop {A} (f g : A -> nat -> A) (a : A) :
  (forall x i, (1 <= i < L)%nat -> f x i = g x i) ->
  fold_left f (seq 1 (L + k - 1)) a
  = fold_left f (seq L k) (fold_left g (seq 1 (L - 1)) a).
Proof.
  intros H. rewrite (loop_split f L (L + k)) by lia.
  replace (L + k - L)%nat with k by lia. f_equal.
  apply fold_left_ext_in. intros x i Hi. apply in_seq in Hi. apply H. lia.
Qed.

(** The partition engine. *)
Lemma denominator_step_length (alpha e : tensor1) (x : R) :
  length (denominator_step self T alpha e x) = T.
Proof. unfold denominator_step. now rewrite length_map, length_seq. Qed.

Lemma denominator_alpha_length :
  length (denominator_alpha self L T em m) = T.
Proof.
  unfold denominator_alpha.
  generalize (seq 1 (L - 1)).
  assert (H : length (start_plus_first self T (nth 0 em [])) = T)
    by apply start_plus_first_length.
  revert H. generalize (start_plus_first self T (nth 0 em [])).
  intros a Ha l. revert a Ha.
  induction l as [|i l IH]; intros a Ha; simpl; [exact Ha|].
  apply IH, denominator_step_length.
Qed.

Lemma denominator_row_padded :
  denominator_row self (L + k) T (em ++ ex) (m ++ repeat false k)
  = denominator_row self L T em m.
Proof.
  unfold denominator_row. f_equal. apply map_ext. intros v. f_equal. f_equal.
  unfold denominator_alpha at 1.
  rewrite (padded_loop _
             (fun alpha i => denominator_step self T alpha (nth i em [])
                               (mask_float (nth i m false)))).
  - rewrite nth_em_padded by lia. fold (denominator_alpha self L T em m).
    apply fold_left_fixed. intros i Hi. apply in_seq in Hi.
    rewrite nth_app_padding by lia.
    apply denominator_step_padding, denominator_alpha_length.
  - intros x i Hi. rewrite nth_em_padded, nth_mask_padded by lia. reflexivity.
Qed.

(** The forward and backward passes. *)
Lemma forward_step_length (r : bool) (a e : tensor1) (x : R) :
  length (CRF.forward_backward_step self T r a e x) = T.
Proof.
  unfold CRF.forward_backward_step.
  destruct r; now rewrite length_map, length_seq.
Qed.

Lemma forward_step_padding (r : bool) (a e : tensor1) :
  length a = T -> CRF.forward_backward_step self T r a e 0 = a.
Proof.
  intros Hlen. unfold CRF.forward_backward_step.
  destruct r.
  - transitivity (map (fun v => at1 a v) (seq 0 T)).
    + apply map_ext. intros v. lra.
    + rewrite <- Hlen. apply map_at1_seq.
  - transitivity (map (fun v => at1 a v) (seq 0 T)).
    + apply map_ext. intros v. lra.
    + rewrite <- Hlen. apply map_at1_seq.
Qed.

Lemma alpha_step_padded (a : tensor1) (i : nat) :
  (i < L)%nat ->
  alpha_step self T (em ++ ex) (m ++ repeat false k) a i
  = alpha_step self T em m a i.
Proof.
  intros Hi. unfold alpha_step.
  now rewrite nth_em_padded, nth_mask_padded.
Qed.

Lemma beta_step_padded (a : tensor1) (i : nat) :
  (i < L)%nat ->
  beta_step self T (em ++ ex) (m ++ repeat false k) a i
  = beta_step self T em m a i.
Proof.
  intros Hi. unfold beta_step.
  now rewrite nth_em_padded, nth_mask_padded.
Qed.

Lemma last_trace_length (x : tensor1) (steps : list nat) :
  length x = T ->
  length (last (x :: trace (alpha_step self T em m) x steps) []) = T.
Proof.
  revert x. induction steps as [|i r IH]; intros x Hx; [exact Hx|].
  cbn [trace]. change (last (x :: ?a :: ?l) []) with (last (a :: l) []).
  apply IH. apply forward_step_length.
Qed.

Lemma alpha_first_padded :
  alpha_first self T (em ++ ex) = alpha_first self T em.
Proof. unfold alpha_first. now rewrite nth_em_padded. Qed.

Lemma forward_row_padded :
  CRF.forward_algorithm_row self (L + k) T (em ++ ex) (m ++ repeat false k) false
  = CRF.forward_algorithm_row self L T em m false
    ++ repeat (nth (L - 1) (CRF.forward_algorithm_row self L T em m false) []) k.
Proof.
  rewrite !forward_row_trace, alpha_first_padded.
  replace (L + k - 1)%nat with ((L - 1) + k)%nat by lia.
  rewrite seq_app.
  rewrite (trace_app (alpha_step self T (em ++ ex) (m ++ repeat false k)) []).
  replace (1 + (L - 1))%nat with L by lia.
  rewrite (trace_ext_in (alpha_step self T (em ++ ex) (m ++ repeat false k))
                        (alpha_step self T em m) (seq 1 (L - 1))).
  2:{ intros a i Hi. apply in_seq in Hi. apply alpha_step_padded. lia. }
  set (row := alpha_first self T em
              :: trace (alpha_step self T em m) (alpha_first self T em)
                       (seq 1 (L - 1))).
  assert (Hlast : last row [] = nth (L - 1) row []).
  { rewrite (last_as_nth row []). unfold row. cbn [length].
    rewrite trace_length, length_seq. f_equal. lia. }
  rewrite (trace_fixed (alpha_step self T (em ++ ex) (m ++ repeat false k))
                       (last row []) (seq L k)).
  - rewrite length_seq, Hlast. reflexivity.
  - intros i Hi. apply in_seq in Hi. unfold alpha_step.
    rewrite nth_app_padding by lia. apply forward_step_padding.
    apply last_trace_length. unfold alpha_first.
    now rewrite length_map, length_seq.
Qed.

Lemma backward_row_padded :
  CRF.forward_algorithm_row self (L + k) T (em ++ ex) (m ++ repeat false k) true
  = CRF.forward_algorithm_row self L T em m true
    ++ repeat (end_transitions self) k.
Proof.
  rewrite !backward_row_trace.
  replace (L + k - 1)%nat with ((L - 1) + k)%nat by lia.
  rewrite seq_app. replace (1 + (L - 1))%nat with L by lia.
  rewrite backward_app_fixed.
  - rewrite (backward_ext_in _ (beta_step self T em m)).
    + now rewrite length_seq.
    + intros a i Hi. apply in_seq in Hi. apply beta_step_padded. lia.
  - intros i Hi. apply in_seq in Hi. unfold beta_step.
    rewrite nth_app_padding by lia. apply forward_step_padding, end_shape.
Qed.

End Padding.

Lemma viterbi_history_length (self : crf_params) (T : nat) (em : tensor2)
      (mask : list bool) (steps : list nat) :
  forall st,
    length (snd (fold_left (viterbi_step self T em mask) steps st))
    = (length (snd st) + length steps)%nat.
Proof.
  induction steps as [|i r IH]; intros [score history]; cbn [fold_left].
  - simpl. lia.
  - rewrite viterbi_step_eq, IH. cbn [snd length].
    rewrite length_app. simpl. lia.
Qed.

Lemma viterbi_scores_history_length (self : crf_params) (L T : nat)
      (em : tensor2) (mask : list bool) :
  length (snd (viterbi_scores self L T em mask)) = (L - 1)%nat.
Proof.
  unfold viterbi_scores.
  pose proof (viterbi_history_length self T em mask (seq 1 (L - 1))
                (start_plus_first self T (nth 0 em []), [])) as H.
  destruct (fold_left (viterbi_step self T em mask) (seq 1 (L - 1))
                      (start_plus_first self T (nth 0 em []), []))
    as [score history].
  cbn [snd] in *. rewrite H, length_seq. simpl. lia.
Qed.

Section PaddingViterbi.

Variable self : crf_params.
Variables L T k n : nat.
Variables em ex : tensor2.

Hypothesis n_range : (1 <= n <= L)%nat.
Hypothesis em_length : length em = L.

Lemma viterbi_step_padded (st : tensor1 * list (list nat)) (i : nat) :
  (i < L)%nat ->
  viterbi_step self T (em ++ ex) (prefix_mask n L ++ repeat false k) st i
  = viterbi_step self T em (prefix_mask n L) st i.
Proof.
  intros Hi. destruct st as [score history]. unfold viterbi_step.
  rewrite (app_nth1 em ex) by lia.
  rewrite (app_nth1 (prefix_mask n L)) by (rewrite prefix_mask_length; lia).
  reflexivity.
Qed.

Lemma viterbi_scores_padded :
  exists extra,
    viterbi_scores self (L + k) T (em ++ ex) (prefix_mask n L ++ repeat false k)
    = (fst (viterbi_scores self L T em (prefix_mask n L)),
       snd (viterbi_scores self L T em (prefix_mask n L)) ++ extra).
Proof.
  unfold viterbi_scores.
  rewrite (loop_split _ L (L + k)) by lia.
  replace (L + k - L)%nat with k by lia.
  rewrite (fold_left_ext_in _ (viterbi_step self T em (prefix_mask n L))
                            (seq 1 (L - 1))).
  2:{ intros st i Hi. apply in_seq in Hi. apply viterbi_step_padded. lia. }
  rewrite (app_nth1 em ex) by lia.
  destruct (fold_left (viterbi_step self T em (prefix_mask n L)) (seq 1 (L - 1))
                      (start_plus_first self T (nth 0 em []), []))
    as [score history].
  destruct (viterbi_loop_padding self T (em ++ ex)
              (prefix_mask n L ++ repeat false k) (seq L k))
    with (score := score) (history := history) as (extra & _ & ->).
  { intros i Hi. apply in_seq in Hi. apply nth_app_padding.
    rewrite prefix_mask_length; lia. }
  exists extra. reflexivity.
Qed.

Lemma viterbi_row_padded :
  viterbi_row self (L + k) T (em ++ ex) (prefix_mask n L ++ repeat false k)
  = viterbi_row self L T em (prefix_mask n L).
Proof.
  unfold viterbi_row.
  destruct viterbi_scores_padded as (extra & ->).
  pose proof (viterbi_scores_history_length self L T em (prefix_mask n L)) as Hlen.
  destruct (viterbi_scores self L T em (prefix_mask n L)) as [score history].
  cbn [fst snd] in *.
  rewrite mask_sum_padding, mask_sum_prefix. unfold slice_to.
  replace (Z.of_nat n - 1 <? 0)%Z with false by (symmetry; apply Z.ltb_ge; lia).
  rewrite firstn_app.
  replace (Z.to_nat (Z.of_nat n - 1) - length history)%nat with 0%nat by lia.
  cbn [firstn]. now rewrite app_nil_r.
Qed.

End PaddingViterbi.

(** ** Entries of the marginal tensor *)

Lemma marginal_probabilities_entries
      (self : crf_params) (emissions : tensor3) (mask : list (list bool))
      (B L T : nat) :
  well_shaped self B L T emissions -> (0 < B)%nat -> (0 < L)%nat ->
  exists proba,
    CRF.marginal_probabilities self emissions (Some mask) = Some proba /\
    forall b i, (b < B)%nat -> (i < L)%nat ->
      nth b (nth i proba []) []
      = marginal_row_entry self L T (nth b emissions []) (nth b mask []) i.
Proof.
  intros Hws HB HL.
  unfold CRF.marginal_probabilities, CRF._forward_algorithm.
  rewrite (shape3_well_shaped self B L T) by assumption.
  rewrite batch_guard_false by lia. cbn [bind].
  eexists. split; [reflexivity|]. intros b i Hb Hi.
  rewrite length_map, length_seq.
  set (alpha := map (fun i1 => map (fun b1 =>
                  nth i1 (CRF.forward_algorithm_row self L T (nth b1 emissions [])
                            (nth b1 mask []) false) []) (seq 0 B)) (seq 0 L)).
  set (beta := map (fun i1 => map (fun b1 =>
                  nth i1 (CRF.forward_algorithm_row self L T (nth b1 emissions [])
                            (nth b1 mask []) true) []) (seq 0 B)) (seq 0 L)).
  set (z := map (fun b1 => log_sum_exp (map (fun v0 =>
                  at2 (nth (L - 1) alpha []) b1 v0 + at1 (end_transitions self) v0)
                  (seq 0 T))) (seq 0 B)).
  rewrite (nth_map_seq _ L i) by lia. rewrite (nth_map_seq _ B b) by exact Hb.
  unfold marginal_row_entry. apply map_ext. intros v.
  unfold z. rewrite (nth_map_seq _ B b) by exact Hb.
  unfold alpha, beta.
  rewrite !(stack_at (fun i b => nth i (CRF.forward_algorithm_row self L T
                                          (nth b emissions []) (nth b mask []) _) [])
                     B L i b v) by lia.
  f_equal. f_equal. apply (f_equal log_sum_exp). apply map_ext. intros v'.
  cbv beta. f_equal.
  apply (stack_at (fun i b => nth i (CRF.forward_algorithm_row self L T
                                       (nth b emissions []) (nth b mask []) false) [])
                  B L (L - 1) b v'); lia.
Qed.

Lemma marginal_row_entry_padded
      (self : crf_params) (L T k : nat) (em ex : tensor2) (m : list bool) (i : nat) :
  (0 < T)%nat -> (0 < L)%nat -> length em = L -> length m = L ->
  length (end_transitions self) = T -> (i < L)%nat ->
  marginal_row_entry self (L + k) T (em ++ ex) (m ++ repeat false k) i
  = marginal_row_entry self L T em m i.
Proof.
  intros HT HL Hem Hm Hend Hi. unfold marginal_row_entry.
  rewrite (forward_row_padded self L T k em ex m) by assumption.
  rewrite (backward_row_padded self L T k em ex m) by assumption.
  pose proof (forward_row_length self T em m HT L false HL) as Hfl.
  pose proof (forward_row_length self T em m HT L true HL) as Hbl.
  set (alpha := CRF.forward_algorithm_row self L T em m false) in *.
  set (beta := CRF.forward_algorithm_row self L T em m true) in *.
  rewrite !(app_nth1 _ _ _ (n := i)) by lia.
  assert (Hz : nth (L + k - 1) (alpha ++ repeat (nth (L - 1) alpha []) k) []
               = nth (L - 1) alpha []).
  { destruct k as [|k'].
    - simpl repeat. rewrite app_nil_r. f_equal. lia.
    - rewrite app_nth2 by lia. apply nth_repeat_lt. lia. }
  rewrite Hz. reflexivity.
Qed.

(** ** Padding a batch *)

Lemma nth_pad_emissions (emissions extra : tensor3) (b : nat) :
  length emissions = length extra ->
  nth b (pad_emissions emissions extra) []
  = nth b emissions [] ++ nth b extra [].
Proof.
  intros Hlen. unfold pad_emissions.
  pose proof (map_nth (fun p : tensor2 * tensor2 => fst p ++ snd p)
                      (combine emissions extra) ([], []) b) as H.
  cbn [fst snd app] in H. etransitivity; [exact H|].
  rewrite combine_nth by exact Hlen. reflexivity.
Qed.

Lemma nth_pad_mask (mask : list (list bool)) (k b : nat) :
  (b < length mask)%nat ->
  nth b (pad_mask mask k) [] = nth b mask [] ++ repeat false k.
Proof.
  intros Hb. unfold pad_mask.
  rewrite (nth_indep _ [] ([] ++ repeat false k))
    by (rewrite length_map; exact Hb).
  exact (map_nth (fun m => m ++ repeat false k) mask [] b).
Qed.

Lemma well_shaped_pad (self : crf_params) (B L T k : nat)
      (emissions extra : tensor3) :
  well_shaped self B L T emissions -> extra_shaped B k T extra ->
  well_shaped self B (L + k) T (pad_emissions emissions extra).
Proof.
  intros (HB & Hrows & Hrest) (HE & Hex).
  split; [|split; [|exact Hrest]].
  - unfold pad_emissions. rewrite length_map, length_combine. lia.
  - unfold pad_emissions. apply Forall_forall. intros row Hrow.
    apply in_map_iff in Hrow. destruct Hrow as ([r e] & <- & Hin).
    rewrite Forall_forall in Hrows, Hex.
    destruct (Hrows r (in_combine_l _ _ _ _ Hin)) as [Hr1 Hr2].
    destruct (Hex e (in_combine_r _ _ _ _ Hin)) as [He1 He2].
    cbn [fst snd]. split.
    + rewrite length_app. lia.
    + apply Forall_app. now split.
Qed.

Lemma well_shaped_row_length (self : crf_params) (B L T : nat)
      (emissions : tensor3) (b : nat) :
  well_shaped self B L T emissions -> (b < B)%nat ->
  length (nth b emissions []) = L.
Proof.
  intros (HB & Hrows & _) Hb. rewrite Forall_nth in Hrows.
  apply (Hrows b []). lia.
Qed.

(** ** C7: padding invariance *)

(** C7. Take a batch whose rows carry non-empty contiguous prefix masks
    and extend it by [k] trailing timesteps with mask bits false and
    arbitrary emission values.  Then the per-row [logZ] of
    [CRF._denominator_score] is unchanged, the marginals of
    [CRF.marginal_probabilities] at every original position are unchanged,
    and [CRF.viterbi_decode] returns the same tag sequence for every row. *)
Theorem padding_invariance
        (self : crf_params) (emissions extra : tensor3)
        (mask : list (list bool)) (B L T k : nat) :
  well_shaped self B L T emissions ->
  (0 < T)%nat ->
  length mask = B ->
  valid_masks B L mask ->
  extra_shaped B k T extra ->
  CRF._denominator_score self (pad_emissions emissions extra) (pad_mask mask k)
  = CRF._denominator_score self emissions mask
  /\ (exists proba proba',
        CRF.marginal_probabilities self emissions (Some mask) = Some proba /\
        CRF.marginal_probabilities self (pad_emissions emissions extra)
                                   (Some (pad_mask mask k)) = Some proba' /\
        forall b i, (b < B)%nat -> (i < L)%nat ->
                    nth b (nth i proba' []) [] = nth b (nth i proba []) [])
  /\ CRF.viterbi_decode self (pad_emissions emissions extra)
                        (Some (pad_mask mask k))
     = CRF.viterbi_decode self emissions (Some mask).
Proof.
  intros Hws HT Hmlen Hmasks Hextra.
  destruct (Nat.eq_dec B 0) as [HB0|HB0].
  - destruct Hws as (Hlen & _). destruct Hextra as (Hel & _).
    rewrite HB0 in Hlen, Hel, Hmlen.
    apply length_zero_iff_nil in Hlen, Hel, Hmlen. subst emissions extra mask.
    split; [reflexivity|]. split; [|reflexivity].
    exists [], []. split; [reflexivity|]. split; [reflexivity|].
    intros b i Hb. lia.
  - assert (HB : (0 < B)%nat) by lia.
    assert (HL : (0 < L)%nat) by (apply (valid_masks_length_pos B L mask); assumption).
    pose proof (well_shaped_pad self B L T k emissions extra Hws Hextra) as Hws'.
    pose proof Hws as (Hlen & _ & _ & _ & Hend & _).
    pose proof Hextra as (Hel & _).
    assert (Hrow : forall b, (b < B)%nat ->
              nth b (pad_emissions emissions extra) []
              = nth b emissions [] ++ nth b extra []).
    { intros b Hb. apply nth_pad_emissions. lia. }
    assert (Hmrow : forall b, (b < B)%nat ->
              nth b (pad_mask mask k) [] = nth b mask [] ++ repeat false k).
    { intros b Hb. apply nth_pad_mask. lia. }
    assert (Hml : forall b, (b < B)%nat -> length (nth b mask []) = L).
    { intros b Hb. destruct (Hmasks b Hb) as (n & Hn & ->).
      apply prefix_mask_length. lia. }
    split; [|split].
    + unfold CRF._denominator_score, denominator_score.
      rewrite (shape3_well_shaped self B (L + k) T) by (assumption || lia).
      rewrite (shape3_well_shaped self B L T) by assumption.
      rewrite !batch_guard_false by lia. f_equal.
      apply map_ext_in. intros b Hb. apply in_seq in Hb.
      rewrite Hrow, Hmrow by lia.
      apply denominator_row_padded; try assumption.
      * apply (well_shaped_row_length self B L T); (assumption || lia).
      * apply Hml. lia.
    + destruct (marginal_probabilities_entries self emissions mask B L T
                  Hws HB HL) as (proba & Hp & Hentries).
      destruct (marginal_probabilities_entries self
                  (pad_emissions emissions extra) (pad_mask mask k)
                  B (L + k) T Hws' HB ltac:(lia)) as (proba' & Hp' & Hentries').
      exists proba, proba'. split; [exact Hp|]. split; [exact Hp'|].
      intros b i Hb Hi.
      rewrite Hentries by assumption. rewrite Hentries' by lia.
      rewrite Hrow, Hmrow by assumption.
      apply marginal_row_entry_padded; try assumption.
      * apply (well_shaped_row_length self B L T); assumption.
      * now apply Hml.
    + unfold CRF.viterbi_decode, viterbi_tags.
      rewrite (shape3_well_shaped self B (L + k) T) by (assumption || lia).
      rewrite (shape3_well_shaped self B L T) by assumption.
      rewrite !batch_guard_false by lia. f_equal.
      apply map_ext_in. intros b Hb. apply in_seq in Hb.
      rewrite Hrow, Hmrow by lia.
      destruct (Hmasks b ltac:(lia)) as (n & Hn & ->).
      apply viterbi_row_padded; try assumption.
      apply (well_shaped_row_length self B L T); (assumption || lia).
Qed.

Lemma padding_invariance_witness :
  CRF._denominator_score example_crf
      (pad_emissions example_emissions [[[5; -7]; [2; 3]]])
      (pad_mask [prefix_mask 2 3] 2)
  = CRF._denominator_score example_crf example_emissions [prefix_mask 2 3]
  /\ (exists proba proba',
        CRF.marginal_probabilities example_crf example_emissions
                                   (Some [prefix_mask 2 3]) = Some proba /\
        CRF.marginal_probabilities example_crf
            (pad_emissions example_emissions [[[5; -7]; [2; 3]]])
            (Some (pad_mask [prefix_mask 2 3] 2)) = Some proba' /\
        forall b i, (b < 1)%nat -> (i < 3)%nat ->
                    nth b (nth i proba' []) [] = nth b (nth i proba []) [])
  /\ CRF.viterbi_decode example_crf
         (pad_emissions example_emissions [[[5; -7]; [2; 3]]])
         (Some (pad_mask [prefix_mask 2 3] 2))
     = CRF.viterbi_decode example_crf example_emissions (Some [prefix_mask 2 3]).
Proof.
  apply (padding_invariance example_crf example_emissions [[[5; -7]; [2; 3]]]
           [prefix_mask 2 3] 1 3 2 2).
  - exact example_well_shaped.
  - lia.
  - reflexivity.
  - intros b Hb. assert (b = 0%nat) as -> by lia.
    exists 2%nat. split; [lia|reflexivity].
  - unfold extra_shaped. simpl. repeat split; repeat constructor.
Defined.

(** ** The partial gold scorer on one row *)

Lemma ssum_member_le {A} (l : list A) (f : A -> R) (a : A) :
  In a l -> (forall x, 0 < f x) -> f a <= ssum l f.
Proof.
  intros Hin Hpos. induction l as [|x l IH]; [contradiction|].
  change (ssum (x :: l) f) with (f x + ssum l f).
  assert (0 <= ssum l f) by (apply ssum_nonneg; intros; apply Rlt_le, Hpos).
  destruct Hin as [->|Hin]; [lra|].
  pose proof (Hpos x). specialize (IH Hin). lra.
Qed.

Lemma ssum_two_members_lt {A} (l : list A) (f : A -> R) (a b : A) :
  In a l -> In b l -> a <> b -> (forall x, 0 < f x) -> f a < ssum l f.
Proof.
  intros Ha Hb Hab Hpos. induction l as [|x l IH]; [contradiction|].
  change (ssum (x :: l) f) with (f x + ssum l f).
  pose proof (Hpos x) as Hx. pose proof (Hpos b) as Hfb.
  destruct Ha as [Ha|Ha], Hb as [Hb|Hb].
  - congruence.
  - subst x. pose proof (ssum_member_le l f b Hb Hpos). lra.
  - subst x. pose proof (ssum_member_le l f a Ha Hpos). lra.
  - specialize (IH Ha Hb). lra.
Qed.

Lemma exp_le_reflect (x y : R) : exp x <= exp y -> x <= y.
Proof.
  intros H. destruct (Rle_or_lt x y) as [Hle|Hlt]; [exact Hle|].
  apply exp_increasing in Hlt. lra.
Qed.

Lemma chain_ext_along (w w' : nat -> nat -> nat -> R) (fin fin' : nat -> R)
      (s : list nat) : forall (u k : nat),
  (forall j, (j < length s)%nat ->
             w (k + j)%nat (nth j (u :: s) 0%nat) (nth (S j) (u :: s) 0%nat)
             = w' (k + j)%nat (nth j (u :: s) 0%nat) (nth (S j) (u :: s) 0%nat)) ->
  fin (nth (length s) (u :: s) 0%nat) = fin' (nth (length s) (u :: s) 0%nat) ->
  chain w fin u s k = chain w' fin' u s k.
Proof.
  induction s as [|t s IH]; intros u k Hw Hfin.
  - exact Hfin.
  - cbn [chain]. f_equal.
    + specialize (Hw 0%nat ltac:(simpl; lia)). cbn [nth] in Hw.
      now replace (k + 0)%nat with k in Hw by lia.
    + apply IH.
      * intros j Hj. specialize (Hw (S j) ltac:(simpl; lia)).
        cbn [nth] in Hw |- *.
        now replace (k + S j)%nat with (S k + j)%nat in Hw by lia.
      * exact Hfin.
Qed.

Section PartialRow.

Variable self : crf_params.
Variable T : nat.
Variable em : tensor2.
Variable possible : list (list bool).
Hypothesis T_pos : (0 < T)%nat.

Lemma partial_step_valid (alpha : tensor1) (i : nat) :
  PartialCRF.numerator_step self T alpha (nth i em []) (nth (i - 1) possible [])
                            (nth i possible []) 1
  = chain_step T (restricted_weight self em possible) alpha i.
Proof.
  unfold PartialCRF.numerator_step, chain_step. apply map_ext. intros v.
  rewrite Rmult_1_r, Rminus_diag, Rmult_0_r, Rplus_0_r.
  f_equal. apply map_ext. intros u. unfold restricted_weight. lra.
Qed.

Lemma partial_step_padding (alpha e : tensor1) (cur next : list bool) :
  length alpha = T ->
  PartialCRF.numerator_step self T alpha e cur next 0 = alpha.
Proof.
  intros Hlen. unfold PartialCRF.numerator_step.
  transitivity (map (fun v => at1 alpha v) (seq 0 T)).
  - apply map_ext. intros v. lra.
  - rewrite <- Hlen. apply map_at1_seq.
Qed.

Lemma restricted_first_length (e0 : tensor1) (p0 : list bool) :
  length (PartialCRF.restricted_first self T e0 p0) = T.
Proof. unfold PartialCRF.restricted_first. now rewrite length_map, length_seq. Qed.

Lemma numerator_alpha_prefix (n L : nat) :
  (1 <= n <= L)%nat ->
  PartialCRF.numerator_alpha self L T em (prefix_mask n L) possible
  = fold_left (chain_step T (restricted_weight self em possible)) (seq 1 (n - 1))
              (PartialCRF.restricted_first self T (nth 0 em []) (nth 0 possible [])).
Proof.
  intros Hn. unfold PartialCRF.numerator_alpha.
  rewrite (loop_split _ n L) by exact Hn.
  rewrite (fold_left_ext_in _ (chain_step T (restricted_weight self em possible))
                            (seq 1 (n - 1))).
  2:{ intros a i Hi. apply in_seq in Hi. rewrite nth_prefix_mask.
      replace (i <? n)%nat with true by (symmetry; apply Nat.ltb_lt; lia).
      apply partial_step_valid. }
  apply fold_left_fixed. intros i Hi. apply in_seq in Hi.
  rewrite nth_prefix_mask.
  replace (i <? n)%nat with false by (symmetry; apply Nat.ltb_ge; lia).
  apply partial_step_padding.
  apply (fold_chain_step_length T), restricted_first_length.
Qed.

(** The restricted recursion sums the restricted path scores. *)
Lemma partial_row_sum (n L : nat) (last_possible : list bool) :
  (1 <= n <= L)%nat ->
  exp (log_sum_exp
         (map (fun v => at1 (PartialCRF.numerator_alpha self L T em
                               (prefix_mask n L) possible) v
                        + PartialCRF.restricted_end self last_possible v)
              (seq 0 T)))
  = ssum (all_seqs T n)
         (fun t => exp (restricted_path_score self T em possible last_possible t)).
Proof.
  intros Hn. rewrite exp_lse_tags by exact T_pos.
  rewrite numerator_alpha_prefix by exact Hn.
  rewrite (chain_forward T (restricted_weight self em possible)
                         (PartialCRF.restricted_end self last_possible) T_pos).
  destruct n as [|n']; [lia|].
  replace (S n' - 1)%nat with n' by lia.
  rewrite ssum_all_seqs_S. reflexivity.
Qed.

End PartialRow.

(** ** Singleton candidate sets *)

Section Singleton.

Variable self : crf_params.
Variables L T : nat.
Variable em : tensor2.
Variable tags : list Z.

Hypothesis T_pos : (0 < T)%nat.
Hypothesis tags_length : length tags = L.
Hypothesis tags_range : forall i, (0 <= nth i tags 0 < Z.of_nat T)%Z.

Lemma nth_singleton_sets (i : nat) :
  (i < L)%nat ->
  nth i (singleton_sets T tags) []
  = map (fun v => (nth i tags 0 =? Z.of_nat v)%Z) (seq 0 T).
Proof.
  intros Hi. unfold singleton_sets.
  rewrite (nth_indep _ [] (map (fun v => (0 =? Z.of_nat v)%Z) (seq 0 T)))
    by (rewrite length_map; lia).
  exact (map_nth (fun t => map (fun v => (t =? Z.of_nat v)%Z) (seq 0 T)) tags 0%Z i).
Qed.

Lemma possible_float_gold (i : nat) :
  (i < L)%nat ->
  PartialCRF.possible_float (nth i (singleton_sets T tags) []) (tag_at tags i) = 1.
Proof.
  intros Hi. unfold PartialCRF.possible_float.
  pose proof (tags_range i) as Hr.
  rewrite nth_singleton_sets by exact Hi.
  rewrite nth_map_seq by (unfold tag_at; lia).
  unfold tag_at. rewrite Z2Nat.id by lia. now rewrite Z.eqb_refl.
Qed.

Lemma restricted_first_gold (e0 : tensor1) :
  (0 < L)%nat ->
  at1 (PartialCRF.restricted_first self T e0 (nth 0 (singleton_sets T tags) []))
      (tag_at tags 0)
  = at1 (start_transitions self) (tag_at tags 0) + at1 e0 (tag_at tags 0).
Proof.
  intros HL. unfold PartialCRF.restricted_first.
  rewrite at1_map_seq by (unfold tag_at; pose proof (tags_range 0); lia).
  rewrite possible_float_gold by exact HL.
  destruct (Req_dec_T 1 0) as [H|_]; [lra|reflexivity].
Qed.

Lemma restricted_emission_gold (e : tensor1) (i : nat) :
  (i < L)%nat ->
  PartialCRF.restricted_emission e (nth i (singleton_sets T tags) []) (tag_at tags i)
  = at1 e (tag_at tags i).
Proof.
  intros Hi. unfold PartialCRF.restricted_emission.
  rewrite possible_float_gold by exact Hi.
  destruct (Req_dec_T 1 0) as [H|_]; [lra|reflexivity].
Qed.

Lemma restricted_transition_gold (i : nat) :
  (S i < L)%nat ->
  at2 (transitions self) (tag_at tags i) (tag_at tags (S i)) <> 0 ->
  PartialCRF.restricted_transition self (nth i (singleton_sets T tags) [])
                                   (nth (S i) (singleton_sets T tags) [])
                                   (tag_at tags i) (tag_at tags (S i))
  = at2 (transitions self) (tag_at tags i) (tag_at tags (S i)).
Proof.
  intros Hi Hnz. unfold PartialCRF.restricted_transition.
  rewrite !possible_float_gold by lia. rewrite !Rmult_1_r.
  destruct (Req_dec_T _ 0) as [H|_]; [contradiction|reflexivity].
Qed.

Lemma restricted_end_gold (i : nat) :
  (i < L)%nat ->
  at1 (end_transitions self) (tag_at tags i) <> 0 ->
  PartialCRF.restricted_end self (nth i (singleton_sets T tags) []) (tag_at tags i)
  = at1 (end_transitions self) (tag_at tags i).
Proof.
  intros Hi Hnz. unfold PartialCRF.restricted_end.
  rewrite possible_float_gold by exact Hi. rewrite Rmult_1_r.
  destruct (Req_dec_T _ 0) as [H|_]; [contradiction|reflexivity].
Qed.

Lemma nth_gold_path (n i : nat) :
  (i < n)%nat ->
  nth i (map Z.to_nat (firstn n tags)) 0%nat = tag_at tags i.
Proof.
  intros Hi. change 0%nat with (Z.to_nat 0) at 1.
  rewrite map_nth, nth_firstn.
  replace (i <? n)%nat with true by (symmetry; apply Nat.ltb_lt; lia).
  reflexivity.
Qed.

Lemma gold_path_in_all_seqs (n : nat) :
  (n <= L)%nat -> In (map Z.to_nat (firstn n tags)) (all_seqs T n).
Proof.
  intros Hn.
  assert (Hlen : length (map Z.to_nat (firstn n tags)) = n)
    by (rewrite length_map, length_firstn; lia).
  rewrite <- Hlen at 2.
  apply all_seqs_complete. apply Forall_forall. intros t Ht.
  apply (In_nth _ _ 0%nat) in Ht. destruct Ht as (i & Hi & <-).
  rewrite nth_gold_path by lia. unfold tag_at. pose proof (tags_range i). lia.
Qed.

(** On the gold path no sentinel is met, provided the transition and end
    parameters the path uses are not zero. *)
Lemma restricted_path_score_gold (n : nat) :
  (1 <= n <= L)%nat ->
  (forall i, (S i < n)%nat ->
             at2 (transitions self) (tag_at tags i) (tag_at tags (S i)) <> 0) ->
  at1 (end_transitions self) (tag_at tags (n - 1)) <> 0 ->
  restricted_path_score self T em (singleton_sets T tags)
                        (nth (n - 1) (singleton_sets T tags) [])
                        (map Z.to_nat (firstn n tags))
  = path_score self em (map Z.to_nat (firstn n tags)).
Proof.
  intros Hn Htr Hend.
  pose proof (nth_gold_path n) as Hnth.
  assert (Hlen : length (map Z.to_nat (firstn n tags)) = n)
    by (rewrite length_map, length_firstn; lia).
  destruct (map Z.to_nat (firstn n tags)) as [|u s]; [simpl in Hlen; lia|].
  assert (Hu : u = tag_at tags 0) by (apply (Hnth 0%nat); lia).
  simpl in Hlen.
  rewrite (path_score_cons self em u s). unfold restricted_path_score.
  assert (H1 : at1 (PartialCRF.restricted_first self T (nth 0 em [])
                      (nth 0 (singleton_sets T tags) [])) u
               = at1 (start_transitions self) u + at1 (nth 0 em []) u).
  { rewrite Hu. apply restricted_first_gold. lia. }
  rewrite H1. f_equal.
  apply chain_ext_along.
  - intros j Hj. rewrite !Hnth by lia. unfold restricted_weight, step_weight.
    replace (1 + j - 1)%nat with j by lia.
    rewrite restricted_emission_gold by lia.
    rewrite restricted_transition_gold by (try apply Htr; lia).
    reflexivity.
  - rewrite Hnth by lia. replace (length s) with (n - 1)%nat by lia.
    unfold stop_weight. apply restricted_end_gold; [lia|exact Hend].
Qed.

End Singleton.

(** ** Indexing the flat view of the candidate sets *)

Lemma concat_uniform_length {A} (xss : list (list A)) (L : nat) :
  Forall (fun r => length r = L) xss ->
  length (concat xss) = (length xss * L)%nat.
Proof.
  induction 1 as [|r xss Hr _ IH]; [reflexivity|].
  cbn [concat length]. rewrite length_app, IH, Hr. lia.
Qed.

Lemma nth_concat_uniform {A} (xss : list (list A)) (L : nat) (d : A) :
  Forall (fun r => length r = L) xss ->
  forall b j, (b < length xss)%nat -> (j < L)%nat ->
              nth (b * L + j) (concat xss) d = nth j (nth b xss []) d.
Proof.
  induction 1 as [|r xss Hr _ IH]; intros b j Hb Hj; [simpl in Hb; lia|].
  cbn [concat]. destruct b as [|b].
  - cbn [nth]. simpl Nat.add. apply app_nth1. lia.
  - cbn [nth]. rewrite app_nth2 by (rewrite Hr; simpl; lia).
    replace (S b * L + j - length r)%nat with (b * L + j)%nat
      by (rewrite Hr; simpl; lia).
    apply IH; [simpl in Hb; lia|exact Hj].
Qed.

Lemma index_wrap_flat (xss : list (list (list bool))) (L b n : nat) :
  Forall (fun r => length r = L) xss ->
  (b < length xss)%nat -> (1 <= n <= L)%nat ->
  index_wrap (concat xss) (Z.of_nat n - 1 + Z.of_nat b * Z.of_nat L)%Z
  = Some (nth (n - 1) (nth b xss []) []).
Proof.
  intros Hall Hb Hn.
  pose proof (concat_uniform_length xss L Hall) as Hlen.
  assert (Hidx : (Z.of_nat n - 1 + Z.of_nat b * Z.of_nat L
                  = Z.of_nat (b * L + (n - 1)))%Z) by lia.
  rewrite Hidx.
  rewrite (index_wrap_in_range _ _ []) by (rewrite Hlen; nia).
  rewrite Nat2Z.id. f_equal. apply nth_concat_uniform; (assumption || lia).
Qed.

Lemma mask_sum_bounds (m : list bool) :
  (0 <= mask_sum m <= Z.of_nat (length m))%Z.
Proof.
  unfold mask_sum. pose proof (filter_length_le (fun b : bool => b) m). lia.
Qed.

Lemma index_wrap_some {A} (xs : list A) (i : Z) :
  (- Z.of_nat (length xs) <= i < Z.of_nat (length xs))%Z ->
  exists x, index_wrap xs i = Some x.
Proof.
  intros Hi. unfold index_wrap.
  destruct ((0 <=? i) && (i <? Z.of_nat (length xs)))%Z eqn:E1.
  - apply andb_true_iff in E1. destruct E1 as [H1 H2].
    apply Z.leb_le in H1. apply Z.ltb_lt in H2.
    destruct (nth_error xs (Z.to_nat i)) eqn:E; [eauto|].
    apply nth_error_None in E. lia.
  - assert (Hneg : (i < 0)%Z).
    { destruct (Z.leb_spec 0 i) as [H0|H0]; [|exact H0].
      destruct (Z.ltb_spec i (Z.of_nat (length xs))); [discriminate|lia]. }
    replace ((- Z.of_nat (length xs) <=? i) && (i <? 0))%Z with true
      by (symmetry; apply andb_true_iff; split;
          [apply Z.leb_le|apply Z.ltb_lt]; lia).
    destruct (nth_error xs (Z.to_nat (i + Z.of_nat (length xs)))) eqn:E; [eauto|].
    apply nth_error_None in E. lia.
Qed.

Lemma nth_create_possible_tag_masks (T : nat) (tags : list (list Z)) (b : nat) :
  nth b (create_possible_tag_masks T tags) [] = singleton_sets T (nth b tags []).
Proof.
  exact (map_nth (singleton_sets T) tags [] b).
Qed.

Lemma create_possible_tag_masks_rows (T L : nat) (tags : list (list Z)) :
  Forall (fun r => length r = L) tags ->
  Forall (fun r => length r = L) (create_possible_tag_masks T tags).
Proof.
  intros H. unfold create_possible_tag_masks. apply Forall_map.
  eapply Forall_impl; [|exact H]. intros r Hr. now rewrite length_map.
Qed.

Lemma valid_tags_rows (B L T : nat) (tags : list (list Z)) :
  length tags = B -> valid_tags B L T tags ->
  Forall (fun r => length r = L) tags.
Proof.
  intros Hlen Hv. apply Forall_nth. intros b d Hb.
  rewrite (nth_indep _ d []) by exact Hb. apply Hv. lia.
Qed.

Lemma partial_numerator_unfold
      (self : crf_params) (emissions : tensor3) (tags : list (list Z))
      (mask : list (list bool)) (possible_tags : list (list (list bool)))
      (B L T : nat) :
  well_shaped self B L T emissions -> (0 < B)%nat -> (0 < L)%nat ->
  PartialCRF._numerator_score self emissions tags mask possible_tags
  = {| stdout :=
         [map (fun b => PartialCRF.restricted_first self T
                          (nth 0 (nth b emissions []) [])
                          (nth 0 (nth b possible_tags []) []))
              (seq 0 B)];
       caller_emissions :=
         if PartialCRF.transposed_is_view B
         then map (fun b => PartialCRF.overwritten_row L T (nth b emissions [])
                                                       (nth b possible_tags []))
                  (seq 0 B)
         else emissions;
       result :=
         sequence_opt
           (map (PartialCRF.numerator_row self L T emissions mask possible_tags)
                (seq 0 B)) |}.
Proof.
  intros Hws HB HL. unfold PartialCRF._numerator_score.
  rewrite (shape3_well_shaped self B L T) by assumption.
  rewrite batch_guard_false by lia. reflexivity.
Qed.

Lemma all_seqs_other (T n : nat) (t : list nat) :
  (2 <= T)%nat -> (1 <= n)%nat -> In t (all_seqs T n) ->
  exists t', In t' (all_seqs T n) /\ t <> t'.
Proof.
  intros HT Hn Ht.
  pose proof (all_seqs_length T n t Ht) as Hlen.
  pose proof (all_seqs_range T n t Ht) as Hr.
  destruct t as [|u s]; [simpl in Hlen; lia|].
  exists ((if (u =? 0)%nat then 1%nat else 0%nat) :: s). split.
  - rewrite <- Hlen.
    change (length (u :: s))
      with (length ((if (u =? 0)%nat then 1%nat else 0%nat) :: s)).
    apply all_seqs_complete. constructor.
    + destruct (u =? 0)%nat; lia.
    + exact (Forall_inv_tail Hr).
  - intros H. injection H as H. destruct (Nat.eqb_spec u 0); lia.
Qed.

(** ** Both numerators on a valid batch *)

Lemma gold_numerator_value
      (self : crf_params) (emissions : tensor3) (tags : list (list Z))
      (mask : list (list bool)) (B L T : nat) :
  well_shaped self B L T emissions -> (0 < T)%nat -> (0 < B)%nat ->
  valid_tags B L T tags -> valid_masks B L mask ->
  CRF._numerator_score self emissions tags mask
  = Some (map (fun b => gold_formula self L (nth b emissions []) (nth b tags [])
                                     (nth b mask []))
              (seq 0 B)).
Proof.
  intros Hws HT HB Htags Hmasks.
  assert (HL : (0 < L)%nat) by (apply (valid_masks_length_pos B L mask); assumption).
  pose proof Hws as (_ & _ & _ & Hs & He & Ht & _).
  unfold CRF._numerator_score.
  rewrite (shape3_well_shaped self B L T) by assumption.
  rewrite batch_guard_false by lia.
  apply sequence_opt_map. intros b Hb. apply in_seq in Hb.
  destruct (Hmasks b ltac:(lia)) as (n & Hn & ->).
  apply (numerator_row_prefix self L T); try assumption.
  - intros i Hi. apply (well_shaped_row self B L T); (assumption || lia).
  - intros u Hu. now apply (well_shaped_transitions self B L T emissions).
  - apply (Htags b). lia.
  - intros i. apply (valid_tags_range B L T); (assumption || lia).
Qed.

Lemma partial_numerator_value
      (self : crf_params) (emissions : tensor3) (tags : list (list Z))
      (mask : list (list bool)) (possible_tags : list (list (list bool)))
      (B L T : nat) :
  well_shaped self B L T emissions -> (0 < B)%nat ->
  valid_masks B L mask ->
  length possible_tags = B ->
  Forall (fun r => length r = L) possible_tags ->
  result (PartialCRF._numerator_score self emissions tags mask possible_tags)
  = Some (map (partial_row_value self L T emissions mask possible_tags) (seq 0 B)).
Proof.
  intros Hws HB Hmasks Hplen Hprows.
  assert (HL : (0 < L)%nat) by (apply (valid_masks_length_pos B L mask); assumption).
  rewrite (partial_numerator_unfold self emissions tags mask possible_tags B L T)
    by assumption.
  cbn [result]. apply sequence_opt_map. intros b Hb. apply in_seq in Hb.
  unfold PartialCRF.numerator_row, PartialCRF.last_possible_tags, partial_row_value.
  destruct (Hmasks b ltac:(lia)) as (n & Hn & ->).
  rewrite mask_sum_prefix.
  rewrite (index_wrap_flat possible_tags L b n) by (assumption || lia).
  cbn [bind]. replace (Z.to_nat (Z.of_nat n) - 1)%nat with (n - 1)%nat by lia.
  reflexivity.
Qed.

Lemma example_valid_tags : valid_tags 1 3 2 example_tags.
Proof.
  intros b Hb. assert (b = 0%nat) as -> by lia. simpl.
  split; [reflexivity|]. repeat constructor; lia.
Qed.

Lemma example_valid_masks : valid_masks 1 3 [prefix_mask 3 3].
Proof.
  intros b Hb. assert (b = 0%nat) as -> by lia.
  exists 3%nat. split; [lia|reflexivity].
Qed.

(** ** Rows without a valid position *)

Lemma mask_sum_all_false (L : nat) : mask_sum (repeat false L) = 0%Z.
Proof.
  unfold mask_sum. induction L as [|L IH]; [reflexivity|]. exact IH.
Qed.

(** The gold scorer looks its last tag up at index [-1]. *)
Lemma numerator_row_zero_length (self : crf_params) (L : nat) (em : tensor2)
      (tags : list Z) (mask : list bool) :
  mask_sum mask = 0%Z -> CRF.numerator_row self L em tags mask = None.
Proof.
  intros Hsum. unfold CRF.numerator_row.
  destruct (index_select (start_transitions self) (nth 0 tags 0%Z)); [|reflexivity].
  cbn [bind].
  destruct (fold_left (CRF.numerator_step self em tags mask) (seq 0 (L - 1)) (Some r));
    [|reflexivity].
  cbn [bind]. rewrite Hsum, gather_negative by lia. reflexivity.
Qed.

Lemma gold_numerator_zero_length
      (self : crf_params) (emissions : tensor3) (tags : list (list Z))
      (mask : list (list bool)) (B L T b : nat) :
  well_shaped self B L T emissions -> (0 < L)%nat -> (b < B)%nat ->
  nth b mask [] = repeat false L ->
  CRF._numerator_score self emissions tags mask = None.
Proof.
  intros Hws HL Hb Hmask. unfold CRF._numerator_score.
  rewrite (shape3_well_shaped self B L T) by (assumption || lia).
  rewrite batch_guard_false by lia.
  apply sequence_opt_none. apply in_map_iff. exists b. split.
  - apply numerator_row_zero_length. rewrite Hmask. apply mask_sum_all_false.
  - apply in_seq. lia.
Qed.

Lemma sequence_opt_all_some {A B} (f : A -> option B) (l : list A) :
  (forall a, In a l -> exists y, f a = Some y) ->
  exists ys, sequence_opt (map f l) = Some ys /\ length ys = length l.
Proof.
  induction l as [|a l IH]; intros H.
  - exists []. split; reflexivity.
  - destruct (H a (or_introl eq_refl)) as (y & Hy).
    destruct (IH (fun x Hx => H x (or_intror Hx))) as (ys & Hys & Hlen).
    exists (y :: ys). cbn [map sequence_opt]. rewrite Hy, Hys.
    split; [reflexivity|]. simpl. now rewrite Hlen.
Qed.

(** The partial gold scorer performs no check on the mask sum: the flat
    index [sum - 1 + b * L] is in range of the view for every row, possibly
    wrapping around or landing in the previous row. *)
Lemma partial_numerator_some
      (self : crf_params) (emissions : tensor3) (tags : list (list Z))
      (mask : list (list bool)) (possible_tags : list (list (list bool)))
      (B L T : nat) :
  well_shaped self B L T emissions -> (0 < B)%nat -> (0 < L)%nat ->
  (forall b, (b < B)%nat -> length (nth b mask []) = L) ->
  length possible_tags = B ->
  Forall (fun r => length r = L) possible_tags ->
  exists scores,
    result (PartialCRF._numerator_score self emissions tags mask possible_tags)
    = Some scores /\ length scores = B.
Proof.
  intros Hws HB HL Hml Hplen Hprows.
  rewrite (partial_numerator_unfold self emissions tags mask possible_tags B L T)
    by assumption.
  cbn [result].
  destruct (sequence_opt_all_some
              (PartialCRF.numerator_row self L T emissions mask possible_tags)
              (seq 0 B)) as (ys & Hys & Hlen).
  - intros b Hb. apply in_seq in Hb.
    unfold PartialCRF.numerator_row, PartialCRF.last_possible_tags.
    destruct (index_wrap_some (concat possible_tags)
                (mask_sum (nth b mask []) - 1 + Z.of_nat b * Z.of_nat L)%Z)
      as (lp & ->).
    + rewrite (concat_uniform_length possible_tags L Hprows), Hplen.
      pose proof (mask_sum_bounds (nth b mask [])) as Hsum.
      rewrite Hml in Hsum by lia. nia.
    + cbn [bind]. eauto.
  - exists ys. split; [exact Hys|]. now rewrite Hlen, length_seq.
Qed.

(** The decoder slices the history at [-1] and walks what is left. *)
Lemma viterbi_row_zero_length (self : crf_params) (L T : nat) (em : tensor2) :
  length (viterbi_row self L T em (repeat false L)) = Nat.max 1 (L - 1).
Proof.
  unfold viterbi_row.
  pose proof (viterbi_scores_history_length self L T em (repeat false L)) as Hlen.
  destruct (viterbi_scores self L T em (repeat false L)) as [score history].
  cbn [snd] in Hlen. rewrite mask_sum_all_false. unfold slice_to.
  replace (0 - 1 <? 0)%Z with true by reflexivity.
  rewrite length_rev.
  assert (Hscan :
    fold_left (fun best_tags hist =>
                 best_tags ++ [nth (last best_tags 0%nat) hist 0%nat])
              (rev (firstn (Z.to_nat (Z.of_nat (length history) + (0 - 1))) history))
              [snd (max_dim score)]
    = snd (max_dim score)
      :: trace follow (snd (max_dim score))
               (rev (firstn (Z.to_nat (Z.of_nat (length history) + (0 - 1)))
                            history)))
    by exact (scan_trace follow 0%nat _ _).
  rewrite Hscan. cbn [length].
  rewrite trace_length, length_rev, length_firstn. lia.
Qed.

Lemma viterbi_decode_zero_length
      (self : crf_params) (emissions : tensor3) (mask : list (list bool))
      (B L T b : nat) :
  well_shaped self B L T emissions -> (0 < L)%nat -> (b < B)%nat ->
  nth b mask [] = repeat false L ->
  exists paths,
    CRF.viterbi_decode self emissions (Some mask) = Some paths /\
    length (nth b paths []) = Nat.max 1 (L - 1).
Proof.
  intros Hws HL Hb Hmask. unfold CRF.viterbi_decode, viterbi_tags.
  rewrite (shape3_well_shaped self B L T) by (assumption || lia).
  rewrite batch_guard_false by lia.
  eexists. split; [reflexivity|].
  rewrite nth_map_seq by exact Hb. rewrite Hmask.
  apply viterbi_row_zero_length.
Qed.

(** ** C8: rows whose mask is entirely false *)

(** C8 (as amended).  On a batch containing a row whose mask is entirely
    false, the gold scorer reports an error (its last-tag lookup at index
    [-1] is out of range), whereas the partial gold scorer and the Viterbi
    decoder perform no check: the partial gold scorer returns a score for
    every row and the decoder returns a path for every row, the one of the
    empty row having [max 1 (L - 1)] tags. *)
Theorem zero_length_row_behaviour
        (self : crf_params) (emissions : tensor3) (tags : list (list Z))
        (mask : list (list bool)) (possible_tags : list (list (list bool)))
        (B L T b : nat) :
  well_shaped self B L T emissions ->
  (0 < L)%nat -> (b < B)%nat ->
  nth b mask [] = repeat false L ->
  (forall b', (b' < B)%nat -> length (nth b' mask []) = L) ->
  length possible_tags = B ->
  Forall (fun r => length r = L) possible_tags ->
  CRF._numerator_score self emissions tags mask = None /\
  (exists scores,
     result (PartialCRF._numerator_score self emissions tags mask possible_tags)
     = Some scores /\ length scores = B) /\
  (exists paths,
     CRF.viterbi_decode self emissions (Some mask) = Some paths /\
     length (nth b paths []) = Nat.max 1 (L - 1)).
Proof.
  intros Hws HL Hb Hmask Hml Hplen Hprows. split; [|split].
  - now apply (gold_numerator_zero_length self emissions tags mask B L T b).
  - apply (partial_numerator_some self emissions tags mask possible_tags B L T);
      (assumption || lia).
  - now apply (viterbi_decode_zero_length self emissions mask B L T b).
Qed.

Lemma zero_length_row_behaviour_witness :
  CRF._numerator_score example_crf example_emissions example_tags
                       [repeat false 3] = None /\
  (exists scores,
     result (PartialCRF._numerator_score example_crf example_emissions example_tags
            [repeat false 3] (create_possible_tag_masks 2 example_tags))
     = Some scores /\ length scores = 1%nat) /\
  (exists paths,
     CRF.viterbi_decode example_crf example_emissions (Some [repeat false 3])
     = Some paths /\
     length (nth 0 paths []) = Nat.max 1 (3 - 1)).
Proof.
  apply (zero_length_row_behaviour example_crf example_emissions example_tags
           [repeat false 3] (create_possible_tag_masks 2 example_tags) 1 3 2 0).
  - exact example_well_shaped.
  - lia.
  - lia.
  - reflexivity.
  - intros b' Hb'. assert (b' = 0%nat) as -> by lia. reflexivity.
  - reflexivity.
  - repeat constructor.
Defined.

(** The claim as stated fails on the scenario of the specification with
    its mask set to false everywhere: the three operations do not all
    report an error. *)
Lemma zero_length_row_not_reported :
  ~ (CRF._numerator_score example_crf example_emissions example_tags
                          [repeat false 3] = None /\
     result (PartialCRF._numerator_score example_crf example_emissions example_tags
            [repeat false 3] (create_possible_tag_masks 2 example_tags)) = None /\
     CRF.viterbi_decode example_crf example_emissions (Some [repeat false 3])
     = None).
Proof.
  intros (_ & _ & Hdec).
  destruct (viterbi_decode_zero_length example_crf example_emissions
              [repeat false 3] 1 3 2 0 example_well_shaped
              ltac:(lia) ltac:(lia) eq_refl) as (paths & Hsome & _).
  rewrite Hsome in Hdec. discriminate Hdec.
Qed.

(** ** C4: what the restriction overwrites *)

Lemma possible_float_cases (possible : list bool) (v : nat) :
  PartialCRF.possible_float possible v
  = if nth v possible false then 1 else 0.
Proof. reflexivity. Qed.

(** The emission part of the restriction is as the specification says. *)
Lemma restricted_emission_spec (e : tensor1) (next_possible_tags : list bool)
      (v : nat) :
  PartialCRF.restricted_emission e next_possible_tags v
  = if nth v next_possible_tags false then at1 e v else IMPOSSIBLE_SCORE.
Proof.
  unfold PartialCRF.restricted_emission. rewrite possible_float_cases.
  destruct (nth v next_possible_tags false);
    destruct (Req_dec_T _ 0) as [H|H]; try reflexivity; lra.
Qed.

(** The transition part tests the masked product against zero, so it also
    overwrites an allowed entry whose parameter is zero. *)
Lemma restricted_transition_spec (self : crf_params)
      (current_possible_tags next_possible_tags : list bool) (u v : nat) :
  PartialCRF.restricted_transition self current_possible_tags
                                   next_possible_tags u v
  = if nth u current_possible_tags false && nth v next_possible_tags false
    then (if Req_dec_T (at2 (transitions self) u v) 0
          then IMPOSSIBLE_SCORE else at2 (transitions self) u v)
    else IMPOSSIBLE_SCORE.
Proof.
  unfold PartialCRF.restricted_transition. rewrite !possible_float_cases.
  destruct (nth u current_possible_tags false),
           (nth v next_possible_tags false); cbn [andb].
  - rewrite !Rmult_1_r. reflexivity.
  - destruct (Req_dec_T _ 0) as [H|H]; [reflexivity|]. exfalso. apply H. ring.
  - destruct (Req_dec_T _ 0) as [H|H]; [reflexivity|]. exfalso. apply H. ring.
  - destruct (Req_dec_T _ 0) as [H|H]; [reflexivity|]. exfalso. apply H. ring.
Qed.

(** C4.  The code departs from the claim: with both tags allowed at the
    source and at the destination position, the transition entry (0, 0),
    whose parameter is exactly zero, is replaced by the sentinel instead
    of keeping its original value. *)
Theorem restricted_transition_zero_entry :
  nth 0 [true; true] false = true /\
  at2 (transitions zero_transition_crf) 0 0 = 0 /\
  PartialCRF.restricted_transition zero_transition_crf [true; true] [true; true] 0 0
  = IMPOSSIBLE_SCORE /\
  IMPOSSIBLE_SCORE <> at2 (transitions zero_transition_crf) 0 0.
Proof.
  split; [reflexivity|]. split; [reflexivity|]. split.
  - rewrite restricted_transition_spec. cbn [nth andb].
    destruct (Req_dec_T _ 0) as [_|H]; [reflexivity|].
    exfalso. apply H. reflexivity.
  - unfold IMPOSSIBLE_SCORE, at2. simpl. lra.
Qed.

(** ** Restricted scores against the scores they replace *)

Lemma ssum_le {A} (l : list A) (f g : A -> R) :
  (forall a, In a l -> f a <= g a) -> ssum l f <= ssum l g.
Proof.
  unfold ssum, vsum. induction l as [|a l IH]; intros H; simpl; [lra|].
  assert (f a <= g a) by (apply H; now left).
  assert (fold_right Rplus 0 (map f l) <= fold_right Rplus 0 (map g l))
    by (apply IH; intros; apply H; now right).
  lra.
Qed.

Lemma exp_le_mono (x y : R) : x <= y -> exp x <= exp y.
Proof.
  intros H. destruct H as [H|H].
  - left. now apply exp_increasing.
  - right. now rewrite H.
Qed.

Lemma restricted_emission_le (e : tensor1) (p : list bool) (v : nat) :
  IMPOSSIBLE_SCORE <= at1 e v ->
  PartialCRF.restricted_emission e p v <= at1 e v.
Proof.
  intros H. rewrite restricted_emission_spec.
  destruct (nth v p false); lra.
Qed.

Lemma restricted_transition_le (self : crf_params) (cur next : list bool)
      (u v : nat) :
  IMPOSSIBLE_SCORE <= at2 (transitions self) u v ->
  PartialCRF.restricted_transition self cur next u v
  <= at2 (transitions self) u v.
Proof.
  intros H. rewrite restricted_transition_spec.
  destruct (nth u cur false && nth v next false); [|lra].
  destruct (Req_dec_T _ 0); lra.
Qed.

Lemma restricted_end_le (self : crf_params) (lp : list bool) (v : nat) :
  IMPOSSIBLE_SCORE <= at1 (end_transitions self) v ->
  PartialCRF.restricted_end self lp v <= at1 (end_transitions self) v.
Proof.
  intros H. unfold PartialCRF.restricted_end.
  rewrite possible_float_cases.
  destruct (Req_dec_T _ 0) as [E|E]; [lra|].
  destruct (nth v lp false); [lra|]. exfalso. apply E. ring.
Qed.

Lemma restricted_first_le (self : crf_params) (T : nat) (e0 : tensor1)
      (p : list bool) (u : nat) :
  (u < T)%nat ->
  IMPOSSIBLE_SCORE <= at1 (start_transitions self) u + at1 e0 u ->
  at1 (PartialCRF.restricted_first self T e0 p) u
  <= at1 (start_transitions self) u + at1 e0 u.
Proof.
  intros Hu H. unfold PartialCRF.restricted_first.
  rewrite at1_map_seq by exact Hu.
  destruct (Req_dec_T _ 0); lra.
Qed.

(** ** C3: singleton candidate sets against the gold scorer *)

Lemma zero_transition_well_shaped :
  well_shaped zero_transition_crf 1 2 2 zero_transition_emissions.
Proof. repeat (split; try reflexivity); repeat constructor. Qed.

Lemma zero_transition_valid_tags : valid_tags 1 2 2 zero_transition_tags.
Proof.
  intros b Hb. assert (b = 0%nat) as -> by lia. simpl.
  split; [reflexivity|]. repeat constructor; lia.
Qed.

Lemma zero_transition_valid_masks : valid_masks 1 2 [[true; true]].
Proof.
  intros b Hb. assert (b = 0%nat) as -> by lia.
  exists 2%nat. split; [lia|reflexivity].
Qed.

(** With the singleton sets of the gold path [0, 0], every transition entry
    of the restricted matrix is the sentinel: the entries that leave or
    enter tag 1 because tag 1 is not allowed, and the entry (0, 0) of the
    gold path itself because its parameter is zero. *)
Lemma zero_transition_all_sentinel (u v : nat) :
  PartialCRF.restricted_transition zero_transition_crf
    [true; false] [true; false] u v
  = IMPOSSIBLE_SCORE.
Proof.
  rewrite restricted_transition_spec.
  destruct u as [|[|[|u]]]; destruct v as [|[|[|v]]]; cbn [nth andb];
    try reflexivity.
  destruct (Req_dec_T _ 0) as [_|H]; [reflexivity|].
  exfalso. apply H. reflexivity.
Qed.

Lemma zero_transition_restricted_scores (t : list nat) :
  In t (all_seqs 2 2) ->
  restricted_path_score zero_transition_crf 2 [[1; 0]; [1; 0]]
                        [[true; false]; [true; false]] [true; false] t
  <= IMPOSSIBLE_SCORE + 2.4.
Proof.
  intros Ht.
  pose proof (all_seqs_length 2 2 t Ht) as Hlen.
  pose proof (all_seqs_range 2 2 t Ht) as Hrange.
  destruct t as [|u [|v [|w t]]]; try discriminate Hlen.
  inversion Hrange as [|? ? Hu Hrange']; subst.
  inversion Hrange' as [|? ? Hv _]; subst.
  cbn [restricted_path_score chain]. unfold restricted_weight.
  cbn [nth Nat.sub].
  rewrite zero_transition_all_sentinel.
  assert (Hfirst : at1 (PartialCRF.restricted_first zero_transition_crf 2
                          [1; 0] [true; false]) u <= 1.1).
  { unfold PartialCRF.restricted_first. rewrite at1_map_seq by exact Hu.
    destruct (Req_dec_T _ 0);
      destruct u as [|[|u]]; try lia;
      unfold at1, IMPOSSIBLE_SCORE; simpl; lra. }
  assert (Hem : PartialCRF.restricted_emission [1; 0] [true; false] v <= 1).
  { rewrite restricted_emission_spec.
    destruct v as [|[|v]]; try lia;
      unfold at1, IMPOSSIBLE_SCORE; simpl; lra. }
  assert (Hend : PartialCRF.restricted_end zero_transition_crf [true; false] v
                 <= 0.3).
  { unfold PartialCRF.restricted_end. rewrite possible_float_cases.
    destruct (Req_dec_T _ 0);
      destruct v as [|[|v]]; try lia;
      unfold at1, IMPOSSIBLE_SCORE; simpl; lra. }
  lra.
Qed.

(** C3.  The code departs from the claim on a gold path that runs through a
    transition parameter equal to zero.  On one row of two positions with
    gold tags [0, 0] and the singleton candidate sets that
    [PartialCRF.forward] builds from them, the gold scorer returns [2.4],
    whereas the partial gold scorer returns at most [IMPOSSIBLE_SCORE + 5.4]:
    the zero transition of the gold path has been replaced by the sentinel
    (the slip of C4), so no tag sequence keeps the gold score. *)
Theorem singleton_candidates_zero_transition :
  exists partial,
    result (PartialCRF._numerator_score zero_transition_crf
              zero_transition_emissions zero_transition_tags [[true; true]]
              (create_possible_tag_masks (num_tags zero_transition_crf)
                                         zero_transition_tags))
    = Some [partial] /\
    CRF._numerator_score zero_transition_crf zero_transition_emissions
                         zero_transition_tags [[true; true]]
    = Some [2.4] /\
    partial <= IMPOSSIBLE_SCORE + 5.4 /\
    partial < 2.4.
Proof.
  assert (Hbound :
    partial_row_value zero_transition_crf 2 2 zero_transition_emissions
      [[true; true]]
      (create_possible_tag_masks (num_tags zero_transition_crf)
                                 zero_transition_tags) 0
    <= IMPOSSIBLE_SCORE + 5.4).
  { apply exp_le_reflect. unfold partial_row_value.
    change (nth 0 [[true; true]] []) with (prefix_mask 2 2).
    rewrite (partial_row_sum zero_transition_crf 2
               (nth 0 zero_transition_emissions [])
               (nth 0 (create_possible_tag_masks (num_tags zero_transition_crf)
                         zero_transition_tags) [])
               ltac:(lia) 2 2 _ ltac:(lia)).
    apply Rle_trans
      with (ssum (all_seqs 2 2) (fun _ => exp (IMPOSSIBLE_SCORE + 2.4))).
    - apply ssum_le. intros t Ht. apply exp_le_mono.
      exact (zero_transition_restricted_scores t Ht).
    - replace (IMPOSSIBLE_SCORE + 5.4) with (3 + (IMPOSSIBLE_SCORE + 2.4))
        by lra.
      rewrite (exp_plus 3).
      pose proof (exp_ineq1 3 ltac:(lra)) as H3.
      pose proof (exp_pos (IMPOSSIBLE_SCORE + 2.4)) as Hpos.
      set (c := exp (IMPOSSIBLE_SCORE + 2.4)) in *.
      unfold ssum, vsum. cbn [all_seqs seq flat_map map app fold_right].
      nra. }
  eexists. split; [|split; [|split]].
  - rewrite (partial_numerator_value zero_transition_crf
               zero_transition_emissions zero_transition_tags [[true; true]]
               (create_possible_tag_masks (num_tags zero_transition_crf)
                                          zero_transition_tags) 1 2 2
               zero_transition_well_shaped ltac:(lia)
               zero_transition_valid_masks eq_refl).
    + cbn [seq map]. reflexivity.
    + repeat constructor.
  - rewrite (gold_numerator_value zero_transition_crf zero_transition_emissions
               zero_transition_tags [[true; true]] 1 2 2
               zero_transition_well_shaped ltac:(lia) ltac:(lia)
               zero_transition_valid_tags zero_transition_valid_masks).
    cbn [seq map]. f_equal. f_equal.
    unfold gold_formula, tag_at, at1, at2, mask_sum, mask_float.
    simpl. lra.
  - exact Hbound.
  - unfold IMPOSSIBLE_SCORE in Hbound. lra.
Qed.

(** ** C9: effects of the scoring operations *)

Lemma partial_forward_effects
      (self : crf_params) (emissions : tensor3) (tags : list (list Z))
      (mask : option (list (list bool))) (B L T : nat) :
  well_shaped self B L T emissions -> (0 < B)%nat -> (0 < L)%nat ->
  let possible_tags := create_possible_tag_masks (num_tags self) tags in
  let after := PartialCRF.forward self emissions tags mask in
  length (stdout after) = 1%nat /\
  caller_emissions after
  = if PartialCRF.transposed_is_view B
    then map (fun b => PartialCRF.overwritten_row L T (nth b emissions [])
                                                  (nth b possible_tags []))
             (seq 0 B)
    else emissions.
Proof.
  intros Hws HB HL possible_tags after. unfold after, PartialCRF.forward.
  rewrite (partial_numerator_unfold self emissions tags _ _ B L T) by assumption.
  split; reflexivity.
Qed.

(** C9.  The code departs from the claim: a call of [PartialCRF.forward]
    on the scenario of the specification (one row) writes one tensor to
    standard output, the [print(alpha)] of the partial gold scorer, and
    leaves the caller's emissions changed: the entry of position 1, tag 0,
    which was 0, now holds the sentinel. *)
Theorem partial_forward_prints_and_overwrites :
  length (stdout (PartialCRF.forward example_crf example_emissions
                                     example_tags None)) = 1%nat /\
  at2 (nth 0 example_emissions []) 1 0 = 0 /\
  at2 (nth 0 (caller_emissions
                (PartialCRF.forward example_crf example_emissions
                                    example_tags None)) []) 1 0
  = IMPOSSIBLE_SCORE.
Proof.
  destruct (partial_forward_effects example_crf example_emissions example_tags
              None 1 3 2 example_well_shaped ltac:(lia) ltac:(lia))
    as [Hout Hafter].
  split; [exact Hout|]. split; [reflexivity|].
  rewrite Hafter. cbn [PartialCRF.transposed_is_view Nat.eqb seq map nth].
  unfold PartialCRF.overwritten_row, at2. cbn [seq map nth Nat.eqb].
  apply restricted_emission_spec.
Qed.

(** ** The scenario of the specification, evaluated *)

Example example_gold_score :
  CRF._numerator_score example_crf example_emissions example_tags
                       [prefix_mask 3 3] = Some [2.4].
Proof.
  rewrite (gold_numerator_value example_crf example_emissions example_tags
             [prefix_mask 3 3] 1 3 2 example_well_shaped ltac:(lia) ltac:(lia)
             example_valid_tags example_valid_masks).
  cbn [seq map]. f_equal. f_equal.
  unfold gold_formula, tag_at, at1, at2, mask_sum, prefix_mask, mask_float.
  simpl. lra.
Qed.

Example example_decoded_length :
  exists paths,
    CRF.viterbi_decode example_crf example_emissions None = Some paths /\
    length (nth 0 paths []) = 3%nat.
Proof.
  destruct (viterbi_row_optimal example_crf 2 (nth 0 example_emissions [])
              ltac:(lia) 3 3 ltac:(lia)) as (Hlen & _).
  eexists. split; [reflexivity|]. exact Hlen.
Qed.

(** * Further properties of the two classes *)

(** ** The loss of [CRF.forward] *)

Lemma denominator_score_value
      (self : crf_params) (emissions : tensor3) (mask : list (list bool))
      (B L T : nat) :
  well_shaped self B L T emissions -> (0 < B)%nat -> (0 < L)%nat ->
  CRF._denominator_score self emissions mask
  = Some (map (fun b => denominator_row self L T (nth b emissions [])
                                        (nth b mask []))
              (seq 0 B)).
Proof.
  intros Hws HB HL. unfold CRF._denominator_score, denominator_score.
  rewrite (shape3_well_shaped self B L T) by assumption.
  now rewrite batch_guard_false by lia.
Qed.

(** The gold path is one of the paths the partition function sums. *)
Lemma gold_below_partition_row
      (self : crf_params) (L T n : nat) (em : tensor2) (tags : list Z) :
  (0 < T)%nat ->
  length (start_transitions self) = T ->
  length (end_transitions self) = T ->
  length (transitions self) = T ->
  length tags = L ->
  (forall i, (0 <= nth i tags 0 < Z.of_nat T)%Z) ->
  (1 <= n <= L)%nat ->
  gold_formula self L em tags (prefix_mask n L)
  <= denominator_row self L T em (prefix_mask n L)
  /\ ((2 <= T)%nat ->
      gold_formula self L em tags (prefix_mask n L)
      < denominator_row self L T em (prefix_mask n L)).
Proof.
  intros HT Hs He Ht Hlen Hrange Hn.
  rewrite (gold_formula_path self L T) by assumption.
  pose proof (denominator_row_prefix self T em HT n L Hn) as Hsum.
  pose proof (gold_path_in_all_seqs L T tags HT Hlen Hrange n ltac:(lia)) as Hin.
  split.
  - apply exp_le_reflect. rewrite Hsum.
    apply (ssum_member_le (all_seqs T n) (fun t => exp (path_score self em t)));
      [exact Hin|intros; apply exp_pos].
  - intros HT2. apply exp_lt_inv. rewrite Hsum.
    destruct (all_seqs_other T n _ HT2 ltac:(lia) Hin) as (other & Hother & Hneq).
    apply (ssum_two_members_lt (all_seqs T n)
             (fun t => exp (path_score self em t)) _ other); try assumption.
    intros; apply exp_pos.
Qed.

Lemma vsum_map_nonneg (f : nat -> R) (l : list nat) :
  (forall b, In b l -> 0 <= f b) -> 0 <= vsum (map f l).
Proof. exact (ssum_nonneg l f). Qed.

Lemma vsum_map_pos (f : nat -> R) (l : list nat) :
  l <> [] -> (forall b, In b l -> 0 < f b) -> 0 < vsum (map f l).
Proof. exact (ssum_pos l f). Qed.

(** X1.  On a batch whose rows carry non-empty contiguous prefix masks and
    in-range tags, [CRF.forward] returns the sum over the rows of
    [logZ - gold score]; every summand is non-negative, so the loss is
    non-negative, and it is positive as soon as there are two tags and one
    row. *)
Theorem forward_loss_nonnegative
        (self : crf_params) (emissions : tensor3) (tags : list (list Z))
        (mask : list (list bool)) (B L T : nat) :
  well_shaped self B L T emissions ->
  (0 < T)%nat ->
  valid_tags B L T tags ->
  valid_masks B L mask ->
  exists loss,
    CRF.forward self emissions tags (Some mask) = Some loss /\
    loss = vsum (map (fun b =>
                        denominator_row self L T (nth b emissions []) (nth b mask [])
                        - gold_formula self L (nth b emissions []) (nth b tags [])
                                       (nth b mask []))
                     (seq 0 B)) /\
    0 <= loss /\
    ((2 <= T)%nat -> (0 < B)%nat -> 0 < loss).
Proof.
  intros Hws HT Htags Hmasks.
  destruct (Nat.eq_dec B 0) as [HB0|HB0].
  - destruct Hws as (Hlen & _). rewrite HB0 in Hlen.
    apply length_zero_iff_nil in Hlen. subst emissions B.
    exists 0. split; [reflexivity|]. split; [reflexivity|].
    split; [lra|]. intros _ H. lia.
  - assert (HB : (0 < B)%nat) by lia.
    assert (HL : (0 < L)%nat)
      by (apply (valid_masks_length_pos B L mask); assumption).
    pose proof Hws as (_ & _ & _ & Hs & He & Ht & _).
    assert (Hrow : forall b, (b < B)%nat ->
              gold_formula self L (nth b emissions []) (nth b tags []) (nth b mask [])
              <= denominator_row self L T (nth b emissions []) (nth b mask [])
              /\ ((2 <= T)%nat ->
                  gold_formula self L (nth b emissions []) (nth b tags [])
                               (nth b mask [])
                  < denominator_row self L T (nth b emissions []) (nth b mask []))).
    { intros b Hb. destruct (Hmasks b Hb) as (n & Hn & ->).
      apply gold_below_partition_row; try assumption.
      - apply (Htags b Hb).
      - intros i. apply (valid_tags_range B L T); assumption. }
    eexists. split; [|split; [|split]].
    + unfold CRF.forward.
      rewrite (gold_numerator_value self emissions tags mask B L T) by assumption.
      rewrite (denominator_score_value self emissions mask B L T) by assumption.
      cbn [bind]. rewrite length_map, length_seq. reflexivity.
    + f_equal. apply map_ext_in. intros b Hb. apply in_seq in Hb.
      now rewrite !nth_map_seq by lia.
    + apply vsum_map_nonneg. intros b Hb. apply in_seq in Hb.
      rewrite !nth_map_seq by lia. destruct (Hrow b ltac:(lia)) as [Hle _]. lra.
    + intros HT2 _. apply vsum_map_pos.
      * destruct B; [lia|]. simpl. discriminate.
      * intros b Hb. apply in_seq in Hb. rewrite !nth_map_seq by lia.
        destruct (Hrow b ltac:(lia)) as [_ Hlt]. specialize (Hlt HT2). lra.
Qed.

Lemma forward_loss_nonnegative_witness :
  exists loss,
    CRF.forward example_crf example_emissions example_tags
                (Some [prefix_mask 2 3]) = Some loss /\
    loss = vsum (map (fun b =>
                        denominator_row example_crf 3 2
                                        (nth b example_emissions [])
                                        (nth b [prefix_mask 2 3] [])
                        - gold_formula example_crf 3 (nth b example_emissions [])
                                       (nth b example_tags [])
                                       (nth b [prefix_mask 2 3] []))
                     (seq 0 1)) /\
    0 <= loss /\
    ((2 <= 2)%nat -> (0 < 1)%nat -> 0 < loss).
Proof.
  apply (forward_loss_nonnegative example_crf example_emissions example_tags
           [prefix_mask 2 3] 1 3 2).
  - exact example_well_shaped.
  - lia.
  - exact example_valid_tags.
  - intros b Hb. assert (b = 0%nat) as -> by lia.
    exists 2%nat. split; [lia|reflexivity].
Defined.

(** ** The decoded path against the partition function *)

(** X2.  For a row with a non-empty contiguous prefix mask, the path score
    of the sequence [CRF.viterbi_decode] returns is at most the [logZ] that
    [CRF._denominator_score] returns for that row, and strictly smaller
    with two or more tags: the decoded path has a probability
    [exp (score - logZ)] of at most 1. *)
Theorem viterbi_score_below_partition
        (self : crf_params) (emissions : tensor3) (mask : list (list bool))
        (B L T b n : nat) :
  well_shaped self B L T emissions ->
  (0 < T)%nat -> (b < B)%nat -> (1 <= n <= L)%nat ->
  nth b mask [] = prefix_mask n L ->
  exists paths logZ,
    CRF.viterbi_decode self emissions (Some mask) = Some paths /\
    CRF._denominator_score self emissions mask = Some logZ /\
    path_score self (nth b emissions []) (nth b paths []) <= nth b logZ 0 /\
    ((2 <= T)%nat ->
     path_score self (nth b emissions []) (nth b paths []) < nth b logZ 0).
Proof.
  intros Hws HT Hb Hn Hmask.
  unfold CRF.viterbi_decode, viterbi_tags.
  rewrite (denominator_score_value self emissions mask B L T)
    by (assumption || lia).
  rewrite (shape3_well_shaped self B L T) by (assumption || lia).
  rewrite batch_guard_false by lia.
  eexists. eexists. split; [reflexivity|]. split; [reflexivity|].
  rewrite !nth_map_seq by exact Hb. rewrite Hmask.
  destruct (viterbi_row_optimal self T (nth b emissions []) HT n L Hn)
    as (_ & Hin & _ & _).
  pose proof (denominator_row_prefix self T (nth b emissions []) HT n L Hn) as Hsum.
  split.
  - apply exp_le_reflect. rewrite Hsum.
    apply (ssum_member_le (all_seqs T n)
             (fun t => exp (path_score self (nth b emissions []) t)));
      [exact Hin|intros; apply exp_pos].
  - intros HT2. apply exp_lt_inv. rewrite Hsum.
    destruct (all_seqs_other T n _ HT2 ltac:(lia) Hin) as (other & Hother & Hneq).
    apply (ssum_two_members_lt (all_seqs T n)
             (fun t => exp (path_score self (nth b emissions []) t)) _ other);
      try assumption.
    intros; apply exp_pos.
Qed.

Lemma viterbi_score_below_partition_witness :
  exists paths logZ,
    CRF.viterbi_decode example_crf example_emissions (Some [prefix_mask 2 3])
    = Some paths /\
    CRF._denominator_score example_crf example_emissions [prefix_mask 2 3]
    = Some logZ /\
    path_score example_crf (nth 0 example_emissions []) (nth 0 paths [])
    <= nth 0 logZ 0 /\
    ((2 <= 2)%nat ->
     path_score example_crf (nth 0 example_emissions []) (nth 0 paths [])
     < nth 0 logZ 0).
Proof.
  apply (viterbi_score_below_partition example_crf example_emissions
           [prefix_mask 2 3] 1 3 2 0 2).
  - exact example_well_shaped.
  - lia.
  - lia.
  - lia.
  - reflexivity.
Defined.

(** ** The forward and backward passes against the partition engine *)

Lemma forward_algorithm_stack
      (self : crf_params) (emissions : tensor3) (mask : list (list bool))
      (reverse_direction : bool) (B L T : nat) :
  well_shaped self B L T emissions -> (0 < B)%nat -> (0 < L)%nat ->
  CRF._forward_algorithm self emissions mask reverse_direction
  = Some (map (fun i =>
                 map (fun b =>
                        nth i (CRF.forward_algorithm_row self L T
                                 (nth b emissions []) (nth b mask [])
                                 reverse_direction) [])
                     (seq 0 B))
              (seq 0 L)).
Proof.
  intros Hws HB HL. unfold CRF._forward_algorithm.
  rewrite (shape3_well_shaped self B L T) by assumption.
  now rewrite batch_guard_false by lia.
Qed.

Lemma last_trace_fold {A B} (f : A -> B -> A) (d : A) (steps : list B) :
  forall x, last (x :: trace f x steps) d = fold_left f steps x.
Proof.
  induction steps as [|i r IH]; intros x; [reflexivity|].
  cbn [trace fold_left].
  change (last (x :: f x i :: trace f (f x i) r) d)
    with (last (f x i :: trace f (f x i) r) d).
  apply IH.
Qed.

Lemma alpha_first_start_plus_first (self : crf_params) (T : nat) (em : tensor2) :
  alpha_first self T em = start_plus_first self T (nth 0 em []).
Proof.
  unfold alpha_first, start_plus_first. apply map_ext. intros v. lra.
Qed.

Lemma alpha_step_denominator_step
      (self : crf_params) (T : nat) (em : tensor2) (mask : list bool)
      (a : tensor1) (i : nat) :
  alpha_step self T em mask a i
  = denominator_step self T a (nth i em []) (mask_float (nth i mask false)).
Proof.
  unfold alpha_step, CRF.forward_backward_step, denominator_step.
  apply map_ext. intros v. f_equal. f_equal. apply (f_equal log_sum_exp).
  apply map_ext. intros u. lra.
Qed.

(** The last forward vector is the [alpha] of the partition engine. *)
Lemma forward_row_last (self : crf_params) (L T : nat) (em : tensor2)
      (mask : list bool) :
  (0 < L)%nat ->
  nth (L - 1) (CRF.forward_algorithm_row self L T em mask false) []
  = denominator_alpha self L T em mask.
Proof.
  intros HL. rewrite forward_row_trace.
  set (row := alpha_first self T em
              :: trace (alpha_step self T em mask) (alpha_first self T em)
                       (seq 1 (L - 1))).
  assert (Hlen : length row = L).
  { unfold row. cbn [length]. rewrite trace_length, length_seq. lia. }
  replace (L - 1)%nat with (length row - 1)%nat by lia.
  transitivity (last row []); [symmetry; exact (last_as_nth row [])|].
  unfold row.
  rewrite last_trace_fold. unfold denominator_alpha.
  rewrite alpha_first_start_plus_first.
  apply fold_left_ext_in. intros a i _. apply alpha_step_denominator_step.
Qed.

(** X3.  Whatever the mask, the normaliser that [marginal_probabilities]
    recomputes from the last slice of [_forward_algorithm] (forward
    direction) is the [logZ] of [_denominator_score]. *)
Theorem forward_algorithm_reaches_partition
        (self : crf_params) (emissions : tensor3) (mask : list (list bool))
        (B L T : nat) :
  well_shaped self B L T emissions -> (0 < B)%nat -> (0 < L)%nat ->
  exists alpha logZ,
    CRF._forward_algorithm self emissions mask false = Some alpha /\
    CRF._denominator_score self emissions mask = Some logZ /\
    length alpha = L /\
    forall b, (b < B)%nat ->
      log_sum_exp (map (fun v => at2 (nth (length alpha - 1) alpha []) b v
                                 + at1 (end_transitions self) v)
                       (seq 0 T))
      = nth b logZ 0.
Proof.
  intros Hws HB HL.
  rewrite (forward_algorithm_stack self emissions mask false B L T) by assumption.
  rewrite (denominator_score_value self emissions mask B L T) by assumption.
  eexists. eexists. split; [reflexivity|]. split; [reflexivity|].
  rewrite length_map, length_seq. split; [reflexivity|].
  intros b Hb. rewrite (nth_map_seq _ B b) by exact Hb. unfold denominator_row.
  apply (f_equal log_sum_exp). apply map_ext. intros v. cbv beta. f_equal.
  etransitivity.
  { apply (stack_at (fun i b => nth i (CRF.forward_algorithm_row self L T
                                         (nth b emissions []) (nth b mask []) false) [])
                    B L (L - 1) b v); lia. }
  cbv beta. now rewrite forward_row_last.
Qed.

Lemma forward_algorithm_reaches_partition_witness :
  exists alpha logZ,
    CRF._forward_algorithm example_crf example_emissions
                           [[true; false; true]] false = Some alpha /\
    CRF._denominator_score example_crf example_emissions [[true; false; true]]
    = Some logZ /\
    length alpha = 3%nat /\
    forall b, (b < 1)%nat ->
      log_sum_exp (map (fun v => at2 (nth (length alpha - 1) alpha []) b v
                                 + at1 (end_transitions example_crf) v)
                       (seq 0 2))
      = nth b logZ 0.
Proof.
  apply (forward_algorithm_reaches_partition example_crf example_emissions
           [[true; false; true]] 1 3 2).
  - exact example_well_shaped.
  - lia.
  - lia.
Defined.

(** The pairing of the two passes is [exp logZ] at every position. *)
Lemma row_pairing_partition (self : crf_params) (L T : nat) (em : tensor2)
      (mask : list bool) (i : nat) :
  (0 < T)%nat -> (i < L)%nat ->
  pairing T (nth i (CRF.forward_algorithm_row self L T em mask false) [])
            (nth i (CRF.forward_algorithm_row self L T em mask true) [])
  = exp (denominator_row self L T em mask).
Proof.
  intros HT Hi.
  assert (Hlast : pairing T (nth (L - 1) (CRF.forward_algorithm_row self L T em
                                            mask false) [])
                          (end_transitions self)
                  = exp (denominator_row self L T em mask)).
  { rewrite forward_row_last by lia. unfold denominator_row, pairing.
    now rewrite exp_lse_tags. }
  rewrite <- Hlast. rewrite forward_row_trace, backward_row_trace.
  pose proof (pairing_constant self T em mask HT (seq 1 (L - 1))
                (end_transitions self) (alpha_first self T em) i) as H.
  rewrite length_seq in H. apply H. lia.
Qed.

(** X4.  Whatever the mask, the first slice of the backward pass
    ([_forward_algorithm] in the reverse direction), combined with the
    start transitions and the first emissions, gives the [logZ] of
    [_denominator_score]: the backward pass carries the same partition
    function as the forward pass. *)
Theorem backward_algorithm_reaches_partition
        (self : crf_params) (emissions : tensor3) (mask : list (list bool))
        (B L T : nat) :
  well_shaped self B L T emissions ->
  (0 < T)%nat -> (0 < B)%nat -> (0 < L)%nat ->
  exists beta logZ,
    CRF._forward_algorithm self emissions mask true = Some beta /\
    CRF._denominator_score self emissions mask = Some logZ /\
    length beta = L /\
    forall b, (b < B)%nat ->
      log_sum_exp (map (fun v => at2 (nth b emissions []) 0 v
                                 + at1 (start_transitions self) v
                                 + at2 (nth 0 beta []) b v)
                       (seq 0 T))
      = nth b logZ 0.
Proof.
  intros Hws HT HB HL.
  rewrite (forward_algorithm_stack self emissions mask true B L T) by assumption.
  rewrite (denominator_score_value self emissions mask B L T) by assumption.
  eexists. eexists. split; [reflexivity|]. split; [reflexivity|].
  rewrite length_map, length_seq. split; [reflexivity|].
  intros b Hb. rewrite (nth_map_seq _ B b) by exact Hb.
  apply exp_inv. rewrite exp_lse_tags by exact HT.
  rewrite <- (row_pairing_partition self L T (nth b emissions []) (nth b mask [])
                0 HT HL).
  unfold pairing. apply tsum_ext. intros v Hv. f_equal.
  rewrite forward_row_trace. cbn [nth]. unfold alpha_first.
  rewrite at1_map_seq by exact Hv. f_equal.
  apply (stack_at (fun i b => nth i (CRF.forward_algorithm_row self L T
                                       (nth b emissions []) (nth b mask []) true) [])
                  B L 0 b v); lia.
Qed.

Lemma backward_algorithm_reaches_partition_witness :
  exists beta logZ,
    CRF._forward_algorithm example_crf example_emissions
                           [[true; false; true]] true = Some beta /\
    CRF._denominator_score example_crf example_emissions [[true; false; true]]
    = Some logZ /\
    length beta = 3%nat /\
    forall b, (b < 1)%nat ->
      log_sum_exp (map (fun v => at2 (nth b example_emissions []) 0 v
                                 + at1 (start_transitions example_crf) v
                                 + at2 (nth 0 beta []) b v)
                       (seq 0 2))
      = nth b logZ 0.
Proof.
  apply (backward_algorithm_reaches_partition example_crf example_emissions
           [[true; false; true]] 1 3 2).
  - exact example_well_shaped.
  - lia.
  - lia.
  - lia.
Defined.

(** ** Marginals are probabilities *)

Lemma marginal_row_entry_distribution
      (self : crf_params) (L T : nat) (em : tensor2) (mask : list bool) (i : nat) :
  (0 < T)%nat -> (i < L)%nat ->
  length (marginal_row_entry self L T em mask i) = T /\
  vsum (marginal_row_entry self L T em mask i) = 1 /\
  forall v, (v < T)%nat ->
            0 < at1 (marginal_row_entry self L T em mask i) v <= 1.
Proof.
  intros HT Hi.
  pose proof (row_marginals_normalised self T em mask HT L i Hi) as Hsum.
  cbv zeta in Hsum. unfold marginal_row_entry.
  split; [now rewrite length_map, length_seq|].
  split; [exact Hsum|].
  intros v Hv. rewrite at1_map_seq by exact Hv. split; [apply exp_pos|].
  rewrite <- Hsum. rewrite tsum_ssum.
  apply (ssum_member_le (seq 0 T)
           (fun v => exp (at1 (nth i (CRF.forward_algorithm_row self L T em mask
                                        false) []) v
                          + at1 (nth i (CRF.forward_algorithm_row self L T em mask
                                          true) []) v
                          - log_sum_exp
                              (map (fun v0 =>
                                      at1 (nth (L - 1)
                                             (CRF.forward_algorithm_row self L T em
                                                mask false) []) v0
                                      + at1 (end_transitions self) v0)
                                   (seq 0 T))))).
  - apply in_seq. lia.
  - intros x. apply exp_pos.
Qed.

(** X5.  Whatever the mask (contiguous or not) and at every position of
    every row, padding positions included, the entries that
    [CRF.marginal_probabilities] returns are [T] numbers in (0, 1] that sum
    to 1. *)
Theorem marginal_probabilities_distribution
        (self : crf_params) (emissions : tensor3) (mask : list (list bool))
        (B L T : nat) :
  well_shaped self B L T emissions ->
  (0 < T)%nat -> (0 < B)%nat -> (0 < L)%nat ->
  exists proba,
    CRF.marginal_probabilities self emissions (Some mask) = Some proba /\
    forall b i, (b < B)%nat -> (i < L)%nat ->
      length (nth b (nth i proba []) []) = T /\
      vsum (nth b (nth i proba []) []) = 1 /\
      forall v, (v < T)%nat -> 0 < at1 (nth b (nth i proba []) []) v <= 1.
Proof.
  intros Hws HT HB HL.
  destruct (marginal_probabilities_entries self emissions mask B L T Hws HB HL)
    as (proba & Hp & Hentries).
  exists proba. split; [exact Hp|]. intros b i Hb Hi.
  rewrite Hentries by assumption.
  now apply marginal_row_entry_distribution.
Qed.

Lemma marginal_probabilities_distribution_witness :
  exists proba,
    CRF.marginal_probabilities example_crf example_emissions
                               (Some [[false; true; false]]) = Some proba /\
    forall b i, (b < 1)%nat -> (i < 3)%nat ->
      length (nth b (nth i proba []) []) = 2%nat /\
      vsum (nth b (nth i proba []) []) = 1 /\
      forall v, (v < 2)%nat -> 0 < at1 (nth b (nth i proba []) []) v <= 1.
Proof.
  apply (marginal_probabilities_distribution example_crf example_emissions
           [[false; true; false]] 1 3 2).
  - exact example_well_shaped.
  - lia.
  - lia.
  - lia.
Defined.

(** ** Marginals are the marginals of the path distribution *)

Lemma nth_trace_split {A B} (f : A -> B -> A) (d : A) (s1 s2 : list B) (x : A) :
  nth (length s1) (x :: trace f x (s1 ++ s2)) d = fold_left f s1 x.
Proof.
  rewrite (trace_app f d), app_comm_cons.
  rewrite app_nth1 by (cbn [length]; rewrite trace_length; lia).
  rewrite <- (last_trace_fold f d).
  rewrite (last_as_nth (x :: trace f x s1) d). cbn [length].
  rewrite trace_length. f_equal. lia.
Qed.

Lemma backward_split {A B} (f : A -> B -> A) (d x : A) (s1 s2 : list B) :
  exists front,
    length front = length s1 /\
    backward f d x (s1 ++ s2) = front ++ backward f d x s2.
Proof.
  induction s1 as [|i r (front & Hlen & Heq)].
  - exists []. split; reflexivity.
  - exists (f (hd d (backward f d x (r ++ s2))) i :: front).
    split; [simpl; now rewrite Hlen|].
    cbn [app backward]. now rewrite Heq.
Qed.

Lemma nth_backward_split {A B} (f : A -> B -> A) (d x : A) (s1 s2 : list B) :
  nth (length s1) (backward f d x (s1 ++ s2)) d = hd d (backward f d x s2).
Proof.
  destruct (backward_split f d x s1 s2) as (front & Hlen & ->).
  rewrite app_nth2 by lia. rewrite Hlen, Nat.sub_diag.
  destruct (backward f d x s2); reflexivity.
Qed.

Lemma chain_app (w : nat -> nat -> nat -> R) (fin : nat -> R) (r : list nat)
      (s : list nat) : forall (u k : nat),
  chain w fin u (s ++ r) k
  = chain w (fun t => chain w fin t r (k + length s)) u s k.
Proof.
  induction s as [|t s IH]; intros u k.
  - cbn [app chain length]. now rewrite Nat.add_0_r.
  - cbn [app chain length]. rewrite IH. f_equal.
    apply chain_ext_along; [reflexivity|].
    f_equal. lia.
Qed.

Lemma chain_shift (w : nat -> nat -> nat -> R) (f : nat -> R) (c : R)
      (s : list nat) : forall (u k : nat),
  chain w (fun t => f t + c) u s k = chain w f u s k + c.
Proof.
  induction s as [|t s IH]; intros u k; cbn [chain]; [reflexivity|].
  rewrite IH. lra.
Qed.

(** The score of a path that passes through tag [v] after the tags [u :: s]
    splits into what it collects up to [v] and what it collects from [v]. *)
Lemma path_score_through (self : crf_params) (em : tensor2)
      (u v : nat) (s s' : list nat) :
  path_score self em (u :: s ++ v :: s')
  = at1 (start_transitions self) u + at1 (nth 0 em []) u
    + chain (step_weight self em)
            (fun t => step_weight self em (S (length s)) t v) u s 1
    + chain (step_weight self em) (stop_weight self) v s' (S (S (length s))).
Proof.
  rewrite path_score_cons, chain_app. cbn [chain].
  rewrite (chain_shift (step_weight self em)
             (fun t => step_weight self em (1 + length s) t v)).
  cbn [Nat.add]. lra.
Qed.

(** The forward vector of a valid position. *)
Lemma forward_row_valid (self : crf_params) (L T n : nat) (em : tensor2) (j : nat) :
  (j < n)%nat -> (n <= L)%nat ->
  nth j (CRF.forward_algorithm_row self L T em (prefix_mask n L) false) []
  = fold_left (chain_step T (step_weight self em)) (seq 1 j)
              (alpha_first self T em).
Proof.
  intros Hj Hn. rewrite forward_row_trace.
  replace (L - 1)%nat with (j + (L - 1 - j))%nat by lia.
  rewrite seq_app.
  replace j with (length (seq 1 j)) at 1 by apply length_seq.
  rewrite (nth_trace_split (alpha_step self T em (prefix_mask n L)) []).
  apply fold_left_ext_in. intros a i Hi. apply in_seq in Hi.
  rewrite alpha_step_denominator_step, nth_prefix_mask.
  replace (i <? n)%nat with true by (symmetry; apply Nat.ltb_lt; lia).
  apply denominator_step_valid.
Qed.

Lemma exp_forward_row_valid (self : crf_params) (L T n : nat) (em : tensor2)
      (j v : nat) :
  (0 < T)%nat -> (S j < n)%nat -> (n <= L)%nat -> (v < T)%nat ->
  exp (at1 (nth (S j) (CRF.forward_algorithm_row self L T em (prefix_mask n L)
                         false) []) v)
  = tsum T (fun u =>
      ssum (all_seqs T j)
           (fun s => exp (at1 (alpha_first self T em) u
                          + chain (step_weight self em)
                                  (fun t => step_weight self em (S j) t v)
                                  u s 1))).
Proof.
  intros HT Hj Hn Hv. rewrite forward_row_valid by assumption.
  rewrite seq_S, fold_left_app. cbn [fold_left Nat.add].
  rewrite exp_chain_step by assumption.
  exact (chain_forward T (step_weight self em)
           (fun t => step_weight self em (S j) t v) HT j 1
           (alpha_first self T em)).
Qed.

(** The backward vector at the head of a run of valid steps. *)
Lemma exp_backward_valid_run (self : crf_params) (T n L : nat) (em : tensor2)
      (m : nat) : forall (k v : nat),
  (0 < T)%nat -> (k + m <= n)%nat -> (v < T)%nat ->
  exp (at1 (hd [] (backward (beta_step self T em (prefix_mask n L)) []
                            (end_transitions self) (seq k m))) v)
  = ssum (all_seqs T m)
         (fun s => exp (chain (step_weight self em) (stop_weight self) v s k)).
Proof.
  induction m as [|m IH]; intros k v HT Hk Hv.
  - cbn [seq backward hd all_seqs]. unfold ssum, stop_weight. simpl. lra.
  - cbn [seq backward hd].
    rewrite exp_beta_step_valid; try assumption.
    2:{ rewrite nth_prefix_mask. apply Nat.ltb_lt. lia. }
    rewrite ssum_all_seqs_S. apply tsum_ext. intros a Ha. cbv beta.
    pose proof (IH (S k) a HT ltac:(lia) Ha) as E.
    rewrite Rplus_assoc, exp_plus.
    etransitivity; [apply (f_equal (fun x => x * _)); exact E|].
    rewrite Rmult_comm, <- ssum_scal.
    apply ssum_ext. intros s _. cbn [chain]. unfold step_weight.
    rewrite !exp_plus. ring.
Qed.

Lemma backward_row_valid (self : crf_params) (L T n : nat) (em : tensor2) (j : nat) :
  (j < n)%nat -> (n <= L)%nat ->
  length (end_transitions self) = T ->
  nth j (CRF.forward_algorithm_row self L T em (prefix_mask n L) true) []
  = hd [] (backward (beta_step self T em (prefix_mask n L)) []
                    (end_transitions self) (seq (S j) (n - 1 - j))).
Proof.
  intros Hj Hn Hend. rewrite backward_row_trace.
  replace (L - 1)%nat with ((n - 1) + (L - n))%nat by lia.
  rewrite seq_app. replace (1 + (n - 1))%nat with n by lia.
  rewrite backward_app_fixed.
  2:{ intros i Hi. apply in_seq in Hi. unfold beta_step.
      rewrite nth_prefix_mask.
      replace (i <? n)%nat with false by (symmetry; apply Nat.ltb_ge; lia).
      apply forward_step_padding, Hend. }
  rewrite app_nth1 by (rewrite backward_length, length_seq; lia).
  replace (n - 1)%nat with (j + (n - 1 - j))%nat at 1 by lia.
  rewrite seq_app.
  replace j with (length (seq 1 j)) at 1 by apply length_seq.
  rewrite (nth_backward_split (beta_step self T em (prefix_mask n L)) []).
  reflexivity.
Qed.

(** At a valid position the two passes pair, tag by tag, to the weight of
    the paths through that tag. *)
Lemma row_through_tag (self : crf_params) (L T n : nat) (em : tensor2)
      (i v : nat) :
  (0 < T)%nat -> (i < n)%nat -> (n <= L)%nat -> (v < T)%nat ->
  length (end_transitions self) = T ->
  exp (at1 (nth i (CRF.forward_algorithm_row self L T em (prefix_mask n L)
                     false) []) v
       + at1 (nth i (CRF.forward_algorithm_row self L T em (prefix_mask n L)
                       true) []) v)
  = ssum (all_seqs T i)
         (fun q => ssum (all_seqs T (n - 1 - i))
                        (fun s => exp (path_score self em (q ++ v :: s)))).
Proof.
  intros HT Hi Hn Hv Hend.
  rewrite exp_plus, backward_row_valid by assumption.
  rewrite (exp_backward_valid_run self T n L em (n - 1 - i) (S i) v)
    by (assumption || lia).
  destruct i as [|j].
  - rewrite forward_row_valid by assumption. cbn [seq fold_left all_seqs].
    unfold alpha_first. rewrite at1_map_seq by exact Hv.
    unfold ssum at 2. cbn [map vsum fold_right app]. rewrite Rplus_0_r.
    rewrite <- ssum_scal. apply ssum_ext. intros s _.
    rewrite path_score_cons, <- exp_plus. f_equal. lra.
  - rewrite exp_forward_row_valid by assumption.
    rewrite ssum_all_seqs_S, Rmult_comm, tsum_ssum, <- ssum_scal.
    apply tsum_ext. intros u Hu.
    rewrite <- ssum_scal. apply ssum_ext. intros s Hs.
    apply all_seqs_length in Hs.
    rewrite Rmult_comm, <- ssum_scal. apply ssum_ext. intros s' _.
    cbn [app]. rewrite path_score_through, Hs, <- exp_plus.
    unfold alpha_first. rewrite at1_map_seq by exact Hu. f_equal. lra.
Qed.

Lemma ssum_indicator (l : list nat) (v : nat) (g : nat -> R) :
  NoDup l -> In v l ->
  ssum l (fun t => if (t =? v)%nat then g t else 0) = g v.
Proof.
  intros Hnd. induction Hnd as [|a l Hnotin Hnd IH]; intros Hin; [easy|].
  unfold ssum in *. cbn [map vsum fold_right].
  destruct Hin as [->|Hin].
  - rewrite Nat.eqb_refl.
    replace (map (fun t => if (t =? v)%nat then g t else 0) l)
      with (map (fun _ : nat => 0) l).
    + pose proof (ssum_zero l) as Hz. unfold ssum in Hz. unfold vsum in *.
      rewrite Hz. lra.
    + apply map_ext_in. intros t Ht.
      destruct (Nat.eqb_spec t v) as [->|]; [contradiction|reflexivity].
  - destruct (Nat.eqb_spec a v) as [->|]; [contradiction|].
    unfold vsum in *. rewrite IH by exact Hin. lra.
Qed.

Lemma ssum_single {A} (a : A) (f : A -> R) : ssum [a] f = f a.
Proof. unfold ssum, vsum. simpl. lra. Qed.

(** Summing over the sequences with tag [v] at position [i] is summing
    over what comes before and what comes after that position. *)
Lemma ssum_split_at (T m v : nat) (i : nat) : forall (f : list nat -> R),
  (v < T)%nat ->
  ssum (all_seqs T (i + S m))
       (fun t => if (nth i t 0 =? v)%nat then f t else 0)
  = ssum (all_seqs T i)
         (fun q => ssum (all_seqs T m) (fun s => f (q ++ v :: s))).
Proof.
  induction i as [|i IH]; intros f Hv.
  - cbn [Nat.add]. rewrite ssum_all_seqs_S.
    change (all_seqs T 0) with [@nil nat].
    rewrite ssum_single. cbn [app]. rewrite tsum_ssum.
    rewrite <- (ssum_indicator (seq 0 T) v
                  (fun t => ssum (all_seqs T m) (fun s => f (t :: s)))).
    + apply ssum_ext. intros t _. cbn [nth].
      destruct (t =? v)%nat; [reflexivity|apply ssum_zero].
    + apply seq_NoDup.
    + apply in_seq. lia.
  - cbn [Nat.add]. rewrite !ssum_all_seqs_S. apply tsum_ext. intros t _.
    cbv beta. cbn [nth]. rewrite (IH (fun s => f (t :: s)) Hv).
    reflexivity.
Qed.

Lemma total_weight_positive (self : crf_params) (em : tensor2) (T n : nat) :
  (0 < T)%nat -> 0 < total_weight self em T n.
Proof.
  intros HT. unfold total_weight.
  assert (Hin : In (repeat 0%nat n) (all_seqs T n)).
  { rewrite <- (repeat_length 0%nat n) at 2. apply all_seqs_complete.
    apply Forall_forall. intros x Hx. apply repeat_spec in Hx. lia. }
  apply ssum_pos.
  - intros E. rewrite E in Hin. exact Hin.
  - intros t _. apply exp_pos.
Qed.

Lemma marginal_row_entry_exact (self : crf_params) (L T n : nat) (em : tensor2)
      (i v : nat) :
  (0 < T)%nat -> (i < n)%nat -> (n <= L)%nat -> (v < T)%nat ->
  length (end_transitions self) = T ->
  at1 (marginal_row_entry self L T em (prefix_mask n L) i) v
  = weight_with_tag self em T n i v / total_weight self em T n.
Proof.
  intros HT Hi Hn Hv Hend. unfold marginal_row_entry.
  rewrite at1_map_seq by exact Hv.
  rewrite forward_row_last by lia.
  change (log_sum_exp
            (map (fun v0 => at1 (denominator_alpha self L T em (prefix_mask n L)) v0
                            + at1 (end_transitions self) v0) (seq 0 T)))
    with (denominator_row self L T em (prefix_mask n L)).
  unfold Rminus. rewrite (exp_plus _ (- _)), exp_Ropp.
  rewrite row_through_tag by assumption.
  rewrite denominator_row_prefix by (assumption || lia).
  unfold weight_with_tag, total_weight, Rdiv.
  pose proof (ssum_split_at T (n - 1 - i) v i
                (fun t => exp (path_score self em t)) Hv) as E.
  replace (i + S (n - 1 - i))%nat with n in E by lia.
  rewrite E. reflexivity.
Qed.

(** X6.  For contiguous masks, the entry of [CRF.marginal_probabilities] at
    a valid position [i] of row [b] and tag [v] is the probability of tag
    [v] at position [i] under the path distribution of the row: the summed
    weight [exp (path_score t)] of the tag sequences [t] of the row's valid
    length with [t[i] = v], divided by the summed weight of all of them. *)
Theorem marginal_probabilities_exact
        (self : crf_params) (emissions : tensor3) (mask : list (list bool))
        (B L T : nat) :
  well_shaped self B L T emissions ->
  (0 < T)%nat -> (0 < B)%nat -> (0 < L)%nat ->
  exists proba,
    CRF.marginal_probabilities self emissions (Some mask) = Some proba /\
    forall b n i v,
      (b < B)%nat -> nth b mask [] = prefix_mask n L -> (n <= L)%nat ->
      (i < n)%nat -> (v < T)%nat ->
      at1 (nth b (nth i proba []) []) v
      = weight_with_tag self (nth b emissions []) T n i v
        / total_weight self (nth b emissions []) T n.
Proof.
  intros Hws HT HB HL.
  destruct (marginal_probabilities_entries self emissions mask B L T Hws HB HL)
    as (proba & Hp & Hentries).
  exists proba. split; [exact Hp|]. intros b n i v Hb Hmask Hn Hi Hv.
  rewrite Hentries by (assumption || lia). rewrite Hmask.
  apply marginal_row_entry_exact; try assumption.
  destruct Hws as (_ & _ & _ & _ & Hend & _). exact Hend.
Qed.

Lemma marginal_probabilities_exact_witness :
  exists proba,
    CRF.marginal_probabilities example_crf example_emissions
                               (Some [[true; true; false]]) = Some proba /\
    forall b n i v,
      (b < 1)%nat -> nth b [[true; true; false]] [] = prefix_mask n 3 ->
      (n <= 3)%nat -> (i < n)%nat -> (v < 2)%nat ->
      at1 (nth b (nth i proba []) []) v
      = weight_with_tag example_crf (nth b example_emissions []) 2 n i v
        / total_weight example_crf (nth b example_emissions []) 2 n.
Proof.
  apply (marginal_probabilities_exact example_crf example_emissions
           [[true; true; false]] 1 3 2).
  - exact example_well_shaped.
  - lia.
  - lia.
  - lia.
Defined.

(** ** Marginals at masked positions *)

(** Each slice of the forward pass is one step away from the slice before
    it, each slice of the backward pass one step away from the slice after
    it. *)
Lemma forward_row_step (self : crf_params) (L T : nat) (em : tensor2)
      (mask : list bool) (j : nat) :
  (S j < L)%nat ->
  nth (S j) (CRF.forward_algorithm_row self L T em mask false) []
  = alpha_step self T em mask
      (nth j (CRF.forward_algorithm_row self L T em mask false) []) (S j).
Proof.
  intros Hj. rewrite forward_row_trace.
  assert (Hsplit : forall k, (k < L)%nat ->
            nth k (alpha_first self T em
                   :: trace (alpha_step self T em mask) (alpha_first self T em)
                        (seq 1 (L - 1))) []
            = fold_left (alpha_step self T em mask) (seq 1 k)
                        (alpha_first self T em)).
  { intros k Hk.
    replace (L - 1)%nat with (k + (L - 1 - k))%nat by lia.
    rewrite seq_app.
    replace k with (length (seq 1 k)) at 1 by apply length_seq.
    apply (nth_trace_split (alpha_step self T em mask) []). }
  rewrite !Hsplit by lia.
  now rewrite seq_S, fold_left_app.
Qed.

Lemma backward_row_step (self : crf_params) (L T : nat) (em : tensor2)
      (mask : list bool) (j : nat) :
  (S j < L)%nat ->
  nth j (CRF.forward_algorithm_row self L T em mask true) []
  = beta_step self T em mask
      (nth (S j) (CRF.forward_algorithm_row self L T em mask true) []) (S j).
Proof.
  intros Hj. rewrite backward_row_trace.
  assert (Hsplit : forall k, (k < L)%nat ->
            nth k (backward (beta_step self T em mask) []
                            (end_transitions self) (seq 1 (L - 1))) []
            = hd [] (backward (beta_step self T em mask) []
                              (end_transitions self)
                              (seq (S k) (L - 1 - k)))).
  { intros k Hk.
    replace (L - 1)%nat with (k + (L - 1 - k))%nat at 1 by lia.
    rewrite seq_app.
    replace k with (length (seq 1 k)) at 1 by apply length_seq.
    apply (nth_backward_split (beta_step self T em mask) []). }
  rewrite !Hsplit by lia.
  replace (L - 1 - j)%nat with (S (L - 1 - S j)) by lia.
  reflexivity.
Qed.

Lemma marginal_row_entry_masked (self : crf_params) (L T : nat) (em : tensor2)
      (mask : list bool) (j : nat) :
  (S j < L)%nat -> nth (S j) mask false = false ->
  marginal_row_entry self L T em mask (S j)
  = marginal_row_entry self L T em mask j.
Proof.
  intros Hj Hm. unfold marginal_row_entry.
  apply map_ext_in. intros v Hv. apply in_seq in Hv.
  rewrite forward_row_step, (backward_row_step self L T em mask j) by exact Hj.
  unfold alpha_step, beta_step.
  rewrite !at1_step_padding by (assumption || lia).
  reflexivity.
Qed.

(** X7.  Whatever the mask, a position [i >= 1] whose mask bit is false
    carries in the result of [CRF.marginal_probabilities] the same
    distribution as the position before it: padding positions are not
    zeroed, they repeat the marginals of the last valid position. *)
Theorem marginal_probabilities_masked_position
        (self : crf_params) (emissions : tensor3) (mask : list (list bool))
        (B L T : nat) :
  well_shaped self B L T emissions ->
  (0 < B)%nat -> (0 < L)%nat ->
  exists proba,
    CRF.marginal_probabilities self emissions (Some mask) = Some proba /\
    forall b i, (b < B)%nat -> (S i < L)%nat ->
      nth (S i) (nth b mask []) false = false ->
      nth b (nth (S i) proba []) [] = nth b (nth i proba []) [].
Proof.
  intros Hws HB HL.
  destruct (marginal_probabilities_entries self emissions mask B L T Hws HB HL)
    as (proba & Hp & Hentries).
  exists proba. split; [exact Hp|]. intros b i Hb Hi Hm.
  rewrite !Hentries by (assumption || lia).
  now apply marginal_row_entry_masked.
Qed.

Lemma marginal_probabilities_masked_position_witness :
  exists proba,
    CRF.marginal_probabilities example_crf example_emissions
                               (Some [[true; false; false]]) = Some proba /\
    forall b i, (b < 1)%nat -> (S i < 3)%nat ->
      nth (S i) (nth b [[true; false; false]] []) false = false ->
      nth b (nth (S i) proba []) [] = nth b (nth i proba []) [].
Proof.
  apply (marginal_probabilities_masked_position example_crf example_emissions
           [[true; false; false]] 1 3 2).
  - exact example_well_shaped.
  - lia.
  - lia.
Defined.

(** ** Tags the gold scorer cannot read *)

Lemma gather_out_of_range {A} (xs : list A) (i : Z) :
  ~ (0 <= i < Z.of_nat (length xs))%Z -> gather xs i = None.
Proof.
  intros H. unfold gather.
  destruct ((0 <=? i) && (i <? Z.of_nat (length xs)))%Z eqn:E; [|reflexivity].
  apply andb_true_iff in E. destruct E as [E1 E2].
  apply Z.leb_le in E1. apply Z.ltb_lt in E2. lia.
Qed.

Lemma numerator_loop_failed (self : crf_params) (em : tensor2) (tags : list Z)
      (mask : list bool) (steps : list nat) :
  fold_left (CRF.numerator_step self em tags mask) steps None = None.
Proof. induction steps as [|i r IH]; [reflexivity|exact IH]. Qed.

Lemma numerator_step_bad_tag (self : crf_params) (em : tensor2) (tags : list Z)
      (mask : list bool) (acc : option R) (i : nat) :
  ~ (0 <= nth i tags 0 < Z.of_nat (length (nth i em [])))%Z ->
  CRF.numerator_step self em tags mask acc i = None.
Proof.
  intros H. unfold CRF.numerator_step.
  destruct acc as [score|]; [|reflexivity]. cbn [bind].
  now rewrite gather_out_of_range.
Qed.

Lemma numerator_row_bad_tag (self : crf_params) (L : nat) (em : tensor2)
      (tags : list Z) (mask : list bool) (i : nat) :
  (S i < L)%nat ->
  ~ (0 <= nth i tags 0 < Z.of_nat (length (nth i em [])))%Z ->
  CRF.numerator_row self L em tags mask = None.
Proof.
  intros Hi Hbad. unfold CRF.numerator_row.
  destruct (index_select (start_transitions self) (nth 0 tags 0%Z))
    as [score0|]; [|reflexivity].
  cbn [bind].
  replace (L - 1)%nat with (i + S (L - 2 - i))%nat by lia.
  rewrite seq_app, fold_left_app. cbn [seq fold_left Nat.add].
  rewrite numerator_step_bad_tag by exact Hbad.
  now rewrite numerator_loop_failed.
Qed.

(** X8.  [CRF._numerator_score] gathers the emission of [tags[i]] at every
    position [i <= L - 2] before it multiplies by the mask.  A tag outside
    [0, T) at such a position therefore makes the gold scorer, and with it
    [CRF.forward], raise, whatever the mask says about the position:
    padding positions must hold valid tag indices, a filler such as [-1]
    is rejected. *)
Theorem gold_scorer_rejects_tag_outside_range
        (self : crf_params) (emissions : tensor3) (tags : list (list Z))
        (B L T b i : nat) :
  well_shaped self B L T emissions ->
  (b < B)%nat -> (S i < L)%nat ->
  ~ (0 <= nth i (nth b tags []) 0 < Z.of_nat T)%Z ->
  (forall mask, CRF._numerator_score self emissions tags mask = None) /\
  (forall mask, CRF.forward self emissions tags mask = None).
Proof.
  intros Hws Hb Hi Hbad.
  assert (Hnum : forall mask,
             CRF._numerator_score self emissions tags mask = None).
  { intros mask. unfold CRF._numerator_score.
    rewrite (shape3_well_shaped self B L T) by (assumption || lia).
    rewrite batch_guard_false by lia.
    apply sequence_opt_none. apply in_map_iff. exists b. split.
    - apply (numerator_row_bad_tag self L _ _ _ i Hi).
      rewrite (well_shaped_row self B L T emissions b i Hws Hb) by lia.
      exact Hbad.
    - apply in_seq. lia. }
  split; [exact Hnum|].
  intros mask. unfold CRF.forward. now rewrite Hnum.
Qed.

Lemma gold_scorer_rejects_tag_outside_range_witness :
  (forall mask,
      CRF._numerator_score example_crf example_emissions [[0; -1; 0]]%Z mask
      = None) /\
  (forall mask,
      CRF.forward example_crf example_emissions [[0; -1; 0]]%Z mask = None).
Proof.
  apply (gold_scorer_rejects_tag_outside_range example_crf example_emissions
           [[0; -1; 0]]%Z 1 3 2 0 1).
  - exact example_well_shaped.
  - lia.
  - lia.
  - simpl. lia.
Defined.

(** ** The first column of the mask *)

Lemma denominator_row_mask_ext (self : crf_params) (L T : nat) (em : tensor2)
      (m m' : list bool) :
  (forall i, (1 <= i)%nat -> nth i m false = nth i m' false) ->
  denominator_row self L T em m = denominator_row self L T em m'.
Proof.
  intros H. unfold denominator_row, denominator_alpha.
  rewrite (fold_left_ext_in
             (fun alpha i => denominator_step self T alpha (nth i em [])
                               (mask_float (nth i m false)))
             (fun alpha i => denominator_step self T alpha (nth i em [])
                               (mask_float (nth i m' false)))).
  - reflexivity.
  - intros a i Hi. apply in_seq in Hi. now rewrite H by lia.
Qed.

Lemma forward_algorithm_row_mask_ext (self : crf_params) (L T : nat)
      (em : tensor2) (m m' : list bool) (reverse_direction : bool) :
  (forall i, (1 <= i)%nat -> nth i m false = nth i m' false) ->
  CRF.forward_algorithm_row self L T em m reverse_direction
  = CRF.forward_algorithm_row self L T em m' reverse_direction.
Proof.
  intros H. unfold CRF.forward_algorithm_row.
  rewrite (fold_left_ext_in
             (fun log_proba i =>
                log_proba ++
                  [CRF.forward_backward_step self T reverse_direction
                     (last log_proba []) (nth i em [])
                     (mask_float (nth i m false))])
             (fun log_proba i =>
                log_proba ++
                  [CRF.forward_backward_step self T reverse_direction
                     (last log_proba []) (nth i em [])
                     (mask_float (nth i m' false))])).
  - reflexivity.
  - intros a i Hi.
    assert (1 <= i)%nat.
    { destruct reverse_direction; [apply in_rev in Hi|];
        apply in_seq in Hi; lia. }
    now rewrite H.
Qed.

(** X9.  The partition engine and the forward and backward passes never
    read the mask bit of position 0: two masks that agree from position 1
    on give the same [_denominator_score] (in both classes), the same
    [_forward_algorithm] tensors in both directions and the same
    [marginal_probabilities].  The first position of every row is always
    treated as valid. *)
Theorem first_mask_column_never_read
        (self : crf_params) (emissions : tensor3)
        (mask mask' : list (list bool)) :
  (forall b i, (1 <= i)%nat ->
               nth i (nth b mask []) false = nth i (nth b mask' []) false) ->
  CRF._denominator_score self emissions mask
  = CRF._denominator_score self emissions mask' /\
  PartialCRF._denominator_score self emissions mask
  = PartialCRF._denominator_score self emissions mask' /\
  (forall reverse_direction,
      CRF._forward_algorithm self emissions mask reverse_direction
      = CRF._forward_algorithm self emissions mask' reverse_direction) /\
  CRF.marginal_probabilities self emissions (Some mask)
  = CRF.marginal_probabilities self emissions (Some mask').
Proof.
  intros H.
  assert (Hden : denominator_score self emissions mask
                 = denominator_score self emissions mask').
  { unfold denominator_score. destruct (shape3 emissions) as [[B L] T].
    destruct ((0 <? B) && (L =? 0))%nat; [reflexivity|].
    f_equal. apply map_ext. intros b.
    apply denominator_row_mask_ext, H. }
  assert (Hfwd : forall reverse_direction,
             CRF._forward_algorithm self emissions mask reverse_direction
             = CRF._forward_algorithm self emissions mask' reverse_direction).
  { intros r. unfold CRF._forward_algorithm.
    destruct (shape3 emissions) as [[B L] T].
    destruct ((0 <? B) && (L =? 0))%nat; [reflexivity|].
    f_equal. apply map_ext. intros i. apply map_ext. intros b.
    f_equal. apply forward_algorithm_row_mask_ext, H. }
  split; [exact Hden|]. split; [exact Hden|]. split; [exact Hfwd|].
  unfold CRF.marginal_probabilities.
  destruct (shape3 emissions) as [[B L] T].
  now rewrite !Hfwd.
Qed.

Lemma first_mask_column_never_read_witness :
  CRF._denominator_score example_crf example_emissions [[true; true; false]]
  = CRF._denominator_score example_crf example_emissions [[false; true; false]]
  /\
  PartialCRF._denominator_score example_crf example_emissions
                                [[true; true; false]]
  = PartialCRF._denominator_score example_crf example_emissions
                                  [[false; true; false]] /\
  (forall reverse_direction,
      CRF._forward_algorithm example_crf example_emissions
                             [[true; true; false]] reverse_direction
      = CRF._forward_algorithm example_crf example_emissions
                               [[false; true; false]] reverse_direction) /\
  CRF.marginal_probabilities example_crf example_emissions
                             (Some [[true; true; false]])
  = CRF.marginal_probabilities example_crf example_emissions
                               (Some [[false; true; false]]).
Proof.
  apply (first_mask_column_never_read example_crf example_emissions
           [[true; true; false]] [[false; true; false]]).
  intros b i Hi.
  destruct b as [|[|b]]; destruct i as [|[|[|i]]]; try lia; reflexivity.
Defined.

(** ** The partial gold scorer without constraints *)

Lemma index_wrap_in {A} (xs : list A) (i : Z) (x : A) :
  index_wrap xs i = Some x -> In x xs.
Proof.
  unfold index_wrap.
  destruct ((0 <=? i) && (i <? Z.of_nat (length xs)))%Z;
    [apply nth_error_In|].
  destruct ((- Z.of_nat (length xs) <=? i) && (i <? 0))%Z;
    [apply nth_error_In|discriminate].
Qed.

Lemma map_nth_seq_id {A} (l : list A) (d : A) :
  map (fun i => nth i l d) (seq 0 (length l)) = l.
Proof.
  apply (nth_ext _ _ d d).
  - now rewrite length_map, length_seq.
  - intros n Hn. rewrite length_map, length_seq in Hn.
    now rewrite nth_map_seq.
Qed.

Lemma possible_float_all (T v : nat) :
  (v < T)%nat -> PartialCRF.possible_float (repeat true T) v = 1.
Proof.
  intros Hv. unfold PartialCRF.possible_float.
  rewrite (nth_indep _ false true) by (rewrite repeat_length; exact Hv).
  now rewrite nth_repeat.
Qed.

Section Unconstrained.

Variable self : crf_params.
Variable T : nat.
Hypothesis transitions_nonzero :
  forall u v, (u < T)%nat -> (v < T)%nat -> at2 (transitions self) u v <> 0.
Hypothesis end_nonzero :
  forall v, (v < T)%nat -> at1 (end_transitions self) v <> 0.

Lemma restricted_first_all (e0 : tensor1) :
  PartialCRF.restricted_first self T e0 (repeat true T)
  = start_plus_first self T e0.
Proof.
  unfold PartialCRF.restricted_first, start_plus_first.
  apply map_ext_in. intros v Hv. apply in_seq in Hv.
  rewrite possible_float_all by lia.
  destruct (Req_dec_T 1 0) as [H|_]; [lra|reflexivity].
Qed.

Lemma restricted_emission_all (e : tensor1) (v : nat) :
  (v < T)%nat ->
  PartialCRF.restricted_emission e (repeat true T) v = at1 e v.
Proof.
  intros Hv. unfold PartialCRF.restricted_emission.
  rewrite possible_float_all by exact Hv.
  destruct (Req_dec_T 1 0) as [H|_]; [lra|reflexivity].
Qed.

Lemma restricted_transition_all (u v : nat) :
  (u < T)%nat -> (v < T)%nat ->
  PartialCRF.restricted_transition self (repeat true T) (repeat true T) u v
  = at2 (transitions self) u v.
Proof.
  intros Hu Hv. unfold PartialCRF.restricted_transition.
  rewrite !possible_float_all by assumption. rewrite !Rmult_1_r.
  destruct (Req_dec_T _ 0) as [H|_]; [|reflexivity].
  now apply transitions_nonzero in H.
Qed.

Lemma restricted_end_all (v : nat) :
  (v < T)%nat ->
  PartialCRF.restricted_end self (repeat true T) v
  = at1 (end_transitions self) v.
Proof.
  intros Hv. unfold PartialCRF.restricted_end.
  rewrite possible_float_all by exact Hv. rewrite Rmult_1_r.
  destruct (Req_dec_T _ 0) as [H|_]; [|reflexivity].
  now apply end_nonzero in H.
Qed.

Lemma numerator_step_all (alpha e : tensor1) (m : R) :
  PartialCRF.numerator_step self T alpha e (repeat true T) (repeat true T) m
  = denominator_step self T alpha e m.
Proof.
  unfold PartialCRF.numerator_step, denominator_step.
  apply map_ext_in. intros v Hv. apply in_seq in Hv.
  f_equal. f_equal. f_equal.
  apply map_ext_in. intros u Hu. apply in_seq in Hu.
  rewrite restricted_emission_all, restricted_transition_all by lia.
  reflexivity.
Qed.

Lemma numerator_alpha_all (L : nat) (em : tensor2) (mask : list bool) :
  (0 < L)%nat ->
  PartialCRF.numerator_alpha self L T em mask (repeat (repeat true T) L)
  = denominator_alpha self L T em mask.
Proof.
  intros HL. unfold PartialCRF.numerator_alpha, denominator_alpha.
  assert (Hnth : forall i, (i < L)%nat ->
            nth i (repeat (repeat true T) L) [] = repeat true T).
  { intros i Hi.
    rewrite (nth_indep _ [] (repeat true T)) by (rewrite repeat_length; exact Hi).
    apply nth_repeat. }
  rewrite Hnth, restricted_first_all by exact HL.
  apply fold_left_ext_in. intros a i Hi. apply in_seq in Hi.
  rewrite !Hnth by lia. apply numerator_step_all.
Qed.

Lemma overwritten_row_all (L : nat) (em : tensor2) :
  length em = L -> Forall (fun e => length e = T) em ->
  PartialCRF.overwritten_row L T em (repeat (repeat true T) L) = em.
Proof.
  intros Hlen Hrows. unfold PartialCRF.overwritten_row.
  transitivity (map (fun i => nth i em []) (seq 0 L));
    [|rewrite <- Hlen; apply map_nth_seq_id].
  apply map_ext_in. intros i Hi. apply in_seq in Hi.
  destruct (i =? 0)%nat; [reflexivity|].
  rewrite (nth_indep _ [] (repeat true T)) by (rewrite repeat_length; lia).
  rewrite nth_repeat.
  assert (Hi_len : length (nth i em []) = T).
  { rewrite Forall_forall in Hrows. apply Hrows, nth_In. lia. }
  transitivity (map (at1 (nth i em [])) (seq 0 T));
    [|rewrite <- Hi_len; apply map_at1_seq].
  apply map_ext_in. intros v Hv. apply in_seq in Hv.
  apply restricted_emission_all. lia.
Qed.

End Unconstrained.

Lemma nth_all_tags_possible (B L T b : nat) :
  (b < B)%nat ->
  nth b (all_tags_possible B L T) [] = repeat (repeat true T) L.
Proof.
  intros Hb. unfold all_tags_possible.
  rewrite (nth_indep _ [] (repeat (repeat true T) L))
    by (rewrite repeat_length; exact Hb).
  apply nth_repeat.
Qed.

Lemma in_concat_all_tags_possible (B L T : nat) (p : list bool) :
  In p (concat (all_tags_possible B L T)) -> p = repeat true T.
Proof.
  intros H. apply in_concat in H. destruct H as (row & Hrow & Hp).
  apply repeat_spec in Hrow. subst row. now apply repeat_spec in Hp.
Qed.

(** X10.  When [possible_tags] allows every tag at every position and no
    transition or end parameter is exactly zero, the restriction of
    [PartialCRF._numerator_score] is vacuous: whatever the mask (rows of
    [L] bits), it returns the per-row [logZ] of
    [PartialCRF._denominator_score], and the in-place assignments leave the
    caller's emissions as they were, also for a batch of one row. *)
Theorem unconstrained_numerator_is_partition
        (self : crf_params) (emissions : tensor3) (tags : list (list Z))
        (mask : list (list bool)) (B L T : nat) :
  well_shaped self B L T emissions ->
  (0 < B)%nat -> (0 < L)%nat ->
  (forall b, (b < B)%nat -> length (nth b mask []) = L) ->
  (forall u v, (u < T)%nat -> (v < T)%nat -> at2 (transitions self) u v <> 0) ->
  (forall v, (v < T)%nat -> at1 (end_transitions self) v <> 0) ->
  result (PartialCRF._numerator_score self emissions tags mask
            (all_tags_possible B L T))
  = PartialCRF._denominator_score self emissions mask /\
  caller_emissions (PartialCRF._numerator_score self emissions tags mask
                      (all_tags_possible B L T))
  = emissions.
Proof.
  intros Hws HB HL Hml Htr Hend.
  rewrite (partial_numerator_unfold self emissions tags mask
             (all_tags_possible B L T) B L T) by assumption.
  cbn [result caller_emissions]. split.
  - change (PartialCRF._denominator_score self emissions mask)
      with (CRF._denominator_score self emissions mask).
    rewrite (denominator_score_value self emissions mask B L T) by assumption.
    apply sequence_opt_map. intros b Hb. apply in_seq in Hb.
    unfold PartialCRF.numerator_row, PartialCRF.last_possible_tags.
    destruct (index_wrap_some (concat (all_tags_possible B L T))
                (mask_sum (nth b mask []) - 1 + Z.of_nat b * Z.of_nat L)%Z)
      as (lp & Hlp).
    { rewrite (concat_uniform_length (all_tags_possible B L T) L).
      - unfold all_tags_possible. rewrite repeat_length.
        pose proof (mask_sum_bounds (nth b mask [])) as Hsum.
        rewrite Hml in Hsum by lia. nia.
      - apply Forall_forall. intros r Hr. apply repeat_spec in Hr. subst r.
        apply repeat_length. }
    rewrite Hlp. cbn [bind].
    apply index_wrap_in, in_concat_all_tags_possible in Hlp. subst lp.
    rewrite nth_all_tags_possible by lia.
    rewrite (numerator_alpha_all self T Htr) by exact HL.
    unfold denominator_row. f_equal. apply (f_equal log_sum_exp).
    apply map_ext_in. intros v Hv. apply in_seq in Hv.
    rewrite (restricted_end_all self T Hend) by lia. reflexivity.
  - destruct (PartialCRF.transposed_is_view B); [|reflexivity].
    destruct Hws as (Hlen & Hrows & _).
    transitivity (map (fun b => nth b emissions []) (seq 0 B));
      [|rewrite <- Hlen; apply map_nth_seq_id].
    apply map_ext_in. intros b Hb. apply in_seq in Hb.
    rewrite nth_all_tags_possible by lia.
    rewrite Forall_forall in Hrows.
    destruct (Hrows (nth b emissions [])) as (HrL & HrT);
      [apply nth_In; lia|].
    now apply overwritten_row_all.
Qed.

Lemma unconstrained_numerator_is_partition_witness :
  result (PartialCRF._numerator_score example_crf example_emissions
            example_tags [[true; true; false]] (all_tags_possible 1 3 2))
  = PartialCRF._denominator_score example_crf example_emissions
                                  [[true; true; false]] /\
  caller_emissions (PartialCRF._numerator_score example_crf example_emissions
                      example_tags [[true; true; false]]
                      (all_tags_possible 1 3 2))
  = example_emissions.
Proof.
  apply (unconstrained_numerator_is_partition example_crf example_emissions
           example_tags [[true; true; false]] 1 3 2).
  - exact example_well_shaped.
  - lia.
  - lia.
  - intros b Hb. destruct b as [|b]; [reflexivity|lia].
  - intros u v Hu Hv.
    destruct u as [|[|u]]; destruct v as [|[|v]]; try lia;
      unfold at2; simpl; lra.
  - intros v Hv. destruct v as [|[|v]]; try lia; unfold at1; simpl; lra.
Defined.

(** ** The partial gold scorer against the partition function *)

Lemma chain_le (T : nat) (w w' : nat -> nat -> nat -> R) (fin fin' : nat -> R)
      (s : list nat) : forall (u k : nat),
  (forall j a b, (j < length s)%nat -> (a < T)%nat -> (b < T)%nat ->
                 w (k + j)%nat a b <= w' (k + j)%nat a b) ->
  (forall a, (a < T)%nat -> fin a <= fin' a) ->
  (u < T)%nat -> Forall (fun t => (t < T)%nat) s ->
  chain w fin u s k <= chain w' fin' u s k.
Proof.
  induction s as [|t s IH]; intros u k Hw Hfin Hu Hs; cbn [chain].
  - now apply Hfin.
  - inversion Hs as [|? ? Ht Hs']; subst.
    pose proof (Hw 0%nat u t ltac:(cbn [length]; lia) Hu Ht) as H0.
    rewrite Nat.add_0_r in H0.
    assert (chain w fin t s (S k) <= chain w' fin' t s (S k)).
    { apply IH; try assumption. intros j a b Hj Ha Hb.
      replace (S k + j)%nat with (k + S j)%nat by lia.
      apply Hw; try assumption. cbn [length]. lia. }
    lra.
Qed.

(** A tag sequence scores no higher under the restriction on [em] than it
    does unrestricted on [em'], as soon as the first vector, each step and
    the stop do. *)
Lemma restricted_path_score_le_general (self : crf_params) (T : nat)
      (em em' : tensor2) (possible : list (list bool)) (lp : list bool)
      (t : list nat) :
  (forall u, (u < T)%nat ->
      at1 (PartialCRF.restricted_first self T (nth 0 em []) (nth 0 possible [])) u
      <= at1 (start_transitions self) u + at1 (nth 0 em' []) u) ->
  (forall k a b, (1 <= k < length t)%nat -> (a < T)%nat -> (b < T)%nat ->
      restricted_weight self em possible k a b <= step_weight self em' k a b) ->
  (forall v, (v < T)%nat ->
      PartialCRF.restricted_end self lp v <= at1 (end_transitions self) v) ->
  t <> [] -> Forall (fun x => (x < T)%nat) t ->
  restricted_path_score self T em possible lp t <= path_score self em' t.
Proof.
  intros Hfirst Hstep Hend Hne Hrange.
  destruct t as [|u s]; [congruence|].
  inversion Hrange as [|? ? Hu Hs]; subst.
  rewrite path_score_cons. cbn [restricted_path_score].
  pose proof (Hfirst u Hu).
  assert (chain (restricted_weight self em possible)
                (PartialCRF.restricted_end self lp) u s 1
          <= chain (step_weight self em') (stop_weight self) u s 1).
  { apply (chain_le T); try assumption.
    intros j a b Hj Ha Hb. apply Hstep; try assumption.
    cbn [length]. lia. }
  lra.
Qed.

(** With no score below the sentinel, no tag sequence scores higher under
    the restriction than without it. *)
Lemma restricted_path_score_le (self : crf_params) (T : nat) (em : tensor2)
      (possible : list (list bool)) (lp : list bool) (t : list nat) :
  (forall u, (u < T)%nat ->
      IMPOSSIBLE_SCORE <= at1 (start_transitions self) u + at1 (nth 0 em []) u) ->
  (forall i v, (i < length t)%nat -> (v < T)%nat ->
      IMPOSSIBLE_SCORE <= at1 (nth i em []) v) ->
  (forall u v, (u < T)%nat -> (v < T)%nat ->
      IMPOSSIBLE_SCORE <= at2 (transitions self) u v) ->
  (forall v, (v < T)%nat -> IMPOSSIBLE_SCORE <= at1 (end_transitions self) v) ->
  t <> [] -> Forall (fun x => (x < T)%nat) t ->
  restricted_path_score self T em possible lp t <= path_score self em t.
Proof.
  intros Hfirst Hem Htr Hend Hne Hrange.
  apply restricted_path_score_le_general; try assumption.
  - intros u Hu. now apply restricted_first_le, Hfirst.
  - intros k a b Hk Ha Hb. unfold restricted_weight, step_weight.
    pose proof (restricted_emission_le (nth k em []) (nth k possible []) b
                  (Hem k b ltac:(lia) Hb)).
    pose proof (restricted_transition_le self (nth (k - 1) possible [])
                  (nth k possible []) a b (Htr a b Ha Hb)).
    lra.
  - intros v Hv. now apply restricted_end_le, Hend.
Qed.

(** The same against the emissions the loop has overwritten in place. *)
Lemma restricted_path_score_le_overwritten (self : crf_params) (L T : nat)
      (em : tensor2) (possible : list (list bool)) (lp : list bool)
      (t : list nat) :
  (forall u, (u < T)%nat ->
      IMPOSSIBLE_SCORE <= at1 (start_transitions self) u + at1 (nth 0 em []) u) ->
  (forall u v, (u < T)%nat -> (v < T)%nat ->
      IMPOSSIBLE_SCORE <= at2 (transitions self) u v) ->
  (forall v, (v < T)%nat -> IMPOSSIBLE_SCORE <= at1 (end_transitions self) v) ->
  (length t <= L)%nat ->
  t <> [] -> Forall (fun x => (x < T)%nat) t ->
  restricted_path_score self T em possible lp t
  <= path_score self (PartialCRF.overwritten_row L T em possible) t.
Proof.
  intros Hfirst Htr Hend Hlen Hne Hrange.
  assert (HL : (0 < L)%nat).
  { destruct t; [congruence|]. cbn [length] in Hlen. lia. }
  apply restricted_path_score_le_general; try assumption.
  - intros u Hu. unfold PartialCRF.overwritten_row.
    rewrite nth_map_seq by exact HL. cbn [Nat.eqb].
    now apply restricted_first_le, Hfirst.
  - intros k a b Hk Ha Hb. unfold restricted_weight, step_weight.
    unfold PartialCRF.overwritten_row. rewrite nth_map_seq by lia.
    replace (k =? 0)%nat with false by (symmetry; apply Nat.eqb_neq; lia).
    rewrite at1_map_seq by exact Hb.
    pose proof (restricted_transition_le self (nth (k - 1) possible [])
                  (nth k possible []) a b (Htr a b Ha Hb)).
    lra.
  - intros v Hv. now apply restricted_end_le, Hend.
Qed.

(** Row by row: what the partial gold scorer returns on [em] against the
    partition function of [em']. *)
Lemma partial_row_below_partition (self : crf_params) (T : nat)
      (em em' : tensor2) (possible : list (list bool)) (lp : list bool)
      (n L : nat) :
  (0 < T)%nat -> (1 <= n <= L)%nat ->
  (forall t, In t (all_seqs T n) ->
             restricted_path_score self T em possible lp t
             <= path_score self em' t) ->
  log_sum_exp
    (map (fun v => at1 (PartialCRF.numerator_alpha self L T em (prefix_mask n L)
                          possible) v
                   + PartialCRF.restricted_end self lp v)
         (seq 0 T))
  <= denominator_row self L T em' (prefix_mask n L).
Proof.
  intros HT Hn Hle. apply exp_le_reflect.
  rewrite (partial_row_sum self T em possible HT n L lp Hn).
  rewrite (denominator_row_prefix self T em' HT n L Hn).
  apply ssum_le. intros t Ht. apply exp_le_mono. now apply Hle.
Qed.

Lemma all_seqs_nonempty (T n : nat) (t : list nat) :
  (1 <= n)%nat -> In t (all_seqs T n) -> t <> [].
Proof.
  intros Hn Ht E. apply all_seqs_length in Ht. subst t.
  cbn [length] in Ht. lia.
Qed.

Lemma partial_row_value_below_partition
      (self : crf_params) (emissions : tensor3) (mask : list (list bool))
      (possible_tags : list (list (list bool))) (B L T b : nat) :
  well_shaped self B L T emissions ->
  (0 < T)%nat -> (b < B)%nat ->
  valid_masks B L mask ->
  (forall u, (u < T)%nat ->
      IMPOSSIBLE_SCORE
      <= at1 (start_transitions self) u + at1 (nth 0 (nth b emissions []) []) u) ->
  (forall i v, (i < L)%nat -> (v < T)%nat ->
      IMPOSSIBLE_SCORE <= at1 (nth i (nth b emissions []) []) v) ->
  (forall u v, (u < T)%nat -> (v < T)%nat ->
      IMPOSSIBLE_SCORE <= at2 (transitions self) u v) ->
  (forall v, (v < T)%nat -> IMPOSSIBLE_SCORE <= at1 (end_transitions self) v) ->
  partial_row_value self L T emissions mask possible_tags b
  <= denominator_row self L T (nth b emissions []) (nth b mask []).
Proof.
  intros Hws HT Hb Hmasks Hfirst Hem Htr Hend.
  destruct (Hmasks b Hb) as (n & Hn & Hmask).
  unfold partial_row_value. rewrite Hmask.
  apply partial_row_below_partition; try assumption.
  intros t Ht. pose proof (all_seqs_length T n t Ht) as Hlen.
  apply restricted_path_score_le; try assumption.
  - intros i v Hi Hv. apply Hem; [lia|exact Hv].
  - now apply (all_seqs_nonempty T n).
  - now apply all_seqs_range with (n := n).
Qed.

(** X11.  For contiguous masks and any candidate sets of the right shape:
    when no start-plus-first-emission score, emission, transition or end
    parameter lies below the sentinel [IMPOSSIBLE_SCORE], the score that
    [PartialCRF._numerator_score] returns for a row never exceeds the
    row's [logZ] from [PartialCRF._denominator_score] on the same
    emissions. *)
Theorem partial_numerator_below_partition
        (self : crf_params) (emissions : tensor3) (tags : list (list Z))
        (mask : list (list bool)) (possible_tags : list (list (list bool)))
        (B L T : nat) :
  well_shaped self B L T emissions ->
  (0 < T)%nat -> (0 < B)%nat ->
  valid_masks B L mask ->
  length possible_tags = B ->
  Forall (fun r => length r = L) possible_tags ->
  (forall b u, (b < B)%nat -> (u < T)%nat ->
      IMPOSSIBLE_SCORE
      <= at1 (start_transitions self) u + at1 (nth 0 (nth b emissions []) []) u) ->
  (forall b i v, (b < B)%nat -> (i < L)%nat -> (v < T)%nat ->
      IMPOSSIBLE_SCORE <= at1 (nth i (nth b emissions []) []) v) ->
  (forall u v, (u < T)%nat -> (v < T)%nat ->
      IMPOSSIBLE_SCORE <= at2 (transitions self) u v) ->
  (forall v, (v < T)%nat -> IMPOSSIBLE_SCORE <= at1 (end_transitions self) v) ->
  exists partial logZ,
    result (PartialCRF._numerator_score self emissions tags mask possible_tags)
    = Some partial /\
    PartialCRF._denominator_score self emissions mask = Some logZ /\
    forall b, (b < B)%nat -> nth b partial 0 <= nth b logZ 0.
Proof.
  intros Hws HT HB Hmasks Hplen Hprows Hfirst Hem Htr Hend.
  assert (HL : (0 < L)%nat)
    by (apply (valid_masks_length_pos B L mask); assumption).
  eexists. eexists. split; [|split].
  - apply (partial_numerator_value self emissions tags mask possible_tags B L T);
      assumption.
  - apply (denominator_score_value self emissions mask B L T); assumption.
  - intros b Hb. rewrite !nth_map_seq by exact Hb.
    apply (partial_row_value_below_partition self emissions mask possible_tags
             B L T b); try assumption.
    + intros u Hu. now apply Hfirst.
    + intros i v Hi Hv. now apply Hem.
Qed.

Lemma partial_numerator_below_partition_witness :
  exists partial logZ,
    result (PartialCRF._numerator_score example_crf example_emissions
              example_tags [prefix_mask 3 3]
              [[[true; false]; [true; true]; [false; true]]])
    = Some partial /\
    PartialCRF._denominator_score example_crf example_emissions
                                  [prefix_mask 3 3] = Some logZ /\
    forall b, (b < 1)%nat -> nth b partial 0 <= nth b logZ 0.
Proof.
  apply (partial_numerator_below_partition example_crf example_emissions
           example_tags [prefix_mask 3 3]
           [[[true; false]; [true; true]; [false; true]]] 1 3 2).
  - exact example_well_shaped.
  - lia.
  - lia.
  - exact example_valid_masks.
  - reflexivity.
  - repeat constructor.
  - intros b u Hb Hu.
    destruct b as [|b]; [|lia].
    destruct u as [|[|u]]; try lia;
      unfold at1, IMPOSSIBLE_SCORE; simpl; lra.
  - intros b i v Hb Hi Hv.
    destruct b as [|b]; [|lia].
    destruct i as [|[|[|i]]]; try lia;
      destruct v as [|[|v]]; try lia;
      unfold at1, IMPOSSIBLE_SCORE; simpl; lra.
  - intros u v Hu Hv.
    destruct u as [|[|u]]; destruct v as [|[|v]]; try lia;
      unfold at2, IMPOSSIBLE_SCORE; simpl; lra.
  - intros v Hv.
    destruct v as [|[|v]]; try lia;
      unfold at1, IMPOSSIBLE_SCORE; simpl; lra.
Defined.

(** ** The decoders on arbitrary masks *)

Lemma viterbi_history_range (self : crf_params) (T : nat) (em : tensor2)
      (mask : list bool) (steps : list nat) :
  (0 < T)%nat ->
  forall st,
    Forall (Forall (fun t => (t < T)%nat)) (snd st) ->
    Forall (Forall (fun t => (t < T)%nat))
           (snd (fold_left (viterbi_step self T em mask) steps st)).
Proof.
  intros HT. induction steps as [|i r IH]; intros [score history] H;
    cbn [fold_left]; [exact H|].
  apply IH. cbn [viterbi_step snd]. apply Forall_app. split; [exact H|].
  constructor; [|constructor].
  apply Forall_forall. intros x Hx.
  apply in_map_iff in Hx. destruct Hx as (c & <- & Hc).
  unfold viterbi_candidates in Hc.
  apply in_map_iff in Hc. destruct Hc as (v & <- & _).
  match goal with
  | |- (snd (max_dim ?xs) < T)%nat =>
      destruct (max_dim_spec xs) as (Hlt & _)
  end.
  - intros E. apply (f_equal (@length R)) in E.
    rewrite length_map, length_seq in E. cbn [length] in E. lia.
  - now rewrite length_map, length_seq in Hlt.
Qed.

Lemma viterbi_scores_history_range (self : crf_params) (L T : nat)
      (em : tensor2) (mask : list bool) :
  (0 < T)%nat ->
  Forall (Forall (fun t => (t < T)%nat)) (snd (viterbi_scores self L T em mask)).
Proof.
  intros HT. unfold viterbi_scores.
  pose proof (viterbi_history_range self T em mask (seq 1 (L - 1)) HT
                (start_plus_first self T (nth 0 em []), [])) as H.
  destruct (fold_left (viterbi_step self T em mask) (seq 1 (L - 1))
                      (start_plus_first self T (nth 0 em []), []))
    as [score history].
  cbn [snd] in *. apply H. constructor.
Qed.

Lemma viterbi_scores_length (self : crf_params) (L T : nat) (em : tensor2)
      (mask : list bool) :
  length (fst (viterbi_scores self L T em mask)) = T.
Proof.
  unfold viterbi_scores.
  destruct (fold_left (viterbi_step self T em mask) (seq 1 (L - 1))
                      (start_plus_first self T (nth 0 em []), []))
    as [score history].
  cbn [fst]. now rewrite length_map, length_seq.
Qed.

Lemma nth_in_range (T k : nat) (hist : list nat) :
  (0 < T)%nat -> Forall (fun t => (t < T)%nat) hist ->
  (nth k hist 0 < T)%nat.
Proof.
  intros HT H. destruct (Nat.lt_ge_cases k (length hist)) as [Hk|Hk].
  - rewrite Forall_forall in H. apply H, nth_In, Hk.
  - now rewrite nth_overflow.
Qed.

Lemma walk_back_range (T : nat) (hs : list (list nat)) :
  (0 < T)%nat -> Forall (Forall (fun t => (t < T)%nat)) hs ->
  forall best_tags,
    Forall (fun t => (t < T)%nat) best_tags ->
    Forall (fun t => (t < T)%nat)
           (fold_left (fun best_tags hist =>
                         best_tags ++ [nth (last best_tags 0%nat) hist 0%nat])
                      hs best_tags) /\
    length (fold_left (fun best_tags hist =>
                         best_tags ++ [nth (last best_tags 0%nat) hist 0%nat])
                      hs best_tags)
    = (length best_tags + length hs)%nat.
Proof.
  intros HT Hhs. induction Hhs as [|hist hs Hhist _ IH]; intros best Hbest;
    cbn [fold_left length].
  - split; [exact Hbest|lia].
  - destruct (IH (best ++ [nth (last best 0%nat) hist 0%nat])) as (Hr & Hl).
    + apply Forall_app. split; [exact Hbest|].
      constructor; [|constructor]. now apply nth_in_range.
    + split; [exact Hr|]. rewrite Hl, length_app. cbn [length]. lia.
Qed.

Lemma in_firstn_in {A} (k : nat) (l : list A) (x : A) :
  In x (firstn k l) -> In x l.
Proof.
  intros H. rewrite <- (firstn_skipn k l). apply in_or_app. now left.
Qed.

Lemma viterbi_row_any_mask (self : crf_params) (L T : nat) (em : tensor2)
      (mask : list bool) :
  (0 < T)%nat -> length mask = L -> (0 < mask_sum mask)%Z ->
  Z.of_nat (length (viterbi_row self L T em mask)) = mask_sum mask /\
  Forall (fun t => (t < T)%nat) (viterbi_row self L T em mask).
Proof.
  intros HT Hlen Hsum. unfold viterbi_row.
  pose proof (viterbi_scores_history_length self L T em mask) as Hhl.
  pose proof (viterbi_scores_history_range self L T em mask HT) as Hhr.
  pose proof (viterbi_scores_length self L T em mask) as Hsl.
  pose proof (mask_sum_bounds mask) as Hb. rewrite Hlen in Hb.
  destruct (viterbi_scores self L T em mask) as [score history].
  cbn [fst snd] in *.
  unfold slice_to.
  replace (mask_sum mask - 1 <? 0)%Z with false
    by (symmetry; apply Z.ltb_ge; lia).
  destruct (walk_back_range T
              (rev (firstn (Z.to_nat (mask_sum mask - 1)) history)) HT)
    with (best_tags := [snd (max_dim score)]) as (Hr & Hl).
  - apply Forall_rev. rewrite Forall_forall in *.
    intros h Hh. apply Hhr. eapply in_firstn_in, Hh.
  - constructor; [|constructor].
    destruct (max_dim_spec score) as (Hlt & _); [|lia].
    intros ->. cbn [length] in Hsl. lia.
  - split.
    + rewrite length_rev, Hl, length_rev, length_firstn. cbn [length]. lia.
    + now apply Forall_rev.
Qed.

(** X12.  [PartialCRF._viterbi_tags] and [CRF.viterbi_decode] return the
    same paths, and for a row whose mask (of [L] bits, contiguous or not)
    has at least one true bit the path holds exactly one tag per true bit,
    each of them a tag index below [T]. *)
Theorem decoders_one_tag_per_true_bit
        (self : crf_params) (emissions : tensor3) (mask : list (list bool))
        (B L T b : nat) :
  well_shaped self B L T emissions ->
  (0 < T)%nat -> (0 < L)%nat -> (b < B)%nat ->
  length (nth b mask []) = L ->
  (0 < mask_sum (nth b mask []))%Z ->
  exists paths,
    PartialCRF._viterbi_tags self emissions mask = Some paths /\
    CRF.viterbi_decode self emissions (Some mask) = Some paths /\
    Z.of_nat (length (nth b paths [])) = mask_sum (nth b mask []) /\
    Forall (fun t => (t < T)%nat) (nth b paths []).
Proof.
  intros Hws HT HL Hb Hlen Hsum.
  unfold PartialCRF._viterbi_tags, CRF.viterbi_decode, viterbi_tags.
  rewrite (shape3_well_shaped self B L T) by (assumption || lia).
  rewrite batch_guard_false by lia.
  eexists. split; [reflexivity|]. split; [reflexivity|].
  rewrite nth_map_seq by exact Hb.
  now apply viterbi_row_any_mask.
Qed.

Lemma decoders_one_tag_per_true_bit_witness :
  exists paths,
    PartialCRF._viterbi_tags example_crf example_emissions
                             [[true; false; true]] = Some paths /\
    CRF.viterbi_decode example_crf example_emissions
                       (Some [[true; false; true]]) = Some paths /\
    Z.of_nat (length (nth 0 paths []))
    = mask_sum (nth 0 [[true; false; true]] []) /\
    Forall (fun t => (t < 2)%nat) (nth 0 paths []).
Proof.
  apply (decoders_one_tag_per_true_bit example_crf example_emissions
           [[true; false; true]] 1 3 2 0).
  - exact example_well_shaped.
  - lia.
  - lia.
  - lia.
  - reflexivity.
  - reflexivity.
Defined.

(** ** The loss of [PartialCRF.forward] *)

Lemma overwritten_row_shape (L T : nat) (em : tensor2)
      (possible : list (list bool)) :
  (0 < L)%nat -> length (nth 0 em []) = T ->
  length (PartialCRF.overwritten_row L T em possible) = L /\
  Forall (fun e => length e = T) (PartialCRF.overwritten_row L T em possible).
Proof.
  intros HL H0. unfold PartialCRF.overwritten_row. split.
  - now rewrite length_map, length_seq.
  - apply Forall_forall. intros e He.
    apply in_map_iff in He. destruct He as (i & <- & _).
    destruct (Nat.eqb_spec i 0) as [->|_]; [exact H0|].
    now rewrite length_map, length_seq.
Qed.

Lemma well_shaped_overwritten (self : crf_params) (B L T : nat)
      (emissions : tensor3) (possible_tags : list (list (list bool))) :
  well_shaped self B L T emissions -> (0 < L)%nat ->
  well_shaped self B L T
    (map (fun b => PartialCRF.overwritten_row L T (nth b emissions [])
                                              (nth b possible_tags []))
         (seq 0 B)).
Proof.
  intros Hws HL. pose proof Hws as (HB & Hrows & Hrest).
  split; [|split; [|exact Hrest]].
  - now rewrite length_map, length_seq.
  - apply Forall_forall. intros row Hrow.
    apply in_map_iff in Hrow. destruct Hrow as (b & <- & Hb).
    apply in_seq in Hb. apply overwritten_row_shape; [exact HL|].
    apply (well_shaped_row self B L T); (assumption || lia).
Qed.

Lemma partial_row_value_below_overwritten
      (self : crf_params) (emissions : tensor3) (mask : list (list bool))
      (possible_tags : list (list (list bool))) (B L T b : nat) :
  (0 < T)%nat -> (b < B)%nat ->
  valid_masks B L mask ->
  (forall u, (u < T)%nat ->
      IMPOSSIBLE_SCORE
      <= at1 (start_transitions self) u + at1 (nth 0 (nth b emissions []) []) u) ->
  (forall u v, (u < T)%nat -> (v < T)%nat ->
      IMPOSSIBLE_SCORE <= at2 (transitions self) u v) ->
  (forall v, (v < T)%nat -> IMPOSSIBLE_SCORE <= at1 (end_transitions self) v) ->
  partial_row_value self L T emissions mask possible_tags b
  <= denominator_row self L T
       (PartialCRF.overwritten_row L T (nth b emissions [])
                                   (nth b possible_tags []))
       (nth b mask []).
Proof.
  intros HT Hb Hmasks Hfirst Htr Hend.
  destruct (Hmasks b Hb) as (n & Hn & Hmask).
  unfold partial_row_value. rewrite Hmask.
  apply partial_row_below_partition; try assumption.
  intros t Ht. pose proof (all_seqs_length T n t Ht) as Hlen.
  apply restricted_path_score_le_overwritten; try assumption.
  - lia.
  - now apply (all_seqs_nonempty T n).
  - now apply all_seqs_range with (n := n).
Qed.

(** X13.  For contiguous masks and a tag tensor of the batch's shape: when
    no start-plus-first-emission score, emission, transition or end
    parameter lies below the sentinel [IMPOSSIBLE_SCORE],
    [PartialCRF.forward] returns a loss that is not negative.  This holds
    for a batch of several rows, where the partition function is taken on
    the caller's emissions, and for a batch of one row, where it is taken
    on the emissions the gold scorer has overwritten in place. *)
Theorem partial_crf_loss_nonnegative
        (self : crf_params) (emissions : tensor3) (tags : list (list Z))
        (mask : list (list bool)) (B L T : nat) :
  well_shaped self B L T emissions ->
  (0 < T)%nat -> (0 < B)%nat ->
  length tags = B ->
  Forall (fun r => length r = L) tags ->
  valid_masks B L mask ->
  (forall b u, (b < B)%nat -> (u < T)%nat ->
      IMPOSSIBLE_SCORE
      <= at1 (start_transitions self) u + at1 (nth 0 (nth b emissions []) []) u) ->
  (forall b i v, (b < B)%nat -> (i < L)%nat -> (v < T)%nat ->
      IMPOSSIBLE_SCORE <= at1 (nth i (nth b emissions []) []) v) ->
  (forall u v, (u < T)%nat -> (v < T)%nat ->
      IMPOSSIBLE_SCORE <= at2 (transitions self) u v) ->
  (forall v, (v < T)%nat -> IMPOSSIBLE_SCORE <= at1 (end_transitions self) v) ->
  exists loss,
    result (PartialCRF.forward self emissions tags (Some mask)) = Some loss /\
    0 <= loss.
Proof.
  intros Hws HT HB Htl Htrows Hmasks Hfirst Hem Htr Hend.
  assert (HL : (0 < L)%nat)
    by (apply (valid_masks_length_pos B L mask); assumption).
  assert (Hplen : length (create_possible_tag_masks (num_tags self) tags) = B)
    by (unfold create_possible_tag_masks; now rewrite length_map).
  pose proof (create_possible_tag_masks_rows (num_tags self) L tags Htrows)
    as Hprows.
  pose proof (partial_numerator_value self emissions tags mask
                (create_possible_tag_masks (num_tags self) tags) B L T
                Hws HB Hmasks Hplen Hprows) as Hres.
  pose proof (f_equal (@caller_emissions (list R))
                (partial_numerator_unfold self emissions tags mask
                   (create_possible_tag_masks (num_tags self) tags) B L T
                   Hws HB HL)) as Hcaller.
  cbn [caller_emissions] in Hcaller.
  unfold PartialCRF.forward. cbn [result].
  rewrite Hres, Hcaller. cbn [bind].
  unfold PartialCRF._denominator_score.
  destruct (PartialCRF.transposed_is_view B).
  - pose proof (denominator_score_value self _ mask B L T
                  (well_shaped_overwritten self B L T emissions
                     (create_possible_tag_masks (num_tags self) tags) Hws HL)
                  HB HL) as Hden.
    unfold CRF._denominator_score in Hden. rewrite Hden. cbn [bind].
    eexists. split; [reflexivity|].
    rewrite length_map, length_seq.
    apply vsum_map_nonneg. intros b Hb. apply in_seq in Hb.
    rewrite !nth_map_seq by lia.
    pose proof (partial_row_value_below_overwritten self emissions mask
                  (create_possible_tag_masks (num_tags self) tags) B L T b HT
                  ltac:(lia) Hmasks
                  (fun u Hu => Hfirst b u ltac:(lia) Hu) Htr Hend).
    lra.
  - pose proof (denominator_score_value self emissions mask B L T Hws HB HL)
      as Hden.
    unfold CRF._denominator_score in Hden. rewrite Hden. cbn [bind].
    eexists. split; [reflexivity|].
    rewrite length_map, length_seq.
    apply vsum_map_nonneg. intros b Hb. apply in_seq in Hb.
    rewrite !nth_map_seq by lia.
    pose proof (partial_row_value_below_partition self emissions mask
                  (create_possible_tag_masks (num_tags self) tags) B L T b Hws
                  HT ltac:(lia) Hmasks
                  (fun u Hu => Hfirst b u ltac:(lia) Hu)
                  (fun i v Hi Hv => Hem b i v ltac:(lia) Hi Hv) Htr Hend).
    lra.
Qed.

Lemma partial_crf_loss_nonnegative_witness :
  exists loss,
    result (PartialCRF.forward example_crf example_emissions example_tags
                               (Some [prefix_mask 3 3])) = Some loss /\
    0 <= loss.
Proof.
  apply (partial_crf_loss_nonnegative example_crf example_emissions
           example_tags [prefix_mask 3 3] 1 3 2).
  - exact example_well_shaped.
  - lia.
  - lia.
  - reflexivity.
  - repeat constructor.
  - exact example_valid_masks.
  - intros b u Hb Hu.
    destruct b as [|b]; [|lia].
    destruct u as [|[|u]]; try lia;
      unfold at1, IMPOSSIBLE_SCORE; simpl; lra.
  - intros b i v Hb Hi Hv.
    destruct b as [|b]; [|lia].
    destruct i as [|[|[|i]]]; try lia;
      destruct v as [|[|v]]; try lia;
      unfold at1, IMPOSSIBLE_SCORE; simpl; lra.
  - intros u v Hu Hv.
    destruct u as [|[|u]]; destruct v as [|[|v]]; try lia;
      unfold at2, IMPOSSIBLE_SCORE; simpl; lra.
  - intros v Hv.
    destruct v as [|[|v]]; try lia;
      unfold at1, IMPOSSIBLE_SCORE; simpl; lra.
Defined.
